(** * secure-chat-canvas: local message store and encrypted protocol handler

    A shallow embedding of [src/lib/storage/messageStore.ts]
    (class [MessageStoreManager]) and of [src/lib/websocket/messageHandler.ts]
    (class [MessageHandler]), with the properties of the session and protocol
    engine stated over it; then of the reducer of [contexts/AuthContext], of
    the fingerprint display ([components/crypto/KeyFingerprintDisplay]) and
    of the list and sync operations of [hooks/useMessages].

    Conventions.
    - Strings are [string], timestamps and durations are [Z] (milliseconds),
      JavaScript [Map]s are [gmap]s.
    - An [async] method is embedded as a state transformer.  The only
      suspension that matters for the properties below is the [await] on the
      promise returned by [requestPublicKey]; it is modelled explicitly by a
      table of outstanding key requests together with the continuation that
      waits on each of them.  Awaits on storage complete within the step that
      issues them.
    - [Date.now()] is the [clock] field of the world; [Math.random()] is an
      argument of the operation that draws from it. *)

From stdpp Require Import base strings gmap list sorting pretty.
From Stdlib Require Import ZArith Ascii.

(* ===================================================================== *)
(** * A state monad for the methods of the two classes *)
(* ===================================================================== *)

Definition State (S A : Type) : Type := S → A * S.

Definition ret {S A} (a : A) : State S A := λ s, (a, s).
Definition bind {S A B} (c : State S A) (k : A → State S B) : State S B :=
  λ s, let '(a, s') := c s in k a s'.
Definition gets {S A} (f : S → A) : State S A := λ s, (f s, s).
Definition modify {S} (f : S → S) : State S unit := λ s, (tt, f s).

Notation "x <~ c ;; k" := (bind c (λ x, k))
  (at level 100, c at next level, right associativity).
Notation "c ;;; k" := (bind c (λ _, k))
  (at level 100, right associativity).

(** [for (const x of l) { await body(x) }] *)
Fixpoint forEach {S A} (body : A → State S unit) (l : list A) : State S unit :=
  match l with
  | [] => ret tt
  | x :: l' => body x ;;; forEach body l'
  end.

(** The outcome of a call that may throw. *)
Inductive Result (A : Type) : Type :=
| Ok (a : A)
| Throw (error : string).
Arguments Ok {A} a.
Arguments Throw {A} error.

(* ===================================================================== *)
(** * Storage layer *)
(* ===================================================================== *)

Module Storage.

(** [StoredMessage] of indexeddb.ts, as the spec's data model gives it. *)
Record StoredMessage := mkStoredMessage {
  id : string;
  conversationId : string;
  senderId : string;
  recipientId : string;
  ciphertext : string;
  timestamp : Z;
  synced : bool;
  read : bool;
}.

(** The object store keeps each record under its [id] (in-line key), so the
    key of a record and its [id] property never differ.  The table therefore
    maps an id to the remaining properties of the record. *)
Record Row := mkRow {
  r_conversationId : string;
  r_senderId : string;
  r_recipientId : string;
  r_ciphertext : string;
  r_timestamp : Z;
  r_synced : bool;
  r_read : bool;
}.

Definition to_row (m : StoredMessage) : Row :=
  mkRow (conversationId m) (senderId m) (recipientId m) (ciphertext m)
        (timestamp m) (synced m) (read m).

Definition of_row (k : string) (r : Row) : StoredMessage :=
  mkStoredMessage k (r_conversationId r) (r_senderId r) (r_recipientId r)
                  (r_ciphertext r) (r_timestamp r) (r_synced r) (r_read r).

Abbreviation DB := (gmap string Row).

(** The argument of [saveMessage].  Its static type is
    [Omit<StoredMessage, 'synced' | 'read'>]; at run time the object may
    still carry these two properties (any [StoredMessage] is assignable to
    that type), hence the two optional fields. *)
Record MessageInput := mkMessageInput {
  in_id : string;
  in_conversationId : string;
  in_senderId : string;
  in_recipientId : string;
  in_ciphertext : string;
  in_timestamp : Z;
  in_synced : option bool;
  in_read : option bool;
}.

(** [Partial<Pick<StoredMessage, 'ciphertext' | 'read' | 'synced'>>] *)
Record MessageUpdates := mkMessageUpdates {
  u_ciphertext : option string;
  u_read : option bool;
  u_synced : option bool;
}.

Inductive MessageSyncStatus := pending | syncedStatus | failed.

(** [MessageWithMeta extends StoredMessage] *)
Record MessageWithMeta := mkMessageWithMeta {
  meta_message : StoredMessage;
  syncStatus : MessageSyncStatus;
  retryCount : nat;
  lastRetryAt : option Z;
}.

(** ** indexeddb.ts *)

(** Modelled from the spec: [storeMessage] of indexeddb.ts is not among the
    sources.  The persistence boundary of the spec is "a keyed record store
    supporting get/put/delete/getAll per logical table"; [storeMessage] is
    the put of that store, which replaces the record kept under the same
    id. *)
Definition storeMessage (m : StoredMessage) (d : DB) : DB :=
  <[id m := to_row m]> d.

(** getAll of the keyed record store. *)
Definition allMessages (d : DB) : list StoredMessage :=
  (λ kr, of_row kr.1 kr.2) <$> map_to_list d.

Definition newer_first (a b : StoredMessage) : Prop :=
  (timestamp b ≤ timestamp a)%Z.

Global Instance newer_first_dec : RelDecision newer_first.
Proof. intros a b. unfold newer_first. apply _. Defined.

Definition in_page (conv : string) (before : option Z) (m : StoredMessage) : Prop :=
  conversationId m = conv ∧
  match before with Some t => (timestamp m < t)%Z | None => True end.

Global Instance in_page_dec conv before m : Decision (in_page conv before m).
Proof. unfold in_page. destruct before; apply _. Defined.

(** Modelled from the spec: [getMessages] of indexeddb.ts is not among the
    sources.  The spec gives "pagination by (conversationId, limit,
    beforeTimestamp?), returned oldest-first after retrieval for display,
    newest-page-first for incremental load more": the page holds the [limit]
    newest records of the conversation that are older than [before], oldest
    first. *)
Definition getMessages (conv : string) (limit : Z) (before : option Z)
    (d : DB) : list StoredMessage :=
  reverse (take (Z.to_nat limit)
    (merge_sort newer_first (filter (in_page conv before) (allMessages d)))).

(** Modelled from the spec: [getUnsyncedMessages] of indexeddb.ts is not
    among the sources; it yields "every envelope with synced:false". *)
Definition getUnsyncedMessages (d : DB) : list StoredMessage :=
  filter (λ m, synced m = false) (allMessages d).

(** Modelled from the spec: [markMessageSynced] of indexeddb.ts is not among
    the sources; "mark it synced" sets the [synced] property of the record
    kept under the id, when there is one. *)
Definition setSynced (r : Row) : Row :=
  mkRow (r_conversationId r) (r_senderId r) (r_recipientId r)
        (r_ciphertext r) (r_timestamp r) true (r_read r).

Definition markMessageSynced (k : string) (d : DB) : DB :=
  match d !! k with
  | Some r => <[k := setSynced r]> d
  | None => d
  end.

(** ** class MessageStoreManager *)

Record Manager := mkManager {
  initialized : bool;
  pendingSync : gmap string MessageWithMeta;
  syncInterval : bool;      (* an interval timer is installed *)
  db : DB;
}.

Definition newManager : Manager := mkManager false ∅ false ∅.

Definition set_db (f : DB → DB) (s : Manager) : Manager :=
  mkManager (initialized s) (pendingSync s) (syncInterval s) (f (db s)).

Definition set_pendingSync
    (f : gmap string MessageWithMeta → gmap string MessageWithMeta)
    (s : Manager) : Manager :=
  mkManager (initialized s) (f (pendingSync s)) (syncInterval s) (db s).

(** Methods run in the state monad over the manager. *)
Definition M (A : Type) : Type := State Manager A.

Definition startSyncMonitor : M unit :=
  modify (λ s, mkManager (initialized s) (pendingSync s) true (db s)).

Definition init : M unit := λ s,
  if initialized s then (tt, s)
  else startSyncMonitor
         (mkManager true (pendingSync s) (syncInterval s) (db s)).

Definition stopSyncMonitor : M unit :=
  modify (λ s, mkManager (initialized s) (pendingSync s) false (db s)).

Definition saveMessage (message : MessageInput) : M StoredMessage :=
  init ;;;
  let fullMessage :=
    (* { ...message, synced: false, read: false } *)
    mkStoredMessage (in_id message) (in_conversationId message)
      (in_senderId message) (in_recipientId message)
      (in_ciphertext message) (in_timestamp message) false false in
  modify (set_db (storeMessage fullMessage)) ;;;
  modify (set_pendingSync
            (insert (in_id message)
                    (mkMessageWithMeta fullMessage pending 0 None))) ;;;
  ret fullMessage.

Definition getConversationMessages (conv : string) (limit : option Z)
    (beforeTimestamp : option Z) : M (list StoredMessage) :=
  init ;;;
  gets (λ s, getMessages conv (default 50%Z limit) beforeTimestamp (db s)).

Definition getMessage (messageId : string) : M (option StoredMessage) :=
  init ;;;
  gets (λ s, of_row messageId <$> db s !! messageId).

(** [{ ...message, ...updates }] *)
Definition applyUpdates (message : StoredMessage) (updates : MessageUpdates)
    : StoredMessage :=
  mkStoredMessage (id message) (conversationId message) (senderId message)
    (recipientId message)
    (default (ciphertext message) (u_ciphertext updates))
    (timestamp message)
    (default (synced message) (u_synced updates))
    (default (read message) (u_read updates)).

Definition updateMessage (messageId : string) (updates : MessageUpdates)
    : M (option StoredMessage) :=
  init ;;;
  message <~ getMessage messageId ;;
  match message with
  | None => ret None
  | Some message =>
      let updated := applyUpdates message updates in
      modify (set_db (storeMessage updated)) ;;;
      ret (Some updated)
  end.

Definition deleteMessage (messageId : string) : M bool :=
  init ;;;
  modify (set_db (delete messageId)) ;;;
  ret true.

(** [deletedCount] is threaded through the loop as in the source. *)
Fixpoint deleteEach (messages : list StoredMessage) (deletedCount : nat)
    : M nat :=
  match messages with
  | [] => ret deletedCount
  | msg :: rest =>
      deleteMessage (id msg) ;;;
      deleteEach rest (S deletedCount)
  end.

Definition deleteConversationMessages (conv : string) : M nat :=
  init ;;;
  messages <~ gets (λ s, getMessages conv 10000 None (db s)) ;;
  deleteEach messages 0.

Definition markAsRead (messageId : string) : M unit :=
  updateMessage messageId (mkMessageUpdates None (Some true) None) ;;;
  ret tt.

(** The body of the loop of [markConversationAsRead]. *)
Definition markIfUnread (msg : StoredMessage) : M unit :=
  if read msg then ret tt
  else updateMessage (id msg) (mkMessageUpdates None (Some true) None) ;;;
       ret tt.

Definition markConversationAsRead (conv : string) : M unit :=
  init ;;;
  messages <~ gets (λ s, getMessages conv 10000 None (db s)) ;;
  forEach markIfUnread messages.

Definition markSynced (messageId : string) : M unit :=
  modify (set_db (markMessageSynced messageId)) ;;;
  modify (set_pendingSync (delete messageId)).

Definition getUnsynced : M (list StoredMessage) :=
  init ;;;
  gets (λ s, getUnsyncedMessages (db s)).

Definition processPendingSync : M unit :=
  unsynced <~ getUnsynced ;;
  forEach (λ msg,
    has <~ gets (λ s, bool_decide (is_Some (pendingSync s !! id msg))) ;;
    if has then ret tt
    else modify (set_pendingSync
                   (insert (id msg) (mkMessageWithMeta msg pending 0 None))))
    unsynced.

(** [importedCount] is threaded through the loop as in the source. *)
Fixpoint importEach (messages : list StoredMessage) (importedCount : nat)
    : M nat :=
  match messages with
  | [] => ret importedCount
  | msg :: rest =>
      existing <~ getMessage (id msg) ;;
      match existing with
      | Some _ => importEach rest importedCount
      | None =>
          (* storeMessage({ ...msg, synced: true }) *)
          modify (set_db (storeMessage
            (mkStoredMessage (id msg) (conversationId msg) (senderId msg)
               (recipientId msg) (ciphertext msg) (timestamp msg) true
               (read msg)))) ;;;
          importEach rest (S importedCount)
      end
  end.

Definition importMessages (messages : list StoredMessage) : M nat :=
  init ;;;
  importEach messages 0.

Definition getMessageCount (conv : string) : M nat :=
  messages <~ gets (λ s, getMessages conv 10000 None (db s)) ;;
  ret (length messages).

Definition getUnreadCount (conv : string) : M nat :=
  messages <~ gets (λ s, getMessages conv 10000 None (db s)) ;;
  ret (length (filter (λ m, read m = false) messages)).

(** [clearAllData] wipes the tables. *)
Definition clearAll : M unit :=
  modify (λ s, mkManager false ∅ (syncInterval s) ∅).

(** ** Vocabulary of the properties *)

(** [r'] differs from [r] at most in [synced] and [read]. *)
Definition sameButFlags (r r' : Row) : Prop :=
  r_conversationId r' = r_conversationId r ∧
  r_senderId r' = r_senderId r ∧
  r_recipientId r' = r_recipientId r ∧
  r_ciphertext r' = r_ciphertext r ∧
  r_timestamp r' = r_timestamp r.

(** The number of envelopes a conversation has in the table. *)
Definition conversationSize (conv : string) (d : DB) : nat :=
  length (filter (in_page conv None) (allMessages d)).

(** The table without the records of [l]. *)
Definition deleteAll (l : list StoredMessage) (d : DB) : DB :=
  foldl (λ d m, delete (id m) d) d l.

Definition markRead (r : Row) : Row :=
  mkRow (r_conversationId r) (r_senderId r) (r_recipientId r)
        (r_ciphertext r) (r_timestamp r) (r_synced r) true.

Definition unread (m : StoredMessage) : Prop := read m = false.

Global Instance unread_dec m : Decision (unread m).
Proof. unfold unread. apply _. Defined.

(** A one-envelope store, built through [saveMessage]. *)
Definition sampleInput : MessageInput :=
  mkMessageInput "m1" "conv-1" "alice" "bob" "abc" 1700000000000
                 (Some true) (Some true).

Definition sampleStore : Manager := (saveMessage sampleInput newManager).2.

(** ** Vocabulary of the further properties *)

(** [{ ...msg, synced: true }], the record [importMessages] stores. *)
Definition asImported (msg : StoredMessage) : StoredMessage :=
  mkStoredMessage (id msg) (conversationId msg) (senderId msg)
    (recipientId msg) (ciphertext msg) (timestamp msg) true (read msg).

(** The entry [saveMessage] and [processPendingSync] put in [pendingSync]:
    [{ ...msg, syncStatus: 'pending', retryCount: 0 }]. *)
Definition tracked (msg : StoredMessage) : MessageWithMeta :=
  mkMessageWithMeta msg pending 0 None.

(** The body of the loop of [processPendingSync], by name. *)
Definition trackIfNew (msg : StoredMessage) : M unit :=
  has <~ gets (λ s, bool_decide (is_Some (pendingSync s !! id msg))) ;;
  if has then ret tt
  else modify (set_pendingSync
                 (insert (id msg) (mkMessageWithMeta msg pending 0 None))).

End Storage.

(* ===================================================================== *)
(** * Protocol layer: class MessageHandler *)
(* ===================================================================== *)

Module Protocol.
Import Storage.

(** ** Data *)

Record KeyPair := mkKeyPair {
  publicKeyRaw : string;
  fingerprint : string;
}.

Record SecureSession := mkSecureSession {
  sessionId : string;
  createdAt : Z;
  keyMaterial : string;
}.

Record StoredSession := mkStoredSession {
  ss_id : string;
  peerId : string;
  peerPublicKey : string;
  peerFingerprint : string;
  ss_createdAt : Z;
  lastActivity : Z;
}.

Record EncryptedMessagePayload := mkEncryptedMessagePayload {
  p_conversationId : string;
  p_senderId : string;
  p_recipientId : string;
  p_ciphertext : string;
  p_timestamp : Z;
}.

Record KeyResponsePayload := mkKeyResponsePayload {
  userId : string;
  publicKey : string;
  k_fingerprint : string;
}.

(** The argument of [decryptSessionMessage]. *)
Record SecureMessagePayload := mkSecureMessagePayload {
  sm_sessionId : string;
  sm_senderId : string;
  sm_recipientId : string;
  sm_ciphertext : string;
  sm_timestamp : Z;
}.

Inductive MessageStatus := sending | sent | delivered | read_.

(** [Message] of chat/types, the record handed to the UI. *)
Record Message := mkMessage {
  msg_id : string;
  msg_conversationId : string;
  msg_senderId : string;
  content : string;
  msg_timestamp : Z;
  status : MessageStatus;
  isEncrypted : bool;
}.

Inductive ConnectionState := disconnected | connecting | connected | reconnecting.

Global Instance ConnectionState_eq_dec : EqDecision ConnectionState.
Proof. solve_decision. Defined.

(** A protocol frame: the [type] tag with the payload that goes with it. *)
Inductive Frame :=
| FMessage (payload : EncryptedMessagePayload)
| FMessageAck (messageId conv status : string)
| FTyping (conv user : string) (isTyping : bool)
| FPresence (user : string) (isOnline : bool) (lastSeen : option Z)
| FKeyRequest (requesterId targetUserId : string)
| FKeyResponse (payload : KeyResponsePayload)
| FSessionInit
| FReadReceipt (conv messageId readBy : string) (readAt : Z)
| FSyncRequest
| FSyncResponse.

(** [MessageHandlerCallbacks]: which callbacks have been registered. *)
Record Callbacks := mkCallbacks {
  onMessage : bool;
  onTyping : bool;
  onPresence : bool;
  onReadReceipt : bool;
  onConnectionChange : bool;
  onSessionEstablished : bool;
  onError : bool;
}.

(** An invocation of a callback, with its arguments. *)
Inductive UIEvent :=
| OnMessage (message : Message)
| OnTyping (conv user : string) (isTyping : bool)
| OnPresence (user : string) (isOnline : bool) (lastSeen : option Z)
| OnReadReceipt (conv messageId : string)
| OnConnectionChange (state : ConnectionState)
| OnSessionEstablished (peer : string)
| OnError (error : string).

Definition registered (c : Callbacks) (e : UIEvent) : bool :=
  match e with
  | OnMessage _ => onMessage c
  | OnTyping _ _ _ => onTyping c
  | OnPresence _ _ _ => onPresence c
  | OnReadReceipt _ _ => onReadReceipt c
  | OnConnectionChange _ => onConnectionChange c
  | OnSessionEstablished _ => onSessionEstablished c
  | OnError _ => onError c
  end.

(** What an observer of the handler sees, in the order it happens. *)
Inductive Effect :=
| Persisted (m : StoredMessage)            (* messageStore.saveMessage returned *)
| Sent (f : Frame) (accepted : bool)       (* client.send returned [accepted] *)
| Notified (e : UIEvent)                   (* a registered callback ran *)
| Decrypted (p : SecureMessagePayload) (ok : bool). (* decryptSessionMessage ran *)

(** The promise made by one call of [requestPublicKey], with the timer that
    guards it and the [handleEncryptedMessage] activation awaiting it. *)
Inductive Outcome :=
| Waiting
| Resolved (response : KeyResponsePayload)
| Rejected (error : string).

Record KeyRequest := mkKeyRequest {
  target : string;
  deadline : Z;              (* when the timer is due *)
  timerLive : bool;          (* neither fired nor cleared *)
  outcome : Outcome;
  waiter : option EncryptedMessagePayload;
}.

Record MessageHandler := mkMessageHandler {
  myKeyPair : option KeyPair;
  myUserId : string;
  sessions : gmap string SecureSession;
  pendingKeyRequests : gmap string nat;   (* the resolver of request [n] *)
  callbacks : Callbacks;
  subscribed : bool;                      (* [unsubscribes] not yet run *)
}.

Record World := mkWorld {
  clock : Z;
  connection : ConnectionState;
  store : Manager;                        (* the [messageStore] singleton *)
  sessionDb : gmap string StoredSession;  (* the [sessionStore] singleton *)
  handler : MessageHandler;
  requests : list KeyRequest;
  trace : list Effect;
}.

Definition W (A : Type) : Type := State World A.

Definition set_clock (f : Z → Z) (w : World) : World :=
  mkWorld (f (clock w)) (connection w) (store w) (sessionDb w) (handler w)
          (requests w) (trace w).
Definition set_connection (c : ConnectionState) (w : World) : World :=
  mkWorld (clock w) c (store w) (sessionDb w) (handler w) (requests w)
          (trace w).
Definition set_store (s : Manager) (w : World) : World :=
  mkWorld (clock w) (connection w) s (sessionDb w) (handler w) (requests w)
          (trace w).
Definition set_sessionDb
    (f : gmap string StoredSession → gmap string StoredSession) (w : World)
    : World :=
  mkWorld (clock w) (connection w) (store w) (f (sessionDb w)) (handler w)
          (requests w) (trace w).
Definition set_handler (f : MessageHandler → MessageHandler) (w : World)
    : World :=
  mkWorld (clock w) (connection w) (store w) (sessionDb w) (f (handler w))
          (requests w) (trace w).
Definition set_requests (f : list KeyRequest → list KeyRequest) (w : World)
    : World :=
  mkWorld (clock w) (connection w) (store w) (sessionDb w) (handler w)
          (f (requests w)) (trace w).
Definition set_trace (f : list Effect → list Effect) (w : World) : World :=
  mkWorld (clock w) (connection w) (store w) (sessionDb w) (handler w)
          (requests w) (f (trace w)).

Definition set_sessions
    (f : gmap string SecureSession → gmap string SecureSession)
    (h : MessageHandler) : MessageHandler :=
  mkMessageHandler (myKeyPair h) (myUserId h) (f (sessions h))
                   (pendingKeyRequests h) (callbacks h) (subscribed h).
Definition set_pending (f : gmap string nat → gmap string nat)
    (h : MessageHandler) : MessageHandler :=
  mkMessageHandler (myKeyPair h) (myUserId h) (sessions h)
                   (f (pendingKeyRequests h)) (callbacks h) (subscribed h).

Definition set_outcome (o : Outcome) (r : KeyRequest) : KeyRequest :=
  mkKeyRequest (target r) (deadline r) (timerLive r) o (waiter r).
Definition set_timerLive (b : bool) (r : KeyRequest) : KeyRequest :=
  mkKeyRequest (target r) (deadline r) b (outcome r) (waiter r).
Definition set_waiter (p : EncryptedMessagePayload) (r : KeyRequest)
    : KeyRequest :=
  mkKeyRequest (target r) (deadline r) (timerLive r) (outcome r) (Some p).

(** ** Collaborators *)

Definition liftStore {A} (c : M A) : W A :=
  λ w, let '(a, s) := c (store w) in (a, set_store s w).

Definition log (e : Effect) : W unit := modify (set_trace (λ t, t ++ [e])).

(** [this.callbacks.onX?.(...)] *)
Definition notify (e : UIEvent) : W unit :=
  c <~ gets (λ w, callbacks (handler w)) ;;
  if registered c e then log (Notified e) else ret tt.

(** Modelled from the spec: [WebSocketClient.send] of websocket/client.ts is
    not among the sources.  "send(type, payload) -> bool enqueues/transmits a
    protocol frame; returns whether transmission was attempted"; "send
    attempts while not connected fail fast (return false) rather than
    silently queuing". *)
Definition client_send (f : Frame) : W bool :=
  ok <~ gets (λ w, bool_decide (connection w = connected)) ;;
  log (Sent f ok) ;;;
  ret ok.

(** [sessionStore.saveSession], a put into the session table under the
    session id. *)
Definition saveSession (s : StoredSession) : W unit :=
  modify (set_sessionDb (insert (ss_id s) s)).

(** The cryptographic primitives of lib/crypto are outside the sources; the
    spec has the core treat them "as opaque, failable operations".
    [encryptSessionMessage] yields the [encrypted.ciphertext] of its
    result. *)
Class Crypto := {
  establishSecureSession : KeyPair → string → string → Result SecureSession;
  encryptSessionMessage :
    SecureSession → string → string → string → Result string;
  decryptSessionMessage : SecureSession → SecureMessagePayload → Result string;
  arrayBufferToBase64 : string → string;
}.

(** ** Key requests *)

Definition KEY_REQUEST_TIMEOUT : Z := 10000.

Definition requestPublicKey (user : string) : W nat :=
  n <~ gets (λ w, length (requests w)) ;;
  now <~ gets clock ;;
  (* const timeout = setTimeout(() => { ... }, 10000) *)
  modify (set_requests (λ rs,
    rs ++ [mkKeyRequest user (now + KEY_REQUEST_TIMEOUT) true Waiting None])) ;;;
  (* this.pendingKeyRequests.set(userId, (response) => { ... }) *)
  modify (set_handler (set_pending (insert user n))) ;;;
  me <~ gets (λ w, myUserId (handler w)) ;;
  client_send (FKeyRequest me user) ;;;
  ret n.

(** Settling a promise: only the first [resolve] or [reject] has an effect.
    The result tells whether this call settled it. *)
Definition settle (n : nat) (o : Outcome) : W bool :=
  rs <~ gets requests ;;
  match outcome <$> rs !! n with
  | Some Waiting => modify (set_requests (alter (set_outcome o) n)) ;;; ret true
  | _ => ret false
  end.

Definition clearTimeout (n : nat) : W unit :=
  modify (set_requests (alter (set_timerLive false) n)).

(** [await this.requestPublicKey(...)] inside [handleEncryptedMessage]: the
    rest of the method body is parked on promise [n]. *)
Definition awaitKey (n : nat) (payload : EncryptedMessagePayload) : W unit :=
  modify (set_requests (alter (set_waiter payload) n)).

(** The rest of the no-session branch of [handleEncryptedMessage], run when
    the awaited promise resolves. *)
Definition storeForLater (payload : EncryptedMessagePayload) : W unit :=
  now <~ gets clock ;;
  me <~ gets (λ w, myUserId (handler w)) ;;
  stored <~ liftStore (saveMessage
    (mkMessageInput ("msg-" +:+ pretty now) (p_conversationId payload)
       (p_senderId payload) me (p_ciphertext payload) (p_timestamp payload)
       None None)) ;;
  log (Persisted stored).

(** The activation parked on promise [n] continues: after a resolve with the
    statements that follow the [await], after a reject in the [catch]
    block. *)
Definition resume (n : nat) : W unit :=
  rs <~ gets requests ;;
  match rs !! n with
  | Some r =>
      match waiter r, outcome r with
      | Some payload, Resolved _ => storeForLater payload
      | Some _, Rejected error => notify (OnError error)
      | _, _ => ret tt
      end
  | None => ret tt
  end.

Definition handleKeyResponse (payload : KeyResponsePayload) : W unit :=
  h <~ gets handler ;;
  match pendingKeyRequests h !! userId payload with
  | Some n =>
      (* resolver(payload): clearTimeout(timeout); resolve(response) *)
      clearTimeout n ;;;
      settled <~ settle n (Resolved payload) ;;
      modify (set_handler (set_pending (delete (userId payload)))) ;;;
      if settled then resume n else ret tt
  | None => ret tt
  end.

(** The callback given to [setTimeout] by request [n]. *)
Definition fireTimer (n : nat) : W unit :=
  rs <~ gets requests ;;
  match rs !! n with
  | Some r =>
      modify (set_requests (alter (set_timerLive false) n)) ;;;
      modify (set_handler (set_pending (delete (target r)))) ;;;
      settled <~ settle n (Rejected "Key request timeout") ;;
      if settled then resume n else ret tt
  | None => ret tt
  end.

Definition isDue (now : Z) (r : KeyRequest) : bool :=
  timerLive r && bool_decide (deadline r ≤ now)%Z.

(** The timers, by number and oldest first, whose request satisfies [P]. *)
Definition timersWhere (P : KeyRequest → bool) (rs : list KeyRequest)
    : list nat :=
  (filter (λ ir, P ir.2 = true) (imap pair rs)).*1.

(** The timers that are due.  All timers run for the same delay, so
    creation order is deadline order. *)
Definition dueTimers (w : World) : list nat :=
  timersWhere (isDue (clock w)) (requests w).

(** [ms] milliseconds pass and every timer that has become due fires. *)
Definition elapse (ms : N) : W unit :=
  modify (set_clock (λ t, t + Z.of_N ms)%Z) ;;;
  due <~ gets dueTimers ;;
  forEach fireTimer due.

(** ** Methods that do not touch the cryptographic primitives *)

Definition initialize (user : string) (keyPair : KeyPair) : W unit :=
  modify (set_handler (λ h,
    mkMessageHandler (Some keyPair) user (sessions h) (pendingKeyRequests h)
                     (callbacks h) (subscribed h))).

(** [{ ...this.callbacks, ...callbacks }] *)
Definition setCallbacks (c : Callbacks) : W unit :=
  modify (set_handler (λ h,
    let c0 := callbacks h in
    mkMessageHandler (myKeyPair h) (myUserId h) (sessions h)
      (pendingKeyRequests h)
      (mkCallbacks (onMessage c || onMessage c0) (onTyping c || onTyping c0)
         (onPresence c || onPresence c0)
         (onReadReceipt c || onReadReceipt c0)
         (onConnectionChange c || onConnectionChange c0)
         (onSessionEstablished c || onSessionEstablished c0)
         (onError c || onError c0))
      (subscribed h))).

Definition sendTyping (conv : string) (isTyping : bool) : W unit :=
  me <~ gets (λ w, myUserId (handler w)) ;;
  client_send (FTyping conv me isTyping) ;;;
  ret tt.

Definition sendReadReceipt (conv messageId : string) : W unit :=
  me <~ gets (λ w, myUserId (handler w)) ;;
  now <~ gets clock ;;
  client_send (FReadReceipt conv messageId me now) ;;;
  ret tt.

Definition frameOfEnvelope (msg : StoredMessage) : Frame :=
  FMessage (mkEncryptedMessagePayload (conversationId msg) (senderId msg)
              (recipientId msg) (ciphertext msg) (timestamp msg)).

(** The body of the loop of [syncPendingMessages]. *)
Definition resend (msg : StoredMessage) : W unit :=
  sent <~ client_send (frameOfEnvelope msg) ;;
  if sent then liftStore (markSynced (id msg)) else ret tt.

Definition syncPendingMessages : W unit :=
  unsynced <~ liftStore getUnsynced ;;
  forEach resend unsynced.

(** The listener registered with [client.onConnectionChange]. *)
Definition connectionListener (state : ConnectionState) : W unit :=
  notify (OnConnectionChange state) ;;;
  if bool_decide (state = connected) then syncPendingMessages else ret tt.

Definition hasSession (peer : string) : W bool :=
  gets (λ w, bool_decide (is_Some (sessions (handler w) !! peer))).

Definition destroy : W unit :=
  modify (set_handler (λ h,
    mkMessageHandler None "" ∅ ∅ (callbacks h) false)).

(** ** Records built by the methods *)

(** The argument [handleEncryptedMessage] hands to [decryptSessionMessage]. *)
Definition secureOf (session : SecureSession) (me : string)
    (payload : EncryptedMessagePayload) : SecureMessagePayload :=
  mkSecureMessagePayload (sessionId session) (p_senderId payload) me
    (p_ciphertext payload) (p_timestamp payload).

(** The [Message] it builds from the plaintext. *)
Definition deliveredMessage (payload : EncryptedMessagePayload)
    (plaintext : string) : Message :=
  mkMessage ("msg-" +:+ pretty (p_timestamp payload))
    (p_conversationId payload) (p_senderId payload) plaintext
    (p_timestamp payload) delivered true.

(** The record it saves for a decrypted message. *)
Definition inboundInput (me : string) (payload : EncryptedMessagePayload)
    : MessageInput :=
  mkMessageInput ("msg-" +:+ pretty (p_timestamp payload))
    (p_conversationId payload) (p_senderId payload) me
    (p_ciphertext payload) (p_timestamp payload) None None.

(** The record [sendMessage] saves. *)
Definition outboundInput (me recipient conv encrypted random : string)
    (now : Z) : MessageInput :=
  mkMessageInput ("msg-" +:+ pretty now +:+ "-" +:+ random) conv me recipient
    encrypted now None None.

(** ** Methods over the cryptographic primitives *)

Section with_crypto.
Context `{Crypto}.

Definition establishSession (peer pk fp : string)
    : W (Result SecureSession) :=
  h <~ gets handler ;;
  match myKeyPair h with
  | None => ret (Throw "No key pair available")
  | Some keyPair =>
      match establishSecureSession keyPair pk fp with
      | Throw e => ret (Throw e)
      | Ok session =>
          modify (set_handler (set_sessions (insert peer session))) ;;;
          now <~ gets clock ;;
          saveSession (mkStoredSession (sessionId session) peer pk fp
                         (createdAt session) now) ;;;
          notify (OnSessionEstablished peer) ;;;
          ret (Ok session)
      end
  end.

Definition getOrCreateSession (peer pk fp : string)
    : W (Result SecureSession) :=
  h <~ gets handler ;;
  match sessions h !! peer with
  | Some session => ret (Ok session)
  | None => establishSession peer pk fp
  end.

(** [random] is the text drawn from [Math.random().toString(36).slice(2)]. *)
Definition sendMessage
    (recipient conv text recipientPublicKey recipientFingerprint : string)
    (random : string) : W (Result Message) :=
  h <~ gets handler ;;
  if bool_decide (myKeyPair h = None ∨ myUserId h = "")
  then ret (Throw "Handler not initialized")
  else
    session <~ match sessions h !! recipient with
               | Some session => ret (Ok session)
               | None => establishSession recipient recipientPublicKey
                                           recipientFingerprint
               end ;;
    match session with
    | Throw e => ret (Throw e)
    | Ok session =>
        now <~ gets clock ;;
        let messageId := "msg-" +:+ pretty now +:+ "-" +:+ random in
        let timestamp := now in
        me <~ gets (λ w, myUserId (handler w)) ;;
        match encryptSessionMessage session me recipient text with
        | Throw e => ret (Throw e)
        | Ok encrypted =>
            stored <~ liftStore (saveMessage
              (outboundInput me recipient conv encrypted random now)) ;;
            log (Persisted stored) ;;;
            sent_ <~ client_send (FMessage
              (mkEncryptedMessagePayload conv me recipient encrypted
                 timestamp)) ;;
            ret (Ok (mkMessage messageId conv me text timestamp
                       (if sent_ then sent else sending) true))
        end
    end.

Definition handleEncryptedMessage (payload : EncryptedMessagePayload)
    : W unit :=
  h <~ gets handler ;;
  match sessions h !! p_senderId payload with
  | None =>
      n <~ requestPublicKey (p_senderId payload) ;;
      awaitKey n payload
  | Some session =>
      let secure := secureOf session (myUserId h) payload in
      match decryptSessionMessage session secure with
      | Throw e =>
          log (Decrypted secure false) ;;;
          notify (OnError e)
      | Ok plaintext =>
          log (Decrypted secure true) ;;;
          let message := deliveredMessage payload plaintext in
          stored <~ liftStore (saveMessage
                                 (inboundInput (myUserId h) payload)) ;;
          log (Persisted stored) ;;;
          notify (OnMessage message) ;;;
          client_send (FMessageAck (msg_id message) (p_conversationId payload)
                         "delivered") ;;;
          ret tt
      end
  end.

Definition handleKeyRequest (requester targetUser : string) : W unit :=
  h <~ gets handler ;;
  match myKeyPair h with
  | Some keyPair =>
      if bool_decide (targetUser = myUserId h)
      then client_send (FKeyResponse
             (mkKeyResponsePayload (myUserId h)
                (arrayBufferToBase64 (publicKeyRaw keyPair))
                (fingerprint keyPair))) ;;;
           ret tt
      else ret tt
  | None => ret tt
  end.

(** The handlers installed by [setupHandlers], by frame type. *)
Definition dispatch (f : Frame) : W unit :=
  match f with
  | FMessage payload => handleEncryptedMessage payload
  | FKeyRequest requester targetUser => handleKeyRequest requester targetUser
  | FKeyResponse payload => handleKeyResponse payload
  | FTyping conv user isTyping => notify (OnTyping conv user isTyping)
  | FPresence user isOnline lastSeen =>
      notify (OnPresence user isOnline lastSeen)
  | FReadReceipt conv messageId _ _ =>
      liftStore (markAsRead messageId) ;;;
      notify (OnReadReceipt conv messageId)
  | FMessageAck _ _ _ | FSessionInit | FSyncRequest | FSyncResponse => ret tt
  end.

(** ** The event loop *)

Inductive Event :=
| Receive (f : Frame)                       (* the client delivers a frame *)
| ConnectionChange (state : ConnectionState)
| Elapse (ms : N)                           (* time passes, timers fire *)
| CallSendMessage (recipient conv text pk fp random : string)
| CallDestroy.

(** Modelled from the spec: the dispatch of [WebSocketClient] (its [on] and
    [onConnectionChange] registries) is not among the sources.  A frame goes
    to the handler registered for its type, a state transition is recorded
    by the client and then announced to the listeners; after [destroy] has
    run the unsubscribe functions nothing is delivered any more. *)
Definition step (e : Event) : W unit :=
  match e with
  | Receive f =>
      live <~ gets (λ w, subscribed (handler w)) ;;
      if live then dispatch f else ret tt
  | ConnectionChange state =>
      modify (set_connection state) ;;;
      live <~ gets (λ w, subscribed (handler w)) ;;
      if live then connectionListener state else ret tt
  | Elapse ms => elapse ms
  | CallSendMessage recipient conv text pk fp random =>
      sendMessage recipient conv text pk fp random ;;; ret tt
  | CallDestroy => destroy
  end.

Definition run (events : list Event) : W unit := forEach step events.

End with_crypto.

(** ** Observations on a world *)

Definition exec {A} (c : W A) (w : World) : World := (c w).2.

Definition envelopes (w : World) : DB := db (store w).

Definition liveTimers (w : World) : list nat :=
  timersWhere timerLive (requests w).

Definition isKeyRequestFor (user : string) (e : Effect) : bool :=
  match e with
  | Sent (FKeyRequest _ t) true => bool_decide (t = user)
  | _ => false
  end.

(** The [key_request] frames for [user] that went out on the transport. *)
Definition keyRequestsSent (user : string) (w : World) : nat :=
  length (filter (λ e, isKeyRequestFor user e = true) (trace w)).

Definition isOnMessage (e : Effect) : bool :=
  match e with Notified (OnMessage _) => true | _ => false end.

Definition onMessageCalls (w : World) : nat :=
  length (filter (λ e, isOnMessage e = true) (trace w)).

(** What [notify e] appends to the trace. *)
Definition notifications (c : Callbacks) (e : UIEvent) : list Effect :=
  if registered c e then [Notified e] else [].

(** The session [sendMessage] works with: the cached one, or else the one it
    has [establishSession] set up. *)
Definition sessionFor `{Crypto} (h : MessageHandler) (peer pk fp : string)
    : Result SecureSession :=
  match sessions h !! peer with
  | Some session => Ok session
  | None =>
      match myKeyPair h with
      | Some keyPair => establishSecureSession keyPair pk fp
      | None => Throw "No key pair available"
      end
  end.

(** What [establishSession] reports when [sendMessage] had to call it. *)
Definition established (h : MessageHandler) (peer : string) : list Effect :=
  match sessions h !! peer with
  | Some _ => []
  | None => notifications (callbacks h) (OnSessionEstablished peer)
  end.

(** *** Vocabulary for the life of a key request *)

Abbreviation pendingOf w := (pendingKeyRequests (handler w)).

(** Every entry of the pending map names a request that has been made. *)
Definition pendingInRange (w : World) : Prop :=
  map_Forall (λ _ n, n < length (requests w)) (pendingOf w).

Definition isResponseFor (user : string) (e : Event) : bool :=
  match e with
  | Receive (FKeyResponse p) => bool_decide (userId p = user)
  | _ => false
  end.

(** The time that passes in the course of [events]. *)
Definition elapsed (events : list Event) : N :=
  foldr (λ e t, match e with Elapse ms => (ms + t)%N | _ => t end) 0%N events.

(** Request [n], made for [user], is waiting with its timer due at [D]. *)
Definition awaiting (n : nat) (user : string) (D : Z) (w : World) : Prop :=
  ∃ r, requests w !! n = Some r ∧ target r = user ∧ deadline r = D ∧
       timerLive r = true ∧ outcome r = Waiting.

(** Only [user]'s entry of the pending map can hold the resolver of [n]. *)
Definition ownedBy (n : nat) (user : string) (w : World) : Prop :=
  ∀ u, pendingOf w !! u = Some n → u = user.

(** Request [n] has been rejected by its timer and no entry of the pending
    map holds its resolver. *)
Definition timedOut (n : nat) (w : World) : Prop :=
  (∃ r, requests w !! n = Some r ∧ timerLive r = false ∧
        outcome r = Rejected "Key request timeout") ∧
  ∀ u, pendingOf w !! u ≠ Some n.

(** [w'] has the requests and the clock of [w], and its pending map is that
    of [w] or has been emptied. *)
Definition quiet (w w' : World) : Prop :=
  requests w' = requests w ∧ clock w' = clock w ∧
  (pendingOf w' = pendingOf w ∨ pendingOf w' = ∅).

(** Going from [w] to [w'] left request [n] as it was, kept the clock, and
    put the resolver of [n] in no entry of the pending map. *)
Definition undisturbed (n : nat) (w w' : World) : Prop :=
  requests w' !! n = requests w !! n ∧ clock w' = clock w ∧
  ∀ u, pendingOf w' !! u = Some n → pendingOf w !! u = Some n.

(** The table once every record of [l] has been marked synced. *)
Definition markAllSynced (l : list StoredMessage) (d : DB) : DB :=
  foldl (λ d m, markMessageSynced (id m) d) d l.

(** A handler right after construction and [initialize], with every
    callback registered. *)
Definition allCallbacks : Callbacks :=
  mkCallbacks true true true true true true true.

Definition freshWorld (me : string) (kp : KeyPair) (c : ConnectionState)
    : World :=
  mkWorld 0 c newManager ∅
    (mkMessageHandler (Some kp) me ∅ ∅ allCallbacks true) [] [].

(** ** Sample data *)

(** A stand-in for the primitives, to run the handler on examples: the
    ciphertext of [t] is [t] behind the prefix ["enc:"]; an empty peer key
    is refused, and so is a ciphertext that lacks the prefix. *)
Definition demoCrypto : Crypto := {|
  establishSecureSession kp pk fp :=
    if bool_decide (pk = "") then Throw "Invalid public key"
    else Ok (mkSecureSession ("session-" +:+ fp) 0 pk);
  encryptSessionMessage session sender recipient text := Ok ("enc:" +:+ text);
  decryptSessionMessage session p :=
    match sm_ciphertext p with
    | String "e"%char (String "n"%char (String "c"%char (String ":"%char t))) =>
        Ok t
    | _ => Throw "Decryption failed"
    end;
  arrayBufferToBase64 raw := raw;
|}.

Definition aliceKeys : KeyPair := mkKeyPair "QUxJQ0U" "A1B2-C3D4-E5F6-7890".

(** Alice's handler, initialised and connected, with no session yet. *)
Definition aliceOnline : World := freshWorld "alice" aliceKeys connected.

(** The same while the transport is down. *)
Definition aliceOffline : World := freshWorld "alice" aliceKeys disconnected.

(** Alice's handler once a session with bob is cached. *)
Definition aliceWithBob : World :=
  exec (@getOrCreateSession demoCrypto "bob" "Qk9C" "B2C3-D4E5-F6A7-8901")
       aliceOnline.

Definition bobSession : SecureSession :=
  mkSecureSession "session-B2C3-D4E5-F6A7-8901" 0 "Qk9C".

(** An inbound [message] payload from bob. *)
Definition fromBob (c : string) : EncryptedMessagePayload :=
  mkEncryptedMessagePayload "conv-1" "bob" "alice" c 1700000000000.

(** *** Vocabulary for parked messages *)

(** Request [n] is waiting, with the [handleEncryptedMessage] activation for
    [payload] parked on it. *)
Definition parked (n : nat) (payload : EncryptedMessagePayload) (w : World)
    : Prop :=
  ∃ r, requests w !! n = Some r ∧ waiter r = Some payload ∧
       outcome r = Waiting.

(** The [onError] call made by an activation whose key request timed out. *)
Definition timeoutReported : Effect :=
  Notified (OnError "Key request timeout").

(** *** Time as the program sees it *)

(** The callback of the interval timer that [startSyncMonitor] installs in
    the message store; it runs while the timer is installed. *)
Definition monitorTick : W unit :=
  s <~ gets store ;;
  if syncInterval s then liftStore processPendingSync else ret tt.

(** What the passage of time brings: [ms] milliseconds go by and the
    key-request timers that have become due fire, or the store's interval
    (30 s) comes round.  A list of these covers every schedule of the two
    kinds of timers. *)
Inductive Tick :=
| KeyTimers (ms : N)
| SyncMonitor.

Definition tick (t : Tick) : W unit :=
  match t with
  | KeyTimers ms => elapse ms
  | SyncMonitor => monitorTick
  end.

Definition passTime (ticks : list Tick) : W unit := forEach tick ticks.

(** The events the client delivers to the subscriptions of the handler. *)
Definition fromClient (e : Event) : bool :=
  match e with
  | Receive _ | ConnectionChange _ => true
  | _ => false
  end.

(** *** Vocabulary for what the handler keeps *)

(** Going from [w] to [w'] removed no envelope and no session record. *)
Definition grows (w w' : World) : Prop :=
  dom (envelopes w) ⊆ dom (envelopes w') ∧
  dom (sessionDb w) ⊆ dom (sessionDb w').

End Protocol.

(* ===================================================================== *)
(** * The authentication state (contexts/AuthContext) *)
(* ===================================================================== *)

Module Auth.
Section auth.
(** [User] of auth/types; the reducer only stores it. *)
Context {User : Type}.

Record AuthState := mkAuthState {
  user : option User;
  token : option string;
  isAuthenticated : bool;
  isLoading : bool;
  error : option string;
}.

Inductive AuthAction :=
| AUTH_START
| AUTH_SUCCESS (user : User) (token : string)
| AUTH_FAILURE (error : string)
| AUTH_LOGOUT
| SET_LOADING (loading : bool)
| CLEAR_ERROR.

Definition initialState : AuthState := mkAuthState None None false true None.

Definition authReducer (state : AuthState) (action : AuthAction) : AuthState :=
  match action with
  | AUTH_START =>
      mkAuthState (user state) (token state) (isAuthenticated state) true None
  | AUTH_SUCCESS u t => mkAuthState (Some u) (Some t) true false None
  | AUTH_FAILURE e => mkAuthState None None false false (Some e)
  | AUTH_LOGOUT => mkAuthState None None false false None
  | SET_LOADING b =>
      mkAuthState (user state) (token state) (isAuthenticated state) b
                  (error state)
  | CLEAR_ERROR =>
      mkAuthState (user state) (token state) (isAuthenticated state)
                  (isLoading state) None
  end.

(** The state after the actions have been dispatched in turn. *)
Definition dispatched (actions : list AuthAction) : AuthState :=
  foldl authReducer initialState actions.

(** A user and a token are there exactly when [isAuthenticated] is set, and
    an error is only held while it is not. *)
Definition consistent (state : AuthState) : Prop :=
  (isAuthenticated state = true ↔
   is_Some (user state) ∧ is_Some (token state)) ∧
  (is_Some (user state) ↔ is_Some (token state)) ∧
  (is_Some (error state) → isAuthenticated state = false).

End auth.
Global Arguments AuthState : clear implicits.
Global Arguments AuthAction : clear implicits.
End Auth.

(* ===================================================================== *)
(** * Fingerprints on display (components/crypto/KeyFingerprintDisplay) *)
(* ===================================================================== *)

(** A string is the list of its characters here, since the functions work
    character by character.  The characters are bytes; a character outside
    ASCII is no hexadecimal digit in any encoding, and [clean] drops it
    before anything else looks at it. *)
Module Fingerprint.

Definition inRange (lo hi : N) (c : ascii) : bool :=
  ((lo <=? N_of_ascii c) && (N_of_ascii c <=? hi))%N.

(** The class [a-fA-F0-9]. *)
Definition isHexDigit (c : ascii) : bool :=
  inRange 97 102 c || inRange 65 70 c || inRange 48 57 c.

(** [fingerprint.replace(/[^a-fA-F0-9]/g, '')] *)
Definition clean (fingerprint : list ascii) : list ascii :=
  List.filter isHexDigit fingerprint.

(** The matches of [/.{1,4}/g] in a string without line terminators: runs
    of four characters, and a shorter last one for what is left. *)
Fixpoint groupsOf4 (s : list ascii) : list (list ascii) :=
  match s with
  | [] => []
  | a :: b :: c :: d :: rest => [a; b; c; d] :: groupsOf4 rest
  | _ => [s]
  end.

(** [String.prototype.match] with a global pattern: [null] when nothing
    matches. *)
Definition matchGroups (s : list ascii) : option (list (list ascii)) :=
  match groupsOf4 s with
  | [] => None
  | groups => Some groups
  end.

(** [Array.prototype.join] *)
Fixpoint join (sep : list ascii) (parts : list (list ascii)) : list ascii :=
  match parts with
  | [] => []
  | [part] => part
  | part :: rest => part ++ sep ++ join sep rest
  end.

Definition space : ascii := " "%char.

(** [clean.match(/.{1,4}/g)?.join(' ') || fingerprint]: the fallback is
    taken when there is no match and when the joined string is empty. *)
Definition formatChars (fingerprint : list ascii) : list ascii :=
  match join [space] <$> matchGroups (clean fingerprint) with
  | Some [] | None => fingerprint
  | Some formatted => formatted
  end.

Definition formatFingerprint (fingerprint : string) : string :=
  String.string_of_list_ascii
    (formatChars (String.list_ascii_of_string fingerprint)).

(** [toUpperCase] on a character of the Latin alphabet. *)
Definition toUpperCase (c : ascii) : ascii :=
  if inRange 97 122 c then ascii_of_N (N_of_ascii c - 32) else c.

(** [parseInt(char, 16)]; [None] is NaN. *)
Definition parseInt16 (c : ascii) : option Z :=
  if inRange 48 57 c then Some (Z.of_N (N_of_ascii c) - 48)%Z
  else if inRange 65 70 c then Some (Z.of_N (N_of_ascii c) - 55)%Z
  else if inRange 97 102 c then Some (Z.of_N (N_of_ascii c) - 87)%Z
  else None.

(** A cell's [hsl(hue, saturation%, lightness%)].  The hue
    [(value * 22.5) % 360] is a multiple of one half; it is kept in half
    degrees, where it reads [(value * 45) mod 720]. *)
Record Colour := mkColour {
  hueHalfDegrees : Z;
  saturation : Z;
  lightness : Z;
}.

Definition cellColour (value : Z) : Colour :=
  mkColour ((value * 45) `rem` 720)%Z
           (60 + (value `rem` 4) * 10)%Z
           (45 + (value `rem` 3) * 10)%Z.

(** The cells of [FingerprintPattern], row by row. *)
Definition FingerprintPattern (fingerprint : list ascii)
    : list (option Colour) :=
  let clean := toUpperCase <$> clean fingerprint in
  let cells := take 16 clean in
  (λ char, cellColour <$> parseInt16 char) <$> cells.

(** The cells as characters: the first 16 hexadecimal digits, in upper
    case. *)
Definition cellsOf (fingerprint : list ascii) : list ascii :=
  take 16 (toUpperCase <$> clean fingerprint).

(** The hexadecimal digit, in upper case, that a colour stands for. *)
Definition digitOfColour (colour : Colour) : ascii :=
  let value := Z.to_N (hueHalfDegrees colour / 45) in
  ascii_of_N (if (value <? 10)%N then value + 48 else value + 55).

End Fingerprint.

(* ===================================================================== *)
(** * The message hooks (hooks/useMessages) *)
(* ===================================================================== *)

Module Hooks.
Import Storage Protocol.

(** [storedToMessage]; the current user id is not looked at. *)
Definition storedToMessage (stored : StoredMessage) (currentUserId : string)
    : Message :=
  mkMessage (id stored) (conversationId stored) (senderId stored)
    "[Encrypted message - decryption pending]" (timestamp stored)
    (if synced stored then delivered else sending) true.

(** The updater [addMessage] hands to [setMessages]. *)
Definition addMessage (message : Message) (prev : list Message)
    : list Message :=
  if existsb (λ m, bool_decide (msg_id m = msg_id message)) prev
  then (λ m, if bool_decide (msg_id m = msg_id message) then message else m)
         <$> prev
  else prev ++ [message].

(** The state of [useMessageSync]; the message store is the singleton. *)
Record SyncHook := mkSyncHook {
  hookStore : Manager;
  isSyncing : bool;
  pendingCount : nat;
}.

(** The body of the loop of [syncNow]. *)
Definition markSent (msg : StoredMessage) : M unit := markSynced (id msg).

(** [syncNow]; the result is the count given to [onSyncComplete], if it is
    called.  [isOnline] is the hook's argument. *)
Definition syncNow (isOnline : bool) : State SyncHook (option nat) := λ h,
  if isSyncing h || negb isOnline then (None, h)
  else
    (* setIsSyncing(true) ... finally setIsSyncing(false) *)
    let '(unsynced, s1) := getUnsynced (hookStore h) in
    let '(_, s2) := forEach markSent unsynced s1 in
    (Some (length unsynced), mkSyncHook s2 false 0).

End Hooks.

(* ===================================================================== *)
(** * Properties of the storage layer *)
(* ===================================================================== *)

Module StorageFacts.
Import Storage.

Ltac store_unfold :=
  unfold markAsRead, updateMessage, getMessage, saveMessage, deleteMessage,
    markSynced, getUnsynced, init, startSyncMonitor, bind, gets, modify, ret.

(** Unfolds the store methods and splits on whether the manager had been
    initialised, which is the only branch [init] has. *)
Ltac store_run :=
  store_unfold; simpl;
  repeat match goal with
  | |- context [initialized ?s] =>
      is_var s; let E := fresh "Hinit" in
      destruct (initialized s) eqn:E; simpl; rewrite ?E; simpl
  end.

Lemma of_to_row m : of_row (id m) (to_row m) = m.
Proof. by destruct m. Qed.

Lemma to_of_row k r : to_row (of_row k r) = r.
Proof. by destruct r. Qed.

Lemma init_db s : db (init s).2 = db s.
Proof. by store_run. Qed.

Lemma saveMessage_result message s :
  (saveMessage message s).1 =
  mkStoredMessage (in_id message) (in_conversationId message)
    (in_senderId message) (in_recipientId message) (in_ciphertext message)
    (in_timestamp message) false false.
Proof. by store_run. Qed.

Lemma saveMessage_db message s :
  db (saveMessage message s).2 =
  <[in_id message := to_row (saveMessage message s).1]> (db s).
Proof. by store_run. Qed.

Lemma getMessage_result k s : (getMessage k s).1 = of_row k <$> db s !! k.
Proof. by store_run. Qed.

Lemma getMessage_db k s : db (getMessage k s).2 = db s.
Proof. by store_run. Qed.

Lemma updateMessage_db k u s :
  db (updateMessage k u s).2 =
  match db s !! k with
  | Some r => <[k := to_row (applyUpdates (of_row k r) u)]> (db s)
  | None => db s
  end.
Proof. store_run; by destruct (db s !! k). Qed.

Lemma markAsRead_db k s :
  db (markAsRead k s).2 =
  db (updateMessage k (mkMessageUpdates None (Some true) None) s).2.
Proof.
  unfold markAsRead, bind, ret.
  by destruct (updateMessage k _ s).
Qed.

Lemma markSynced_db k s :
  db (markSynced k s).2 = markMessageSynced k (db s).
Proof. by store_run. Qed.

Lemma getUnsynced_spec s :
  (getUnsynced s).1 = getUnsyncedMessages (db s) ∧
  db (getUnsynced s).2 = db s.
Proof. by store_run. Qed.

Lemma importEach_db messages n s k :
  match db s !! k with
  | Some r => db (importEach messages n s).2 !! k = Some r
  | None =>
      db (importEach messages n s).2 !! k = None ∨
      r_synced <$> db (importEach messages n s).2 !! k = Some true
  end.
Proof.
  revert n s. induction messages as [|msg rest IH]; intros n s.
  - simpl. destruct (db s !! k); auto.
  - cbn [importEach]. unfold bind.
    destruct (getMessage (id msg) s) as [existing s1] eqn:Hget.
    assert (Hres := getMessage_result (id msg) s).
    assert (Hdb := getMessage_db (id msg) s).
    rewrite Hget in Hres, Hdb. simpl in Hres, Hdb.
    destruct existing as [e|].
    + specialize (IH n s1). by rewrite Hdb in IH.
    + unfold modify. simpl.
      set (s2 := set_db _ s1).
      specialize (IH (S n) s2).
      assert (Hs2 : db s2 !! k =
                    if decide (id msg = k)
                    then Some (to_row (mkStoredMessage (id msg)
                           (conversationId msg) (senderId msg)
                           (recipientId msg) (ciphertext msg)
                           (timestamp msg) true (read msg)))
                    else db s !! k).
      { subst s2. unfold set_db, storeMessage. simpl. rewrite Hdb.
        rewrite lookup_insert. by case_decide. }
      destruct (decide (id msg = k)) as [Heq|Hne].
      * subst k.
        destruct (db s !! id msg) as [r|] eqn:Hk; [done|].
        rewrite Hs2 in IH. right. by rewrite IH.
      * by rewrite Hs2 in IH.
Qed.

(** C9.  Whatever record [saveMessage] is given, also one that carries
    [synced] or [read] properties of its own, the envelope it returns and
    persists has [synced = false] and [read = false].  [importMessages] is
    the one creating operation that stores [synced = true], and it does so
    only under ids that were not in the table: an id that was there keeps
    its record. *)
Theorem saveMessage_resets_flags :
  (∀ (message : MessageInput) (s : Manager),
     synced (saveMessage message s).1 = false ∧
     read (saveMessage message s).1 = false ∧
     id (saveMessage message s).1 = in_id message ∧
     ciphertext (saveMessage message s).1 = in_ciphertext message ∧
     db (saveMessage message s).2 !! in_id message =
       Some (to_row (saveMessage message s).1)) ∧
  (∀ (messages : list StoredMessage) (s : Manager) (k : string),
     match db s !! k with
     | Some r => db (importMessages messages s).2 !! k = Some r
     | None =>
         db (importMessages messages s).2 !! k = None ∨
         r_synced <$> db (importMessages messages s).2 !! k = Some true
     end).
Proof.
  split.
  - intros message s. rewrite saveMessage_db, lookup_insert_eq.
    by rewrite saveMessage_result.
  - intros messages s k. unfold importMessages, bind.
    destruct (init s) as [[] s1] eqn:Hinit.
    assert (Hdb : db s1 = db s) by (by rewrite <- (init_db s), Hinit).
    rewrite <- Hdb. apply importEach_db.
Qed.

(** C1, as the code has it.  For an envelope kept under [k]: [markAsRead]
    and [markSynced] change nothing but the flag they set, and
    [updateMessage] leaves the ciphertext (and every field other than
    [synced] and [read]) as it was whenever its updates carry no
    [ciphertext]; given one, it overwrites the stored ciphertext with it. *)
Theorem ciphertext_kept_unless_updated (k : string) (r : Row) (s : Manager)
    (Hk : db s !! k = Some r) :
  db (markAsRead k s).2 !! k =
    Some (mkRow (r_conversationId r) (r_senderId r) (r_recipientId r)
                (r_ciphertext r) (r_timestamp r) (r_synced r) true) ∧
  db (markSynced k s).2 !! k =
    Some (mkRow (r_conversationId r) (r_senderId r) (r_recipientId r)
                (r_ciphertext r) (r_timestamp r) true (r_read r)) ∧
  (∀ u : MessageUpdates, u_ciphertext u = None →
     ∃ r', db (updateMessage k u s).2 !! k = Some r' ∧ sameButFlags r r') ∧
  (∀ (u : MessageUpdates) (c : string), u_ciphertext u = Some c →
     r_ciphertext <$> db (updateMessage k u s).2 !! k = Some c).
Proof.
  repeat split.
  - rewrite markAsRead_db, updateMessage_db, Hk. by rewrite lookup_insert_eq.
  - rewrite markSynced_db. unfold markMessageSynced. rewrite Hk.
    by rewrite lookup_insert_eq.
  - intros u Hu. rewrite updateMessage_db, Hk, lookup_insert_eq.
    eexists; split; [done|]. unfold sameButFlags. simpl. by rewrite Hu.
  - intros u c Hu. rewrite updateMessage_db, Hk, lookup_insert_eq.
    simpl. by rewrite Hu.
Qed.

Lemma ciphertext_kept_unless_updated_witness :
  db sampleStore !! "m1" =
    Some (mkRow "conv-1" "alice" "bob" "abc" 1700000000000 false false) ∧
  r_ciphertext <$>
    db (updateMessage "m1" (mkMessageUpdates (Some "xyz") None None)
          sampleStore).2 !! "m1" = Some "xyz".
Proof.
  split; [reflexivity|].
  apply (ciphertext_kept_unless_updated "m1"
           (mkRow "conv-1" "alice" "bob" "abc" 1700000000000 false false)
           sampleStore); reflexivity.
Defined.

(** C1 as stated fails: the envelope created with ciphertext ["abc"] holds
    ["xyz"] after an [updateMessage] whose updates name a ciphertext. *)
Lemma updateMessage_overwrites_ciphertext :
  r_ciphertext <$> db sampleStore !! "m1" = Some "abc" ∧
  r_ciphertext <$>
    db (updateMessage "m1" (mkMessageUpdates (Some "xyz") None None)
          sampleStore).2 !! "m1" ≠ Some "abc".
Proof. split; [reflexivity|]. vm_compute. discriminate. Qed.

(** ** Pages and the bulk operations *)

Lemma elem_of_allMessages (d : DB) m :
  m ∈ allMessages d ↔ d !! id m = Some (to_row m).
Proof.
  unfold allMessages. rewrite list_elem_of_fmap. split.
  - intros [[k r] [-> Hin]]. apply elem_of_map_to_list in Hin.
    simpl. by rewrite to_of_row.
  - intros Hm. exists (id m, to_row m).
    split; [simpl; by rewrite of_to_row|].
    by apply elem_of_map_to_list.
Qed.

Lemma NoDup_allMessages_ids (d : DB) : NoDup (id <$> allMessages d).
Proof.
  replace (id <$> allMessages d) with (map_to_list d).*1.
  - apply NoDup_fst_map_to_list.
  - unfold allMessages. rewrite <- list_fmap_compose.
    apply list_fmap_ext. by intros ? [k r].
Qed.

Lemma getMessages_submseteq conv limit before (d : DB) :
  getMessages conv limit before d ⊆+
  filter (in_page conv before) (allMessages d).
Proof.
  unfold getMessages. rewrite reverse_Permutation.
  etrans; [apply sublist_submseteq, sublist_take|].
  by rewrite merge_sort_Permutation.
Qed.

Lemma getMessages_length conv limit before (d : DB) :
  length (getMessages conv limit before d) =
  Nat.min (Z.to_nat limit)
          (length (filter (in_page conv before) (allMessages d))).
Proof.
  unfold getMessages. rewrite length_reverse, length_take.
  by rewrite merge_sort_Permutation.
Qed.

Lemma getMessages_NoDup conv limit before (d : DB) :
  NoDup (id <$> getMessages conv limit before d).
Proof.
  assert (Hsub : id <$> getMessages conv limit before d ⊆+
                 id <$> allMessages d).
  { apply fmap_submseteq. etrans; [apply getMessages_submseteq|].
    apply sublist_submseteq, sublist_filter. }
  apply submseteq_Permutation in Hsub as [rest Hperm].
  assert (Hnd := NoDup_allMessages_ids d). rewrite Hperm in Hnd.
  by apply NoDup_app in Hnd as [? _].
Qed.

Lemma getMessages_elem conv limit before (d : DB) m :
  m ∈ getMessages conv limit before d →
  d !! id m = Some (to_row m) ∧ conversationId m = conv.
Proof.
  intros Hm. eapply elem_of_submseteq in Hm; [|apply getMessages_submseteq].
  apply list_elem_of_filter in Hm as [[Hc _] Hin].
  by apply elem_of_allMessages in Hin.
Qed.

Lemma deleteEach_spec l n s :
  (deleteEach l n s).1 = (n + length l)%nat ∧
  db (deleteEach l n s).2 = deleteAll l (db s).
Proof.
  revert n s. induction l as [|m l IH]; intros n s.
  - simpl. split; [lia|done].
  - cbn [deleteEach]. unfold bind.
    destruct (deleteMessage (id m) s) as [b s1] eqn:Hdel.
    assert (Hdb : db s1 = delete (id m) (db s)).
    { replace s1 with (deleteMessage (id m) s).2 by (by rewrite Hdel).
      by store_run. }
    destruct (IH (S n) s1) as [IH1 IH2]. rewrite IH1, IH2, Hdb. simpl.
    split; [lia|done].
Qed.

Lemma lookup_deleteAll l (d : DB) k :
  deleteAll l d !! k = if decide (k ∈ id <$> l) then None else d !! k.
Proof.
  revert d. induction l as [|m l IH]; intros d.
  - rewrite decide_False; [done|]. rewrite fmap_nil. apply not_elem_of_nil.
  - unfold deleteAll in *. rewrite fmap_cons. cbn [foldl]. rewrite IH.
    destruct (decide (k = id m)) as [->|Hne].
    + rewrite lookup_delete_eq. rewrite (decide_True (P := id m ∈ _ :: _)).
      * by destruct (decide _).
      * by apply elem_of_cons; left.
    + rewrite lookup_delete_ne by done.
      destruct (decide (k ∈ id <$> l)) as [Hin|Hout].
      * rewrite decide_True; [done|]. apply elem_of_cons; by right.
      * rewrite decide_False; [done|]. by intros [?|?]%elem_of_cons.
Qed.

Lemma conversationSize_delete conv (d : DB) k r :
  d !! k = Some r → r_conversationId r = conv →
  conversationSize conv d = S (conversationSize conv (delete k d)).
Proof.
  intros Hk Hc. unfold conversationSize, allMessages.
  rewrite <- (map_to_list_delete d k r Hk). rewrite fmap_cons, filter_cons.
  rewrite decide_True; [done|]. split; [by destruct r|done].
Qed.

Lemma conversationSize_deleteAll conv l (d : DB) :
  NoDup (id <$> l) →
  (∀ m, m ∈ l → d !! id m = Some (to_row m) ∧ conversationId m = conv) →
  conversationSize conv d =
  (length l + conversationSize conv (deleteAll l d))%nat.
Proof.
  revert d. induction l as [|m l IH]; intros d Hnd Hall; [done|].
  rewrite fmap_cons in Hnd. apply NoDup_cons in Hnd as [Hnotin Hnd].
  destruct (Hall m) as [Hm Hc]; [by apply elem_of_cons; left|].
  unfold deleteAll. simpl. fold (deleteAll l (delete (id m) d)).
  rewrite <- IH; [|done|].
  - rewrite (conversationSize_delete conv d (id m) (to_row m)); [done|done|].
    by destruct m.
  - intros m' Hm'. destruct (Hall m') as [? ?]; [apply elem_of_cons; by right|].
    split; [|done]. rewrite lookup_delete_ne; [done|].
    intros Heq. apply Hnotin. rewrite Heq. by apply list_elem_of_fmap_2.
Qed.

Lemma markIfUnread_db msg s k :
  db (markIfUnread msg s).2 !! k =
  if decide (unread msg ∧ k = id msg) then markRead <$> db s !! k
  else db s !! k.
Proof.
  unfold markIfUnread. destruct (read msg) eqn:Hread.
  - rewrite decide_False; [done|]. intros [Hu _]. unfold unread in Hu.
    congruence.
  - unfold bind, ret.
    destruct (updateMessage (id msg) _ s) as [o s1] eqn:Hupd.
    replace s1 with (updateMessage (id msg)
                       (mkMessageUpdates None (Some true) None) s).2
      by (by rewrite Hupd).
    simpl. rewrite updateMessage_db.
    destruct (decide (k = id msg)) as [->|Hne].
    + rewrite decide_True by done.
      destruct (db s !! id msg) as [r|] eqn:Hr.
      * by rewrite lookup_insert_eq.
      * by rewrite Hr.
    + rewrite decide_False by (by intros [_ ?]).
      destruct (db s !! id msg); [by rewrite lookup_insert_ne|done].
Qed.

Lemma markEach_db l s k :
  db (forEach markIfUnread l s).2 !! k =
  if decide (k ∈ id <$> filter unread l) then markRead <$> db s !! k
  else db s !! k.
Proof.
  revert s. induction l as [|msg l IH]; intros s.
  - rewrite decide_False; [done|]. apply not_elem_of_nil.
  - cbn [forEach]. unfold bind.
    destruct (markIfUnread msg s) as [[] s1] eqn:Hone.
    assert (H1 := markIfUnread_db msg s k). rewrite Hone in H1. simpl in H1.
    rewrite IH, H1. rewrite filter_cons.
    destruct (decide (unread msg)) as [Hu|Hu].
    + rewrite fmap_cons.
      destruct (decide (k = id msg)) as [->|Hne].
      * rewrite (decide_True (P := _ ∧ _)) by done.
        rewrite (decide_True (P := id msg ∈ _ :: _))
          by (by apply elem_of_cons; left).
        destruct (decide _); [|done].
        destruct (db s !! id msg); by simpl.
      * rewrite (decide_False (P := _ ∧ _)) by (by intros [_ ?]).
        destruct (decide (k ∈ id <$> filter unread l)).
        -- rewrite decide_True; [done|]. apply elem_of_cons; by right.
        -- rewrite decide_False; [done|]. by intros [?|?]%elem_of_cons.
    + rewrite (decide_False (P := _ ∧ _)) by (by intros [? _]). done.
Qed.

(** C10.  Each bulk operation on a conversation works on the one page that
    [getMessages conversationId 10000] returns, which holds the whole
    conversation up to 10,000 envelopes and no more.
    [deleteConversationMessages] deletes the envelopes of the page, leaves
    every other envelope in place (so [total - 10000] envelopes of a longer
    conversation stay) and returns the length of the page;
    [markConversationAsRead] sets [read] on the envelopes of the page and on
    no other; [getMessageCount] and [getUnreadCount] count within the
    page. *)
Theorem bulk_operations_use_one_page (conv : string) (s : Manager) :
  let page := getMessages conv 10000 None (db s) in
  let total := conversationSize conv (db s) in
  length page = Nat.min (Z.to_nat 10000) total ∧
  (deleteConversationMessages conv s).1 = length page ∧
  (∀ k, db (deleteConversationMessages conv s).2 !! k =
        if decide (k ∈ id <$> page) then None else db s !! k) ∧
  conversationSize conv (db (deleteConversationMessages conv s).2) =
    (total - Nat.min (Z.to_nat 10000) total)%nat ∧
  (∀ k, db (markConversationAsRead conv s).2 !! k =
        if decide (k ∈ id <$> page) then markRead <$> db s !! k
        else db s !! k) ∧
  (getMessageCount conv s).1 = length page ∧
  (getUnreadCount conv s).1 = length (filter unread page).
Proof.
  intros page total.
  assert (Hlen : length page = Nat.min (Z.to_nat 10000) total)
    by apply getMessages_length.
  assert (Hdel : (deleteConversationMessages conv s).1 = length page ∧
                 db (deleteConversationMessages conv s).2 =
                 deleteAll page (db s)).
  { unfold deleteConversationMessages, bind, gets.
    destruct (init s) as [[] s1] eqn:Hinit.
    assert (Hdb : db s1 = db s) by (by rewrite <- (init_db s), Hinit).
    rewrite Hdb. fold page.
    destruct (deleteEach_spec page 0 s1) as [-> ->]. by rewrite Hdb. }
  destruct Hdel as [Hcount Hdb].
  split; [done|]. split; [done|]. split.
  { intros k. rewrite Hdb. apply lookup_deleteAll. }
  split.
  { rewrite Hdb, <- Hlen. unfold total.
    rewrite (conversationSize_deleteAll conv page (db s)).
    - lia.
    - apply getMessages_NoDup.
    - intros m. apply getMessages_elem. }
  split.
  { intros k. unfold markConversationAsRead, bind, gets.
    destruct (init s) as [[] s1] eqn:Hinit.
    assert (Hs1 : db s1 = db s) by (by rewrite <- (init_db s), Hinit).
    rewrite Hs1. fold page.
    rewrite markEach_db, Hs1.
    destruct (decide (k ∈ id <$> filter unread page)) as [Hin|Hout].
    - rewrite decide_True; [done|].
      apply list_elem_of_fmap in Hin as [m [-> Hm]].
      apply list_elem_of_filter in Hm as [_ Hm].
      by apply list_elem_of_fmap_2.
    - destruct (decide (k ∈ id <$> page)) as [Hin|]; [|done].
      apply list_elem_of_fmap in Hin as [m [-> Hm]].
      destruct (getMessages_elem _ _ _ _ _ Hm) as [Hrow _].
      rewrite Hrow. simpl. f_equal.
      destruct (read m) eqn:Hread;
        [unfold markRead, to_row; simpl; by rewrite Hread|].
      exfalso. apply Hout. apply list_elem_of_fmap_2.
      by apply list_elem_of_filter. }
  split; reflexivity.
Qed.

End StorageFacts.

(* ===================================================================== *)
(** * Properties of the protocol layer *)
(* ===================================================================== *)

Module ProtocolFacts.
Import Storage StorageFacts Protocol.

Ltac proto_unfold :=
  unfold exec, handleEncryptedMessage, sendMessage, establishSession,
    requestPublicKey, awaitKey, client_send, notify, log, saveSession,
    liftStore, bind, gets, modify, ret.

(** ** The monad and the store *)

Lemma forEach_cons {S A} (body : A → State S unit) x l s :
  forEach body (x :: l) s = forEach body l (body x s).2.
Proof. cbn [forEach]. unfold bind. by destruct (body x s) as [[] s1]. Qed.

Lemma saveMessage_pair message s :
  saveMessage message s =
  ((saveMessage message s).1, (saveMessage message s).2).
Proof. by destruct (saveMessage message s). Qed.

Lemma saveMessage_twice message s :
  saveMessage message (saveMessage message s).2 = saveMessage message s.
Proof.
  store_run; unfold set_db, set_pendingSync, storeMessage; simpl;
    by rewrite !insert_insert_eq.
Qed.

(** ** Timers *)

Lemma timersWhere_snoc P rs r :
  timersWhere P (rs ++ [r]) =
  timersWhere P rs ++ (if P r then [length rs] else []).
Proof.
  unfold timersWhere. rewrite imap_app, filter_app, fmap_app. f_equal.
  simpl. rewrite filter_cons. simpl. rewrite Nat.add_0_r.
  destruct (P r); by simpl.
Qed.

Lemma elem_of_timersWhere P rs n :
  n ∈ timersWhere P rs ↔ ∃ r, rs !! n = Some r ∧ P r = true.
Proof.
  unfold timersWhere. rewrite list_elem_of_fmap. split.
  - intros [[i r] [-> Hin]]. apply list_elem_of_filter in Hin as [HP Hin].
    apply elem_of_lookup_imap in Hin as (j & y & Heq & Hj).
    simplify_eq/=. eauto.
  - intros (r & Hn & HP). exists (n, r). split; [done|].
    apply list_elem_of_filter. split; [done|].
    by apply (elem_of_lookup_imap_2 pair).
Qed.

(** ** Inbound messages from a peer with a cached session *)

Section cached_session.
Context `{Crypto}.

Lemma handleEncryptedMessage_cached payload session w :
  sessions (handler w) !! p_senderId payload = Some session →
  let me := myUserId (handler w) in
  let secure := secureOf session me payload in
  exec (handleEncryptedMessage payload) w =
  match decryptSessionMessage session secure with
  | Throw e =>
      set_trace (λ t, t ++ Decrypted secure false ::
                   notifications (callbacks (handler w)) (OnError e)) w
  | Ok plaintext =>
      let '(stored, s) := saveMessage (inboundInput me payload) (store w) in
      set_trace (λ t, t ++ [Decrypted secure true; Persisted stored] ++
                   notifications (callbacks (handler w))
                     (OnMessage (deliveredMessage payload plaintext)) ++
                   [Sent (FMessageAck ("msg-" +:+ pretty (p_timestamp payload))
                            (p_conversationId payload) "delivered")
                         (bool_decide (connection w = connected))])
        (set_store s w)
  end.
Proof.
  intros Hs me secure. subst me secure.
  proto_unfold. cbn -[pretty saveMessage]. rewrite Hs.
  unfold notifications.
  destruct (decryptSessionMessage _ _) as [plaintext|e]; cbn -[pretty saveMessage].
  - destruct (saveMessage _ (store w)) as [stored s]. cbn -[pretty].
    destruct w as [? ? ? ? [? ? ? ? c ?] ? ?]. cbn -[pretty].
    destruct (onMessage c); unfold set_trace, set_store; cbn -[pretty];
      by rewrite <- !app_assoc.
  - destruct w as [? ? ? ? [? ? ? ? c ?] ? ?]. cbn.
    destruct (onError c); unfold set_trace; cbn; by rewrite <- ?app_assoc.
Qed.

(** C4, as the code has it.  For an inbound message from a peer with a
    cached session the handler decrypts first.  When decryption fails the
    failure goes to [onError] (if registered) and the message store is left
    exactly as it was: no envelope is created for the message and none is
    changed.  Only when decryption succeeds is the envelope persisted, with
    the received ciphertext, before [onMessage] fires and the
    acknowledgment goes out. *)
Theorem decrypt_comes_before_persist (payload : EncryptedMessagePayload)
    (session : SecureSession) (w : World)
    (Hcached : sessions (handler w) !! p_senderId payload = Some session) :
  let me := myUserId (handler w) in
  let secure := secureOf session me payload in
  let w' := exec (handleEncryptedMessage payload) w in
  match decryptSessionMessage session secure with
  | Throw e =>
      store w' = store w ∧
      trace w' = trace w ++ Decrypted secure false ::
                   notifications (callbacks (handler w)) (OnError e)
  | Ok plaintext =>
      let stored := (saveMessage (inboundInput me payload) (store w)).1 in
      ciphertext stored = p_ciphertext payload ∧
      envelopes w' = <[id stored := to_row stored]> (envelopes w) ∧
      trace w' = trace w ++ [Decrypted secure true; Persisted stored] ++
                   notifications (callbacks (handler w))
                     (OnMessage (deliveredMessage payload plaintext)) ++
                   [Sent (FMessageAck (id stored) (p_conversationId payload)
                            "delivered")
                         (bool_decide (connection w = connected))]
  end.
Proof.
  intros me secure w'. subst w'.
  rewrite (handleEncryptedMessage_cached payload session w Hcached).
  fold me. fold secure.
  destruct (decryptSessionMessage session secure) as [plaintext|e].
  - rewrite (saveMessage_pair _ (store w)). cbn -[pretty saveMessage].
    rewrite saveMessage_result. cbn -[pretty saveMessage].
    split_and!; try done.
    unfold envelopes. cbn -[pretty saveMessage].
    by rewrite saveMessage_db, saveMessage_result.
  - done.
Qed.

(** C6, as the code has it.  Processing the same inbound message twice
    (cached session, decryption succeeding) leaves one envelope, under the
    id ["msg-" ++ timestamp]: the second save overwrites the first with the
    same record and the store ends up as after the first processing.  It is
    not idempotent towards the UI and the peer: each processing decrypts,
    fires [onMessage] and sends a [message_ack]. *)
Theorem repeated_frame_is_redelivered (payload : EncryptedMessagePayload)
    (session : SecureSession) (plaintext : string) (w : World)
    (Hcached : sessions (handler w) !! p_senderId payload = Some session)
    (Hdecrypt : decryptSessionMessage session
                  (secureOf session (myUserId (handler w)) payload)
                = Ok plaintext) :
  let w1 := exec (handleEncryptedMessage payload) w in
  let w2 := exec (handleEncryptedMessage payload) w1 in
  let stored := (saveMessage (inboundInput (myUserId (handler w)) payload)
                   (store w)).1 in
  let once :=
    [Decrypted (secureOf session (myUserId (handler w)) payload) true;
     Persisted stored] ++
    notifications (callbacks (handler w))
      (OnMessage (deliveredMessage payload plaintext)) ++
    [Sent (FMessageAck (id stored) (p_conversationId payload) "delivered")
          (bool_decide (connection w = connected))] in
  store w2 = store w1 ∧
  envelopes w1 = <[id stored := to_row stored]> (envelopes w) ∧
  trace w1 = trace w ++ once ∧
  trace w2 = trace w1 ++ once.
Proof.
  intros w1 w2 stored once. subst w2 w1.
  rewrite (handleEncryptedMessage_cached payload session w Hcached).
  cbn -[pretty saveMessage]. rewrite Hdecrypt.
  rewrite (saveMessage_pair _ (store w)).
  set (s1 := (saveMessage _ (store w)).2).
  set (w1 := set_trace _ _).
  assert (Hh : handler w1 = handler w) by done.
  assert (Hst : store w1 = s1) by done.
  assert (Hc : connection w1 = connection w) by done.
  rewrite (handleEncryptedMessage_cached payload session w1)
    by (by rewrite Hh).
  rewrite !Hh, Hdecrypt, !Hst, !Hc.
  subst s1. rewrite saveMessage_twice.
  rewrite (saveMessage_pair _ (store w)). fold stored.
  subst once. cbn -[pretty saveMessage]. split_and!; try done.
  - unfold envelopes. cbn -[pretty saveMessage]. subst stored.
    by rewrite saveMessage_db, saveMessage_result.
  - subst stored. by rewrite saveMessage_result.
  - subst stored. by rewrite !saveMessage_result.
Qed.

End cached_session.

Lemma decrypt_comes_before_persist_witness :
  let w' := exec (@handleEncryptedMessage demoCrypto (fromBob "garbled"))
                 aliceWithBob in
  sessions (handler aliceWithBob) !! "bob" = Some bobSession ∧
  store w' = store aliceWithBob ∧
  trace w' = trace aliceWithBob ++
    [Decrypted (secureOf bobSession "alice" (fromBob "garbled")) false;
     Notified (OnError "Decryption failed")].
Proof.
  intros w'. split; [reflexivity|].
  exact (@decrypt_comes_before_persist demoCrypto (fromBob "garbled")
           bobSession aliceWithBob eq_refl).
Defined.

(** C4 as stated fails.  With a session cached, a message that decrypts
    is persisted after the decryption, not before it; and one that does not
    decrypt is never persisted, so its ciphertext is not in the store for a
    later retry. *)
Lemma failed_decrypt_leaves_no_envelope :
  let good := exec (@step demoCrypto (Receive (FMessage (fromBob "enc:hi"))))
                   aliceWithBob in
  let bad := exec (@step demoCrypto (Receive (FMessage (fromBob "garbled"))))
                  aliceWithBob in
  envelopes aliceWithBob = ∅ ∧
  trace good =
    [Notified (OnSessionEstablished "bob");
     Decrypted (secureOf bobSession "alice" (fromBob "enc:hi")) true;
     Persisted (mkStoredMessage "msg-1700000000000" "conv-1" "bob" "alice"
                  "enc:hi" 1700000000000 false false);
     Notified (OnMessage (deliveredMessage (fromBob "enc:hi") "hi"));
     Sent (FMessageAck "msg-1700000000000" "conv-1" "delivered") true] ∧
  envelopes bad = ∅ ∧
  trace bad =
    [Notified (OnSessionEstablished "bob");
     Decrypted (secureOf bobSession "alice" (fromBob "garbled")) false;
     Notified (OnError "Decryption failed")].
Proof. vm_compute. split_and!; reflexivity. Qed.

Lemma repeated_frame_is_redelivered_witness :
  let w1 := exec (@handleEncryptedMessage demoCrypto (fromBob "enc:hi"))
                 aliceWithBob in
  let w2 := exec (@handleEncryptedMessage demoCrypto (fromBob "enc:hi")) w1 in
  sessions (handler aliceWithBob) !! "bob" = Some bobSession ∧
  store w2 = store w1.
Proof.
  intros w1 w2. split; [reflexivity|].
  exact (proj1 (@repeated_frame_is_redelivered demoCrypto (fromBob "enc:hi")
                  bobSession "hi" aliceWithBob eq_refl eq_refl)).
Defined.

(** C6 as stated fails: the same frame processed twice fires [onMessage]
    twice, while the store keeps the one envelope. *)
Lemma same_frame_fires_onMessage_twice :
  let frame := FMessage (fromBob "enc:hi") in
  let w2 := exec (@run demoCrypto [Receive frame; Receive frame])
                 aliceWithBob in
  onMessageCalls aliceWithBob = 0 ∧
  onMessageCalls w2 = 2 ∧
  size (envelopes w2) = 1.
Proof. vm_compute. split_and!; reflexivity. Qed.

(** ** Key requests *)

(** C3, as the code has it.  [requestPublicKey] never reuses a pending
    request.  Each call, also one made while a request for the same target
    is pending, starts its own timer, puts its own resolver in the place of
    the entry the target had, and sends its own [key_request] frame.  The
    map keeps one entry per target, the latest; two calls leave two live
    timers and two send attempts. *)
Theorem requestPublicKey_starts_anew (user : string) (w : World) :
  let n := length (requests w) in
  let me := myUserId (handler w) in
  let up := bool_decide (connection w = connected) in
  let fresh := mkKeyRequest user (clock w + 10000) true Waiting None in
  let w1 := exec (requestPublicKey user) w in
  let w2 := exec (requestPublicKey user) w1 in
  (requestPublicKey user w).1 = n ∧
  (requestPublicKey user w1).1 = S n ∧
  requests w2 = requests w ++ [fresh; fresh] ∧
  liveTimers w2 = liveTimers w ++ [n; S n] ∧
  pendingKeyRequests (handler w1) =
    <[user := n]> (pendingKeyRequests (handler w)) ∧
  pendingKeyRequests (handler w2) =
    <[user := S n]> (pendingKeyRequests (handler w)) ∧
  trace w2 = trace w ++ [Sent (FKeyRequest me user) up;
                         Sent (FKeyRequest me user) up].
Proof.
  intros n me up fresh w1 w2. subst w1 w2 n me up fresh.
  proto_unfold. simpl. rewrite length_app. simpl.
  split_and!.
  all: try done.
  - lia.
  - by rewrite <- app_assoc.
  - unfold liveTimers. simpl. rewrite !timersWhere_snoc. simpl.
    rewrite length_app, <- app_assoc. simpl. do 3 f_equal. lia.
  - rewrite insert_insert_eq. f_equal. lia.
  - by rewrite <- app_assoc.
Qed.

(** C3 as stated fails: with a request for bob pending, a second call
    leaves a second live timer and a second [key_request] on the wire. *)
Lemma second_key_request_is_a_duplicate :
  let w1 := exec (requestPublicKey "bob") aliceOnline in
  let w2 := exec (requestPublicKey "bob") w1 in
  pendingKeyRequests (handler w1) !! "bob" = Some 0 ∧
  liveTimers w1 = [0] ∧
  keyRequestsSent "bob" w1 = 1 ∧
  liveTimers w2 = [0; 1] ∧
  keyRequestsSent "bob" w2 = 2.
Proof. vm_compute. split_and!; reflexivity. Qed.

(** C2, evaluated on the code.  A message from bob arrives while there is
    no session with him.  The one [key_request] frame goes out, and nothing
    is stored while the answer is awaited.  When no [key_response] comes
    within ten seconds the timeout is reported to [onError] and the message
    store still holds no envelope: the message is gone.  Only when the
    [key_response] does come is the envelope written, with the ciphertext
    as received. *)
Theorem message_without_session_lost_on_timeout `{Crypto} :
  let arrival := Receive (FMessage (fromBob "enc:hello")) in
  let answer := Receive (FKeyResponse
                  (mkKeyResponsePayload "bob" "Qk9C" "B2C3-D4E5-F6A7-8901")) in
  let waiting := exec (run [arrival]) aliceOnline in
  let late := exec (run [arrival; Elapse 10000]) aliceOnline in
  let answered := exec (run [arrival; Elapse 500; answer]) aliceOnline in
  envelopes waiting = ∅ ∧
  trace waiting = [Sent (FKeyRequest "alice" "bob") true] ∧
  envelopes late = ∅ ∧
  keyRequestsSent "bob" late = 1 ∧
  trace late = [Sent (FKeyRequest "alice" "bob") true;
                Notified (OnError "Key request timeout")] ∧
  r_ciphertext <$> envelopes answered !! "msg-500" = Some "enc:hello".
Proof. vm_compute. split_and!; reflexivity. Qed.

(** ** Sending *)

Ltac sent_case w :=
  rewrite (saveMessage_pair _ (store w)); cbn -[pretty saveMessage];
  rewrite !saveMessage_result; cbn -[pretty saveMessage];
  split_and!;
  first
    [ by destruct (bool_decide _)
    | done
    | unfold envelopes; cbn -[pretty saveMessage];
      by rewrite saveMessage_db, saveMessage_result
    | by rewrite <- ?app_assoc ].

(** C5, as the code has it.  On an initialised handler [sendMessage] first
    obtains the session and encrypts.  If either step throws, the call
    throws the same error and no envelope is persisted and no frame sent.
    Otherwise the envelope is persisted with [synced = false] and the
    ciphertext just produced, then the send is attempted, and the record
    returned has status [sent] if the send returned true and [sending] if it
    did not. *)
Theorem sendMessage_persists_then_sends `{Crypto}
    (recipient conv text pk fp random : string) (w : World)
    (Hkeys : is_Some (myKeyPair (handler w)))
    (Huser : myUserId (handler w) ≠ "") :
  let h := handler w in
  let me := myUserId h in
  let now := clock w in
  let up := bool_decide (connection w = connected) in
  let '(result, w') := sendMessage recipient conv text pk fp random w in
  match sessionFor h recipient pk fp with
  | Throw e => result = Throw e ∧ w' = w
  | Ok session =>
      match encryptSessionMessage session me recipient text with
      | Throw e =>
          result = Throw e ∧ store w' = store w ∧
          trace w' = trace w ++ established h recipient
      | Ok encrypted =>
          let stored :=
            (saveMessage (outboundInput me recipient conv encrypted random now)
                         (store w)).1 in
          result = Ok (mkMessage (id stored) conv me text now
                         (if up then sent else sending) true) ∧
          synced stored = false ∧
          ciphertext stored = encrypted ∧
          envelopes w' = <[id stored := to_row stored]> (envelopes w) ∧
          trace w' = trace w ++ established h recipient ++
            [Persisted stored;
             Sent (FMessage (mkEncryptedMessagePayload conv me recipient
                               encrypted now)) up]
      end
  end.
Proof.
  intros h me now up. subst h me now up.
  destruct Hkeys as [kp Hkp].
  unfold sessionFor, established, notifications.
  proto_unfold. cbn -[pretty outboundInput]. rewrite Hkp.
  rewrite bool_decide_false by (intros [?|?]; done).
  destruct (sessions (handler w) !! recipient) as [session|] eqn:Hs;
    cbn -[pretty].
  - destruct (encryptSessionMessage _ _ _ _) as [encrypted|e]; cbn -[pretty].
    + sent_case w.
    + split_and!; [done|done|]. by rewrite app_nil_r.
  - rewrite Hkp.
    destruct (establishSecureSession kp pk fp) as [session|e];
      cbn -[pretty]; [|done].
    destruct (encryptSessionMessage _ _ _ _) as [encrypted|e] eqn:Henc;
      destruct (onSessionEstablished _); cbn -[pretty]; rewrite Henc;
      cbn -[pretty].
    + sent_case w.
    + sent_case w.
    + split_and!; done.
    + split_and!; try done. by rewrite app_nil_r.
Qed.

Lemma sendMessage_persists_then_sends_witness :
  let r := @sendMessage demoCrypto "bob" "conv-1" "hello" "Qk9C"
             "B2C3-D4E5-F6A7-8901" "k3" aliceOffline in
  myKeyPair (handler aliceOffline) = Some aliceKeys ∧
  myUserId (handler aliceOffline) ≠ "" ∧
  r.1 = Ok (mkMessage "msg-0-k3" "conv-1" "alice" "hello" 0 sending true) ∧
  r_synced <$> envelopes r.2 !! "msg-0-k3" = Some false.
Proof.
  intros r.
  assert (Huser : myUserId (handler aliceOffline) ≠ "") by discriminate.
  split; [reflexivity|]. split; [exact Huser|].
  assert (Hw := @sendMessage_persists_then_sends demoCrypto "bob" "conv-1"
                  "hello" "Qk9C" "B2C3-D4E5-F6A7-8901" "k3" aliceOffline
                  (ex_intro _ aliceKeys eq_refl) Huser).
  fold r in Hw. destruct r as [result w'].
  change (@sessionFor demoCrypto (handler aliceOffline) "bob" "Qk9C"
            "B2C3-D4E5-F6A7-8901") with (Ok bobSession) in Hw.
  cbv beta iota zeta in Hw.
  change (@encryptSessionMessage demoCrypto bobSession
            (myUserId (handler aliceOffline)) "bob" "hello")
    with (@Ok string "enc:hello") in Hw.
  cbv beta iota in Hw.
  destruct Hw as (Hres & _ & _ & He & _).
  split; [exact Hres|].
  cbn [snd]. rewrite He.
  exact (f_equal (fmap r_synced)
           (lookup_insert_eq (envelopes aliceOffline) "msg-0-k3" _)).
Defined.

(** C5 as stated fails: on an initialised handler a call whose session
    cannot be established throws, and nothing has been persisted or sent. *)
Lemma sendMessage_can_throw_before_persisting :
  let r := @sendMessage demoCrypto "bob" "conv-1" "hello" ""
             "B2C3-D4E5-F6A7-8901" "k3" aliceOnline in
  r.1 = Throw "Invalid public key" ∧
  envelopes r.2 = ∅ ∧
  trace r.2 = [].
Proof. vm_compute. split_and!; reflexivity. Qed.

(** ** Resending after a reconnect *)

Lemma lookup_markMessageSynced k (d : DB) k' :
  markMessageSynced k d !! k' =
  if decide (k' = k) then setSynced <$> d !! k' else d !! k'.
Proof.
  unfold markMessageSynced. destruct (decide (k' = k)) as [->|Hne].
  - destruct (d !! k) as [r|] eqn:Hr.
    + by rewrite lookup_insert_eq.
    + by rewrite Hr.
  - destruct (d !! k); [by rewrite lookup_insert_ne|done].
Qed.

Lemma lookup_markAllSynced l (d : DB) k :
  markAllSynced l d !! k =
  if decide (k ∈ id <$> l) then setSynced <$> d !! k else d !! k.
Proof.
  revert d. induction l as [|m l IH]; intros d.
  - rewrite decide_False; [done|]. apply not_elem_of_nil.
  - unfold markAllSynced in *. rewrite fmap_cons. cbn [foldl].
    rewrite IH, lookup_markMessageSynced.
    destruct (decide (k = id m)) as [->|Hne].
    + rewrite (decide_True (P := id m ∈ _ :: _))
        by (by apply elem_of_cons; left).
      destruct (decide _); [|done]. by destruct (d !! id m).
    + destruct (decide (k ∈ id <$> l)).
      * rewrite decide_True; [done|]. apply elem_of_cons; by right.
      * rewrite decide_False; [done|]. by intros [?|?]%elem_of_cons.
Qed.

Lemma markAllSynced_unsynced (d : DB) k :
  markAllSynced (getUnsyncedMessages d) d !! k = setSynced <$> d !! k.
Proof.
  rewrite lookup_markAllSynced.
  destruct (decide _) as [Hin|Hout]; [done|].
  destruct (d !! k) as [r|] eqn:Hr; [|done]. simpl. f_equal.
  destruct (r_synced r) eqn:Hsy; [by destruct r; simplify_eq/=|].
  exfalso. apply Hout. apply list_elem_of_fmap.
  exists (of_row k r). split; [done|].
  unfold getUnsyncedMessages. apply list_elem_of_filter. split; [done|].
  apply elem_of_allMessages. simpl. by rewrite to_of_row.
Qed.

Lemma resendEach_spec l w :
  let up := bool_decide (connection w = connected) in
  let w' := exec (forEach resend l) w in
  connection w' = connection w ∧
  handler w' = handler w ∧
  requests w' = requests w ∧
  trace w' = trace w ++ ((λ m, Sent (frameOfEnvelope m) up) <$> l) ∧
  envelopes w' = if up then markAllSynced l (envelopes w) else envelopes w.
Proof.
  revert w. induction l as [|m l IH]; intros w up w'; subst up w'.
  - unfold exec. simpl. rewrite app_nil_r. split_and!; try done.
    by destruct (bool_decide _).
  - unfold exec in *. rewrite forEach_cons.
    remember (resend m w).2 as w1 eqn:Hw1.
    unfold resend, client_send, log, liftStore, bind, gets, modify, ret in Hw1.
    cbn -[markSynced] in Hw1.
    destruct (IH w1) as (Hc & Hh & Hr & Ht & He).
    rewrite Hc, Hh, Hr, Ht, He. clear IH Hc Hh Hr Ht He.
    destruct (bool_decide (connection w = connected)) eqn:Hup;
      rewrite ?Hup in Hw1.
    + assert (store w1 = (markSynced (id m) (store w)).2 ∧
              connection w1 = connection w ∧ handler w1 = handler w ∧
              requests w1 = requests w ∧
              trace w1 = trace w ++ [Sent (frameOfEnvelope m) true])
        as (Hs & Hc & Hh & Hr & Ht).
      { subst w1. cbn -[markSynced].
        by destruct (markSynced (id m) (store w)). }
      rewrite Hc, Hh, Hr, Ht, Hup. split_and!; try done.
      * by rewrite <- app_assoc.
      * unfold envelopes. by rewrite Hs, markSynced_db.
    + subst w1. cbn. rewrite Hup. split_and!; try done.
      by rewrite <- app_assoc.
Qed.

Lemma syncPendingMessages_spec w :
  let up := bool_decide (connection w = connected) in
  let unsynced := getUnsyncedMessages (envelopes w) in
  let w' := exec syncPendingMessages w in
  trace w' = trace w ++ ((λ m, Sent (frameOfEnvelope m) up) <$> unsynced) ∧
  envelopes w' =
    if up then markAllSynced unsynced (envelopes w) else envelopes w.
Proof.
  intros up unsynced w'. subst up unsynced w'.
  unfold exec, syncPendingMessages, liftStore, bind.
  destruct (getUnsynced (store w)) as [l s1] eqn:Hget.
  assert (Hl : l = getUnsyncedMessages (db (store w)) ∧ db s1 = db (store w)).
  { replace l with (getUnsynced (store w)).1 by (by rewrite Hget).
    replace s1 with (getUnsynced (store w)).2 by (by rewrite Hget).
    apply getUnsynced_spec. }
  destruct Hl as [-> Hdb].
  destruct (resendEach_spec (getUnsyncedMessages (db (store w)))
              (set_store s1 w)) as (_ & _ & _ & Ht & He).
  unfold exec in Ht, He. rewrite Ht, He.
  unfold envelopes. simpl. by rewrite Hdb.
Qed.

(** C7, as the code has it.  When the connection turns [connected], the
    listener sends, for every persisted envelope that has [synced = false],
    one [message] frame that carries the conversation, sender, recipient,
    ciphertext and timestamp of the envelope.  An envelope is marked synced
    as soon as [client.send] has returned [true] for it, nothing else of it
    changing; [syncPendingMessages] marks under [if (sent)] and waits for
    no acknowledgment.  So while the transport refuses the sends no
    envelope is marked; and a [message_ack] frame that comes in marks
    nothing and changes nothing, the handler having no handler for it. *)
Theorem reconnect_resends_unsynced `{Crypto} (w : World)
    (Hlive : subscribed (handler w) = true) :
  let unsynced := getUnsyncedMessages (envelopes w) in
  let resent (accepted : bool) (m : StoredMessage) :=
    Sent (FMessage (mkEncryptedMessagePayload (conversationId m) (senderId m)
                      (recipientId m) (ciphertext m) (timestamp m)))
         accepted in
  let w' := exec (step (ConnectionChange connected)) w in
  trace w' = trace w ++
    notifications (callbacks (handler w)) (OnConnectionChange connected) ++
    (resent true <$> unsynced) ∧
  (∀ k, envelopes w' !! k = setSynced <$> envelopes w !! k) ∧
  (∀ w0 : World, connection w0 ≠ connected →
     envelopes (exec syncPendingMessages w0) = envelopes w0 ∧
     trace (exec syncPendingMessages w0) = trace w0 ++
       (resent false <$> getUnsyncedMessages (envelopes w0))) ∧
  (∀ (w0 : World) messageId conv st,
     exec (step (Receive (FMessageAck messageId conv st))) w0 = w0).
Proof.
  intros unsynced resent w'.
  set (w1 := exec (notify (OnConnectionChange connected))
                  (set_connection connected w)).
  assert (Hstep : w' = exec syncPendingMessages w1).
  { subst w' w1. unfold exec, step, connectionListener, bind, gets, modify.
    cbn -[syncPendingMessages notify]. rewrite Hlive.
    by destruct (notify _ _) as [[] w1]. }
  assert (Hw1 : connection w1 = connected ∧ envelopes w1 = envelopes w ∧
                trace w1 = trace w ++ notifications (callbacks (handler w))
                                        (OnConnectionChange connected)).
  { subst w1. unfold exec, notify, log, notifications, bind, gets, modify,
      ret. cbn. destruct (onConnectionChange _); cbn; [done|].
    by rewrite app_nil_r. }
  destruct Hw1 as (Hc & He & Ht).
  destruct (syncPendingMessages_spec w1) as [Ht1 He1].
  rewrite Hc in Ht1, He1. rewrite He, Ht in Ht1. rewrite He in He1.
  rewrite bool_decide_true in Ht1, He1 by done.
  split_and!.
  - rewrite Hstep, Ht1. by rewrite <- app_assoc.
  - intros k. rewrite Hstep, He1. apply markAllSynced_unsynced.
  - intros w0 Hdown.
    destruct (syncPendingMessages_spec w0) as [Ht0 He0].
    rewrite Ht0, He0. by rewrite bool_decide_false.
  - intros w0 messageId conv st. unfold exec, step, dispatch, bind, gets, ret.
    by destruct (subscribed (handler w0)).
Qed.

Lemma reconnect_resends_unsynced_witness :
  let w := exec (@run demoCrypto
                   [CallSendMessage "bob" "conv-1" "hello" "Qk9C"
                      "B2C3-D4E5-F6A7-8901" "k3"]) aliceOffline in
  let w' := exec (@step demoCrypto (ConnectionChange connected)) w in
  subscribed (handler w) = true ∧
  r_synced <$> envelopes w !! "msg-0-k3" = Some false ∧
  r_synced <$> envelopes w' !! "msg-0-k3" = Some true.
Proof.
  intros w w'. split; [reflexivity|]. split; [reflexivity|].
  destruct (@reconnect_resends_unsynced demoCrypto w eq_refl)
    as (_ & Hall & _).
  fold w' in Hall. rewrite Hall. reflexivity.
Defined.

(** C7 as stated fails: an envelope saved while the transport was down is
    marked synced by the reconnection itself, the moment [client.send]
    returns [true]; no acknowledgment has come in, the connection change
    being the only event. *)
Lemma reconnect_marks_synced_without_ack :
  let w := exec (@run demoCrypto
                   [CallSendMessage "bob" "conv-1" "hello" "Qk9C"
                      "B2C3-D4E5-F6A7-8901" "k3"]) aliceOffline in
  let events := [ConnectionChange connected] in
  let w' := exec (@run demoCrypto events) w in
  r_synced <$> envelopes w !! "msg-0-k3" = Some false ∧
  Forall (λ e, ∀ messageId conv st,
            e ≠ Receive (FMessageAck messageId conv st)) events ∧
  r_synced <$> envelopes w' !! "msg-0-k3" = Some true.
Proof.
  split_and!.
  - reflexivity.
  - repeat constructor. discriminate.
  - reflexivity.
Qed.

(** ** Key request timeouts *)

(** Most of what the handler does leaves the requests, the clock and the
    pending map alone. *)

Lemma quiet_refl w : quiet w w.
Proof. unfold quiet. auto. Qed.

Lemma liftStore_quiet {A} (c : M A) w : quiet w (liftStore c w).2.
Proof. unfold liftStore. destruct (c (store w)). unfold quiet. cbn. auto. Qed.

Lemma log_quiet e w : quiet w (log e w).2.
Proof. unfold quiet. cbn. auto. Qed.

Lemma notify_quiet e w : quiet w (notify e w).2.
Proof.
  unfold notify, bind, gets. cbn -[log].
  destruct (registered _ _); [apply log_quiet|apply quiet_refl].
Qed.

Lemma client_send_quiet f w : quiet w (client_send f w).2.
Proof. unfold quiet. cbn. auto. Qed.

Lemma quiet_trans w1 w2 w3 : quiet w1 w2 → quiet w2 w3 → quiet w1 w3.
Proof.
  unfold quiet. intros (Hr1 & Hc1 & Hp1) (Hr2 & Hc2 & Hp2).
  split_and!; [congruence|congruence|].
  destruct Hp2 as [-> | ->]; auto.
Qed.

Lemma bind_quiet {A B} (c : W A) (k : A → W B) w :
  quiet w (c w).2 → (∀ a w1, quiet w1 (k a w1).2) → quiet w (bind c k w).2.
Proof.
  intros Hc Hk. unfold bind. destruct (c w) as [a w1] eqn:E.
  eapply quiet_trans; [exact Hc|]. apply Hk.
Qed.

Lemma forEach_quiet {A} (body : A → W unit) l w :
  (∀ a w1, quiet w1 (body a w1).2) → quiet w (forEach body l w).2.
Proof.
  intros Hb. revert w. induction l as [|x l IH]; intros w.
  - apply quiet_refl.
  - rewrite forEach_cons. eapply quiet_trans; [apply Hb|apply IH].
Qed.

Lemma modify_quiet (f : World → World) w :
  quiet w (f w) → quiet w (modify f w).2.
Proof. done. Qed.

Lemma gets_quiet {A} (f : World → A) w : quiet w (gets f w).2.
Proof. apply quiet_refl. Qed.

Lemma ret_quiet {A} (a : A) w : quiet w (ret a w).2.
Proof. apply quiet_refl. Qed.

Lemma storeForLater_quiet payload w : quiet w (storeForLater payload w).2.
Proof.
  unfold storeForLater.
  apply bind_quiet; [apply gets_quiet|intros now w1].
  apply bind_quiet; [apply gets_quiet|intros me w2].
  apply bind_quiet; [apply liftStore_quiet|intros stored w3].
  apply log_quiet.
Qed.

Lemma resume_quiet n w : quiet w (resume n w).2.
Proof.
  unfold resume. apply bind_quiet; [apply gets_quiet|intros rs w1].
  destruct (rs !! n) as [r|]; [|apply ret_quiet].
  destruct (waiter r); [|apply ret_quiet].
  destruct (outcome r);
    [apply ret_quiet|apply storeForLater_quiet|apply notify_quiet].
Qed.

Lemma resend_quiet m w : quiet w (resend m w).2.
Proof.
  unfold resend. apply bind_quiet; [apply client_send_quiet|intros b w1].
  destruct b; [apply liftStore_quiet|apply ret_quiet].
Qed.

Lemma syncPendingMessages_quiet w : quiet w (syncPendingMessages w).2.
Proof.
  unfold syncPendingMessages.
  apply bind_quiet; [apply liftStore_quiet|intros l w1].
  apply forEach_quiet. intros. apply resend_quiet.
Qed.

Lemma connectionListener_quiet st w : quiet w (connectionListener st w).2.
Proof.
  unfold connectionListener.
  apply bind_quiet; [apply notify_quiet|intros ? w1].
  destruct (bool_decide _); [apply syncPendingMessages_quiet|apply ret_quiet].
Qed.

Lemma destroy_quiet w : quiet w (destroy w).2.
Proof. unfold quiet. cbn. auto. Qed.

Section quiet_crypto.
Context `{Crypto}.

Lemma establishSession_quiet peer pk fp w :
  quiet w (establishSession peer pk fp w).2.
Proof.
  unfold establishSession.
  apply bind_quiet; [apply gets_quiet|intros h w1].
  destruct (myKeyPair h); [|apply ret_quiet].
  destruct (establishSecureSession _ _ _); [|apply ret_quiet].
  apply bind_quiet; [apply modify_quiet; unfold quiet; cbn; auto|intros ? w2].
  apply bind_quiet; [apply gets_quiet|intros ? w3].
  apply bind_quiet; [apply modify_quiet; unfold quiet; cbn; auto|intros ? w4].
  apply bind_quiet; [apply notify_quiet|intros ? w5].
  apply ret_quiet.
Qed.

Lemma sendMessage_quiet recipient conv text pk fp random w :
  quiet w (sendMessage recipient conv text pk fp random w).2.
Proof.
  unfold sendMessage.
  apply bind_quiet; [apply gets_quiet|intros h w1].
  destruct (bool_decide _); [apply ret_quiet|].
  apply bind_quiet.
  { destruct (sessions h !! recipient);
      [apply ret_quiet|apply establishSession_quiet]. }
  intros [session|e] w2; [|apply ret_quiet].
  apply bind_quiet; [apply gets_quiet|intros now w3].
  apply bind_quiet; [apply gets_quiet|intros me w4].
  destruct (encryptSessionMessage _ _ _ _); [|apply ret_quiet].
  apply bind_quiet; [apply liftStore_quiet|intros stored w5].
  apply bind_quiet; [apply log_quiet|intros ? w6].
  apply bind_quiet; [apply client_send_quiet|intros ? w7].
  apply ret_quiet.
Qed.

Lemma handleKeyRequest_quiet a b w : quiet w (handleKeyRequest a b w).2.
Proof.
  unfold handleKeyRequest.
  apply bind_quiet; [apply gets_quiet|intros h w1].
  destruct (myKeyPair h); [|apply ret_quiet].
  destruct (bool_decide _); [|apply ret_quiet].
  apply bind_quiet; [apply client_send_quiet|intros ? w2]. apply ret_quiet.
Qed.

Lemma handleEncryptedMessage_cached_quiet payload session w :
  sessions (handler w) !! p_senderId payload = Some session →
  quiet w (handleEncryptedMessage payload w).2.
Proof.
  intros Hs.
  change ((handleEncryptedMessage payload w).2)
    with (exec (handleEncryptedMessage payload) w).
  rewrite (handleEncryptedMessage_cached payload session w Hs).
  destruct (decryptSessionMessage _ _).
  - destruct (saveMessage _ _). unfold quiet. cbn. auto.
  - unfold quiet. cbn. auto.
Qed.

End quiet_crypto.

Ltac proj :=
  unfold set_requests, set_trace, set_handler, set_pending, set_store,
    set_clock, set_connection, set_sessionDb, set_sessions;
  cbn [requests clock handler pendingKeyRequests trace store connection
       sessions sessionDb myKeyPair myUserId callbacks subscribed fst snd].

(** *** The life of one key request *)

Section timeout.
Context `{Crypto}.
Context (n : nat) (user : string) (D : Z).

Lemma quiet_undisturbed w w' : quiet w w' → undisturbed n w w'.
Proof.
  intros (Hr & Hc & Hp). split_and!; [by rewrite Hr|done|].
  intros u. destruct Hp as [-> | ->]; [done|by rewrite lookup_empty].
Qed.

Lemma undisturbed_trans w1 w2 w3 :
  undisturbed n w1 w2 → undisturbed n w2 w3 → undisturbed n w1 w3.
Proof.
  intros (Hr1 & Hc1 & Hp1) (Hr2 & Hc2 & Hp2).
  split_and!; [congruence|congruence|auto].
Qed.

Lemma undisturbed_awaiting w w' :
  undisturbed n w w' → awaiting n user D w → awaiting n user D w'.
Proof. intros (Hr & _ & _) (r & Hn & ?). exists r. by rewrite Hr. Qed.

Lemma undisturbed_ownedBy w w' :
  undisturbed n w w' → ownedBy n user w → ownedBy n user w'.
Proof. intros (_ & _ & Hp) Ho u Hu. apply Ho, Hp, Hu. Qed.

Lemma undisturbed_timedOut w w' :
  undisturbed n w w' → timedOut n w → timedOut n w'.
Proof.
  intros (Hr & _ & Hp) [(r & Hn & ?) Hnone]. split.
  - exists r. by rewrite Hr.
  - intros u Hu. by apply (Hnone u), Hp.
Qed.

Lemma noSession_undisturbed payload w :
  sessions (handler w) !! p_senderId payload = None →
  n < length (requests w) →
  undisturbed n w (exec (handleEncryptedMessage payload) w).
Proof.
  intros Hs Hn. proto_unfold. proj. rewrite Hs.
  split_and!; proj; [|done|].
  - rewrite list_lookup_alter_ne by lia. by rewrite lookup_app_l.
  - intros u. rewrite lookup_insert. case_decide; [|done].
    intros [= <-]. lia.
Qed.

Lemma handleKeyResponse_undisturbed p w :
  pendingOf w !! userId p ≠ Some n →
  undisturbed n w (exec (handleKeyResponse p) w).
Proof.
  intros Hp. unfold exec, handleKeyResponse, bind, gets. proj.
  destruct (pendingOf w !! userId p) as [m|] eqn:Hm;
    [|by apply quiet_undisturbed, quiet_refl].
  assert (m ≠ n) by congruence.
  unfold clearTimeout, settle, bind, gets, modify, ret. proj.
  assert (Hdel : ∀ (f : list KeyRequest → list KeyRequest) w0,
            requests w0 = requests w → clock w0 = clock w →
            pendingOf w0 = pendingOf w →
            f (requests w) !! n = requests w !! n →
            undisturbed n w
              (set_handler (set_pending (delete (userId p)))
                 (set_requests (λ _, f (requests w)) w0))).
  { intros f w0 Hr Hc Hpe Hf. split_and!; proj; [done|done|].
    intros u. rewrite Hpe, lookup_delete. by case_decide. }
  destruct (outcome <$> alter (set_timerLive false) m (requests w) !! m)
    as [[| |]|]; proj.
  - eapply undisturbed_trans; [|apply quiet_undisturbed, resume_quiet].
    split_and!; proj; [by rewrite !list_lookup_alter_ne|done|].
    intros u. rewrite lookup_delete. by case_decide.
  - split_and!; proj; [by rewrite !list_lookup_alter_ne|done|].
    intros u. rewrite lookup_delete. by case_decide.
  - split_and!; proj; [by rewrite !list_lookup_alter_ne|done|].
    intros u. rewrite lookup_delete. by case_decide.
  - split_and!; proj; [by rewrite !list_lookup_alter_ne|done|].
    intros u. rewrite lookup_delete. by case_decide.
Qed.


(** *** Timers firing *)

Lemma fireTimer_other m w :
  m ≠ n → undisturbed n w (exec (fireTimer m) w).
Proof.
  intros Hm. unfold exec, fireTimer, bind, gets. proj.
  destruct (requests w !! m) as [r|] eqn:Hr;
    [|by apply quiet_undisturbed, quiet_refl].
  unfold settle, bind, gets, modify, ret. proj.
  destruct (outcome <$> alter (set_timerLive false) m (requests w) !! m)
    as [[| |]|]; proj.
  - eapply undisturbed_trans; [|apply quiet_undisturbed, resume_quiet].
    split_and!; proj; [by rewrite !list_lookup_alter_ne|done|].
    intros u. rewrite lookup_delete. by case_decide.
  - split_and!; proj; [by rewrite !list_lookup_alter_ne|done|].
    intros u. rewrite lookup_delete. by case_decide.
  - split_and!; proj; [by rewrite !list_lookup_alter_ne|done|].
    intros u. rewrite lookup_delete. by case_decide.
  - split_and!; proj; [by rewrite !list_lookup_alter_ne|done|].
    intros u. rewrite lookup_delete. by case_decide.
Qed.

Lemma quiet_keeps_timedOut w w' : quiet w w' → timedOut n w → timedOut n w'.
Proof. intros Hq. by apply undisturbed_timedOut, quiet_undisturbed. Qed.

Lemma fireTimer_self w :
  awaiting n user D w → ownedBy n user w →
  timedOut n (exec (fireTimer n) w) ∧
  pendingOf (exec (fireTimer n) w) !! user = None ∧
  clock (exec (fireTimer n) w) = clock w.
Proof.
  intros (r & Hn & Ht & Hd & Hl & Ho) Hown.
  unfold exec, fireTimer, bind, gets. proj. rewrite Hn.
  unfold settle, bind, gets, modify, ret. proj.
  rewrite list_lookup_alter_eq, Hn. simpl. rewrite Ho.
  set (w1 := mkWorld _ _ _ _ _ _ _).
  assert (H1 : timedOut n w1 ∧ pendingOf w1 !! user = None ∧
               clock w1 = clock w).
  { subst w1. split_and!; proj.
    - split; proj.
      + eexists. rewrite !list_lookup_alter_eq, Hn. simpl. by split_and!.
      + intros u. rewrite Ht, lookup_delete. case_decide; [done|].
        intros Hu. by apply Hown in Hu.
    - by rewrite Ht, lookup_delete_eq.
    - done. }
  destruct H1 as (Hto & Hnone & Hclock).
  destruct (resume_quiet n w1) as (Hr' & Hc' & Hp').
  split_and!.
  - by apply (quiet_keeps_timedOut w1); [split_and!|].
  - destruct Hp' as [-> | ->]; [done|by rewrite lookup_empty].
  - by rewrite Hc'.
Qed.

Lemma fireTimer_timedOut m w :
  timedOut n w → timedOut n (exec (fireTimer m) w).
Proof.
  intros Hto. destruct (decide (m = n)) as [->|Hne];
    [|by apply (undisturbed_timedOut w); [apply fireTimer_other|]].
  destruct Hto as [(r & Hn & Hl & Ho) Hnone].
  unfold exec, fireTimer, bind, gets. proj. rewrite Hn.
  unfold settle, bind, gets, modify, ret. proj.
  rewrite list_lookup_alter_eq, Hn. simpl. rewrite Ho. proj.
  split; proj.
  - eexists. rewrite list_lookup_alter_eq, Hn. simpl. by split_and!.
  - intros u. rewrite lookup_delete. case_decide; [done|apply Hnone].
Qed.

Lemma fireTimer_clock m w : clock (exec (fireTimer m) w) = clock w.
Proof.
  unfold exec, fireTimer, bind, gets. proj.
  destruct (requests w !! m) as [r|]; [|done].
  unfold settle, bind, gets, modify, ret. proj.
  destruct (outcome <$> _) as [[| |]|]; proj; try done.
  match goal with
  | |- clock (resume m ?w1).2 = _ =>
      by destruct (resume_quiet m w1) as (_ & -> & _)
  end.
Qed.

Lemma fireEach_clock l w : clock (exec (forEach fireTimer l) w) = clock w.
Proof.
  revert w. induction l as [|m l IH]; intros w; [done|].
  unfold exec in *. rewrite forEach_cons, IH. apply fireTimer_clock.
Qed.

Lemma fireEach_timedOut l w :
  timedOut n w → timedOut n (exec (forEach fireTimer l) w).
Proof.
  revert w. induction l as [|m l IH]; intros w Hto; [done|].
  unfold exec in *. rewrite forEach_cons. by apply IH, fireTimer_timedOut.
Qed.

Lemma fireEach_others l w :
  n ∉ l → undisturbed n w (exec (forEach fireTimer l) w).
Proof.
  revert w. induction l as [|m l IH]; intros w Hnotin.
  - by apply quiet_undisturbed, quiet_refl.
  - apply not_elem_of_cons in Hnotin as [Hne Hnotin].
    unfold exec in *. rewrite forEach_cons.
    eapply undisturbed_trans; [by apply fireTimer_other|by apply IH].
Qed.

Lemma fireEach_self l w :
  n ∈ l → awaiting n user D w → ownedBy n user w →
  timedOut n (exec (forEach fireTimer l) w).
Proof.
  revert w. induction l as [|m l IH]; intros w Hin Ha Ho.
  - by apply elem_of_nil in Hin.
  - unfold exec in *. rewrite forEach_cons.
    destruct (decide (m = n)) as [->|Hne].
    + apply fireEach_timedOut. by apply fireTimer_self.
    + apply elem_of_cons in Hin as [?|Hin]; [congruence|].
      assert (Hu := fireTimer_other m w Hne).
      apply (IH _ Hin).
      * by apply (undisturbed_awaiting w).
      * by apply (undisturbed_ownedBy w).
Qed.


Lemma fireTimer_pending_None m u w :
  pendingOf w !! u = None → pendingOf (exec (fireTimer m) w) !! u = None.
Proof.
  intros Hu. unfold exec, fireTimer, bind, gets. proj.
  destruct (requests w !! m) as [r|]; [|done].
  unfold settle, bind, gets, modify, ret. proj.
  assert (Hdel : delete (target r) (pendingOf w) !! u = None).
  { rewrite lookup_delete. by case_decide. }
  destruct (outcome <$> _) as [[| |]|]; proj; try done.
  match goal with
  | |- pendingOf (resume m ?w1).2 !! _ = _ =>
      destruct (resume_quiet m w1) as (_ & _ & [-> | ->]);
        [done|by rewrite lookup_empty]
  end.
Qed.

Lemma fireEach_pending_None l u w :
  pendingOf w !! u = None →
  pendingOf (exec (forEach fireTimer l) w) !! u = None.
Proof.
  revert w. induction l as [|m l IH]; intros w Hu; [done|].
  unfold exec in *. rewrite forEach_cons. by apply IH, fireTimer_pending_None.
Qed.

Lemma fireEach_self_pending l w :
  n ∈ l → awaiting n user D w → ownedBy n user w →
  pendingOf (exec (forEach fireTimer l) w) !! user = None.
Proof.
  revert w. induction l as [|m l IH]; intros w Hin Ha Ho.
  - by apply elem_of_nil in Hin.
  - unfold exec in *. rewrite forEach_cons.
    destruct (decide (m = n)) as [->|Hne].
    + apply fireEach_pending_None. by apply fireTimer_self.
    + apply elem_of_cons in Hin as [?|Hin]; [congruence|].
      assert (Hu := fireTimer_other m w Hne).
      apply (IH _ Hin).
      * by apply (undisturbed_awaiting w).
      * by apply (undisturbed_ownedBy w).
Qed.

(** *** Time passing *)

Lemma elapse_eq ms w :
  exec (elapse ms) w =
  exec (forEach fireTimer
          (dueTimers (set_clock (λ t, (t + Z.of_N ms)%Z) w)))
       (set_clock (λ t, (t + Z.of_N ms)%Z) w).
Proof. done. Qed.

Lemma elapse_clock ms w :
  clock (exec (elapse ms) w) = (clock w + Z.of_N ms)%Z.
Proof. by rewrite elapse_eq, fireEach_clock. Qed.

Lemma awaiting_due ms w :
  awaiting n user D w →
  n ∈ dueTimers (set_clock (λ t, (t + Z.of_N ms)%Z) w) ↔
  (D ≤ clock w + Z.of_N ms)%Z.
Proof.
  intros (r & Hn & Ht & Hd & Hl & Ho).
  unfold dueTimers. rewrite elem_of_timersWhere. proj. split.
  - intros (r' & Hn' & Hdue). simplify_eq. unfold isDue in Hdue.
    rewrite Hl in Hdue. simpl in Hdue. by apply bool_decide_eq_true in Hdue.
  - intros Hle. exists r. split; [done|]. unfold isDue. rewrite Hl, Hd.
    simpl. by apply bool_decide_eq_true.
Qed.

Lemma elapse_waiting ms w :
  awaiting n user D w → ownedBy n user w →
  (clock w + Z.of_N ms < D)%Z →
  awaiting n user D (exec (elapse ms) w) ∧
  ownedBy n user (exec (elapse ms) w).
Proof.
  intros Ha Ho Hlt. rewrite elapse_eq.
  set (wt := set_clock _ w).
  assert (Hnotin : n ∉ dueTimers wt).
  { intros Hin. apply (awaiting_due ms w Ha) in Hin. lia. }
  assert (Hu := fireEach_others _ wt Hnotin).
  split.
  - by apply (undisturbed_awaiting wt).
  - by apply (undisturbed_ownedBy wt).
Qed.

Lemma elapse_fires ms w :
  awaiting n user D w → ownedBy n user w →
  (D ≤ clock w + Z.of_N ms)%Z →
  timedOut n (exec (elapse ms) w) ∧
  pendingOf (exec (elapse ms) w) !! user = None.
Proof.
  intros Ha Ho Hle. rewrite elapse_eq.
  set (wt := set_clock _ w).
  assert (Hin : n ∈ dueTimers wt) by (by apply (awaiting_due ms w Ha)).
  split.
  - by apply fireEach_self.
  - by apply fireEach_self_pending.
Qed.

Lemma elapse_timedOut ms w :
  timedOut n w → timedOut n (exec (elapse ms) w).
Proof. intros Hto. rewrite elapse_eq. by apply fireEach_timedOut. Qed.

(** *** One event, then many *)

Lemma dispatch_undisturbed f w :
  n < length (requests w) →
  (∀ p, f = FKeyResponse p → pendingOf w !! userId p ≠ Some n) →
  undisturbed n w (exec (dispatch f) w).
Proof.
  intros Hn Hresp. destruct f; unfold dispatch.
  - destruct (sessions (handler w) !! p_senderId payload) as [session|] eqn:Hs.
    + by apply quiet_undisturbed, (handleEncryptedMessage_cached_quiet _ session).
    + by apply noSession_undisturbed.
  - apply quiet_undisturbed, ret_quiet.
  - apply quiet_undisturbed, notify_quiet.
  - apply quiet_undisturbed, notify_quiet.
  - apply quiet_undisturbed, handleKeyRequest_quiet.
  - apply handleKeyResponse_undisturbed. by apply Hresp.
  - apply quiet_undisturbed, ret_quiet.
  - apply quiet_undisturbed.
    apply bind_quiet; [apply liftStore_quiet|intros ? w1]. apply notify_quiet.
  - apply quiet_undisturbed, ret_quiet.
  - apply quiet_undisturbed, ret_quiet.
Qed.

Lemma step_undisturbed e w :
  n < length (requests w) →
  (∀ p, e = Receive (FKeyResponse p) → pendingOf w !! userId p ≠ Some n) →
  (∀ ms, e ≠ Elapse ms) →
  undisturbed n w (exec (step e) w).
Proof.
  intros Hn Hresp Hel. destruct e as [f|st|ms| |]; unfold exec, step.
  - unfold bind, gets. proj.
    destruct (subscribed (handler w));
      [|by apply quiet_undisturbed, quiet_refl].
    apply dispatch_undisturbed; [done|]. intros p ->. by apply Hresp.
  - apply quiet_undisturbed.
    apply bind_quiet; [apply modify_quiet; unfold quiet; proj; auto|].
    intros ? w1. apply bind_quiet; [apply gets_quiet|intros live w2].
    destruct live; [apply connectionListener_quiet|apply ret_quiet].
  - by destruct (Hel ms).
  - apply quiet_undisturbed.
    apply bind_quiet; [apply sendMessage_quiet|intros ? w1]. apply ret_quiet.
  - apply quiet_undisturbed, destroy_quiet.
Qed.

Lemma step_keeps e w :
  isResponseFor user e = false →
  (awaiting n user D w ∧ ownedBy n user w ∧ (clock w < D)%Z) ∨ timedOut n w →
  let w' := exec (step e) w in
  let dt := match e with Elapse ms => ms | _ => 0%N end in
  clock w' = (clock w + Z.of_N dt)%Z ∧
  ((awaiting n user D w' ∧ ownedBy n user w' ∧ (clock w' < D)%Z) ∨
   timedOut n w').
Proof.
  intros Hsilent Hinv w' dt. subst w' dt.
  assert (Hcase : (∃ ms, e = Elapse ms) ∨ (∀ ms, e ≠ Elapse ms))
    by (destruct e; eauto).
  destruct Hcase as [[ms ->]|Hother].
  - change (exec (step (Elapse ms)) w) with (exec (elapse ms) w).
    rewrite elapse_clock. split; [done|].
    destruct Hinv as [(Ha & Ho & Hlt)|Hto]; [|right; by apply elapse_timedOut].
    destruct (decide (D ≤ clock w + Z.of_N ms)%Z) as [Hle|Hgt].
    + right. by apply elapse_fires.
    + left. destruct (elapse_waiting ms w Ha Ho) as [? ?]; [lia|].
      split_and!; [done|done|lia].
  - assert (Hu : undisturbed n w (exec (step e) w)).
    { apply step_undisturbed.
      - destruct Hinv as [((r & Hn & _) & _)|[(r & Hn & _) _]];
          by apply lookup_lt_Some in Hn.
      - intros p ->. simpl in Hsilent.
        apply bool_decide_eq_false in Hsilent.
        destruct Hinv as [(_ & Ho & _)|[_ Hnone]]; [|apply Hnone].
        intros Hp. by apply Ho in Hp.
      - done. }
    assert (Hc : clock (exec (step e) w) = clock w) by apply Hu.
    split.
    + rewrite Hc. destruct e; try lia. by destruct (Hother ms).
    + destruct Hinv as [(Ha & Ho & Hlt)|Hto].
      * left. split_and!.
        -- by apply (undisturbed_awaiting w).
        -- by apply (undisturbed_ownedBy w).
        -- by rewrite Hc.
      * right. by apply (undisturbed_timedOut w).
Qed.

Lemma run_keeps events w :
  Forall (λ e, isResponseFor user e = false) events →
  (awaiting n user D w ∧ ownedBy n user w ∧ (clock w < D)%Z) ∨ timedOut n w →
  let w' := exec (run events) w in
  clock w' = (clock w + Z.of_N (elapsed events))%Z ∧
  ((awaiting n user D w' ∧ ownedBy n user w' ∧ (clock w' < D)%Z) ∨
   timedOut n w').
Proof.
  intros Hsilent. revert w.
  induction Hsilent as [|e events He Hrest IH]; intros w Hinv w'; subst w'.
  - unfold exec. simpl. split; [lia|done].
  - unfold exec, run in *. rewrite forEach_cons.
    destruct (step_keeps e w He Hinv) as [Hc1 Hinv1].
    unfold exec in Hc1, Hinv1.
    destruct (IH _ Hinv1) as [Hc2 Hinv2].
    split; [|done]. rewrite Hc2, Hc1. simpl. destruct e; lia.
Qed.

End timeout.

(** *** The pending map stays in range

    [pendingInRange] holds of a handler as constructed and is kept by every
    event, so it holds of every world the handler reaches. *)

Lemma quiet_range w w' : quiet w w' → pendingInRange w → pendingInRange w'.
Proof.
  intros (Hr & _ & Hp) Hrange. unfold pendingInRange. rewrite Hr.
  destruct Hp as [-> | ->]; [done|apply map_Forall_empty].
Qed.

Lemma settled_range m u o w :
  pendingInRange w →
  pendingInRange
    (set_requests (alter (set_outcome o) m)
       (set_handler (set_pending (delete u))
          (set_requests (alter (set_timerLive false) m) w))).
Proof.
  intros Hrange. unfold pendingInRange. proj. rewrite !length_alter.
  by apply map_Forall_delete.
Qed.

Lemma unsettled_range m u w :
  pendingInRange w →
  pendingInRange
    (set_handler (set_pending (delete u))
       (set_requests (alter (set_timerLive false) m) w)).
Proof.
  intros Hrange. unfold pendingInRange. proj. rewrite !length_alter.
  by apply map_Forall_delete.
Qed.

Lemma fireTimer_range m w :
  pendingInRange w → pendingInRange (exec (fireTimer m) w).
Proof.
  intros Hrange. unfold exec, fireTimer, bind, gets. proj.
  destruct (requests w !! m) as [r|]; [|done].
  unfold settle, bind, gets, modify, ret. proj.
  destruct (outcome <$> _) as [[| |]|]; proj.
  - eapply quiet_range; [apply resume_quiet|]. by apply settled_range.
  - by apply unsettled_range.
  - by apply unsettled_range.
  - by apply unsettled_range.
Qed.

Lemma handleKeyResponse_range p w :
  pendingInRange w → pendingInRange (exec (handleKeyResponse p) w).
Proof.
  intros Hrange. unfold exec, handleKeyResponse, bind, gets. proj.
  destruct (pendingOf w !! userId p) as [m|]; [|done].
  unfold clearTimeout, settle, bind, gets, modify, ret. proj.
  destruct (outcome <$> _) as [[| |]|]; proj.
  - eapply quiet_range; [apply resume_quiet|]. by apply settled_range.
  - by apply unsettled_range.
  - by apply unsettled_range.
  - by apply unsettled_range.
Qed.

Section range.
Context `{Crypto}.

Lemma noSession_range payload w :
  sessions (handler w) !! p_senderId payload = None →
  pendingInRange w → pendingInRange (exec (handleEncryptedMessage payload) w).
Proof.
  intros Hs Hrange. proto_unfold. proj. rewrite Hs.
  unfold pendingInRange. proj. rewrite length_alter, length_app. simpl.
  apply map_Forall_insert_2; [lia|].
  eapply map_Forall_impl; [exact Hrange|]. simpl. intros. lia.
Qed.

Lemma step_range e w : pendingInRange w → pendingInRange (exec (step e) w).
Proof.
  intros Hrange. destruct e as [f|st|ms| |]; unfold exec, step.
  - unfold bind, gets. proj. destruct (subscribed (handler w)); [|done].
    destruct f; unfold dispatch;
      try (eapply quiet_range; [|exact Hrange];
           first [ apply ret_quiet | apply notify_quiet
                 | apply handleKeyRequest_quiet ]).
    + destruct (sessions (handler w) !! p_senderId payload) as [session|]
        eqn:Hs.
      * eapply quiet_range; [|exact Hrange].
        by apply (handleEncryptedMessage_cached_quiet _ session).
      * by apply noSession_range.
    + by apply handleKeyResponse_range.
    + eapply quiet_range; [|exact Hrange].
      apply bind_quiet; [apply liftStore_quiet|intros ? w1].
      apply notify_quiet.
  - eapply quiet_range; [|exact Hrange].
    apply bind_quiet; [apply modify_quiet; unfold quiet; proj; auto|].
    intros ? w1. apply bind_quiet; [apply gets_quiet|intros live w2].
    destruct live; [apply connectionListener_quiet|apply ret_quiet].
  - change ((elapse ms w).2) with (exec (elapse ms) w). rewrite elapse_eq.
    generalize (dueTimers (set_clock (λ t : Z, (t + Z.of_N ms)%Z) w)).
    assert (Hrange' : pendingInRange (set_clock (λ t : Z, (t + Z.of_N ms)%Z) w))
      by done.
    revert Hrange'. generalize (set_clock (λ t : Z, (t + Z.of_N ms)%Z) w).
    intros w0 Hw0 l. revert w0 Hw0.
    induction l as [|m l IH]; intros w0 Hw0; [done|].
    unfold exec in *. rewrite forEach_cons. by apply IH, fireTimer_range.
  - eapply quiet_range; [|exact Hrange].
    apply bind_quiet; [apply sendMessage_quiet|intros ? w1]. apply ret_quiet.
  - eapply quiet_range; [|exact Hrange]. apply destroy_quiet.
Qed.

Lemma run_range events w :
  pendingInRange w → pendingInRange (exec (run events) w).
Proof.
  revert w. induction events as [|e events IH]; intros w Hrange; [done|].
  unfold exec, run in *. rewrite forEach_cons. by apply IH, step_range.
Qed.

Lemma freshWorld_range me kp c : pendingInRange (freshWorld me kp c).
Proof. apply map_Forall_empty. Qed.

End range.

(** *** The timeout *)

Lemma requestPublicKey_awaiting user w :
  let n := length (requests w) in
  let w1 := exec (requestPublicKey user) w in
  (requestPublicKey user w).1 = n ∧
  awaiting n user (clock w + 10000) w1 ∧
  pendingOf w1 !! user = Some n ∧
  clock w1 = clock w ∧
  trace w1 = trace w ++ [Sent (FKeyRequest (myUserId (handler w)) user)
                              (bool_decide (connection w = connected))] ∧
  (pendingInRange w → ownedBy n user w1).
Proof.
  intros n w1. subst n w1. proto_unfold. proj. split_and!; try done.
  - eexists. split; [apply list_lookup_middle; done|]. by split_and!.
  - by rewrite lookup_insert_eq.
  - intros Hrange u. unfold ownedBy. proj. rewrite lookup_insert.
    case_decide; [done|]. intros Hu. apply Hrange in Hu. simpl in Hu. lia.
Qed.

(** C8.  A call of [requestPublicKey user] makes request [n].  While fewer
    than 10,000 ms have passed the request stays waiting.  Once 10,000 ms
    have passed with no [key_response] for [user] among the events, whatever
    else the handler received, sent or was asked to do meanwhile, the
    promise has been rejected with "Key request timeout", its timer is
    spent, and no entry of the pending map holds its resolver; if only time
    has passed, [user] has no pending entry at all.  A request for [user]
    made after that is a fresh attempt: a new request number, a new waiting
    promise with its own timer ten seconds ahead, a new pending entry and a
    new [key_request] frame. *)
Theorem key_request_times_out `{Crypto} (user : string) (w : World)
    (events : list Event)
    (Hrange : pendingInRange w)
    (Hsilent : Forall (λ e, isResponseFor user e = false) events)
    (Hlate : (10000 ≤ elapsed events)%N) :
  let n := length (requests w) in
  let w1 := exec (requestPublicKey user) w in
  let w2 := exec (run events) w1 in
  let w3 := exec (requestPublicKey user) w2 in
  (requestPublicKey user w).1 = n ∧
  (∀ ms, (ms < 10000)%N →
     awaiting n user (clock w + 10000) (exec (elapse ms) w1)) ∧
  (∀ ms, (10000 ≤ ms)%N →
     timedOut n (exec (elapse ms) w1) ∧
     pendingOf (exec (elapse ms) w1) !! user = None) ∧
  timedOut n w2 ∧
  n < (requestPublicKey user w2).1 ∧
  awaiting (requestPublicKey user w2).1 user (clock w2 + 10000) w3 ∧
  pendingOf w3 !! user = Some (requestPublicKey user w2).1 ∧
  trace w3 = trace w2 ++ [Sent (FKeyRequest (myUserId (handler w2)) user)
                               (bool_decide (connection w2 = connected))].
Proof.
  intros n w1 w2 w3.
  destruct (requestPublicKey_awaiting user w) as (Hn & Ha & Hp & Hc & _ & Ho).
  fold n w1 in Hn, Ha, Hp, Hc, Ho. specialize (Ho Hrange).
  destruct (run_keeps n user (clock w + 10000) events w1 Hsilent)
    as [Hc2 Hinv2].
  { left. split_and!; [done|done|lia]. }
  fold w2 in Hc2, Hinv2.
  assert (Hto : timedOut n w2).
  { destruct Hinv2 as [(_ & _ & Hlt)|Hto]; [lia|done]. }
  destruct (requestPublicKey_awaiting user w2) as (Hn' & Ha' & Hp' & _ & Ht' & _).
  fold w3 in Ha', Hp', Ht'.
  split_and!.
  - done.
  - intros ms Hms. apply (elapse_waiting n user _ ms w1 Ha Ho). lia.
  - intros ms Hms. apply (elapse_fires n user _ ms w1 Ha Ho). lia.
  - done.
  - rewrite Hn'. destruct Hto as [(r & Hr & _) _].
    by apply lookup_lt_Some in Hr.
  - by rewrite Hn'.
  - by rewrite Hn'.
  - done.
Qed.

Lemma key_request_times_out_witness :
  let w1 := exec (requestPublicKey "bob") aliceOnline in
  let w2 := exec (@run demoCrypto
                    [Elapse 4000; Receive (FMessage (fromBob "enc:hi"));
                     Elapse 6000]) w1 in
  outcome <$> requests w2 !! 0 = Some (Rejected "Key request timeout") ∧
  pendingOf w2 !! "bob" ≠ Some 0.
Proof.
  intros w1 w2.
  assert (Hrange : pendingInRange aliceOnline).
  { intros u k Hu. vm_compute in Hu. discriminate. }
  assert (Hsilent : Forall (λ e, isResponseFor "bob" e = false)
            [Elapse 4000; Receive (FMessage (fromBob "enc:hi")); Elapse 6000]).
  { repeat constructor. }
  assert (Hlate : (10000 ≤ elapsed [Elapse 4000; Receive (FMessage (fromBob "enc:hi")); Elapse 6000])%N).
  { vm_compute. discriminate. }
  destruct (@key_request_times_out demoCrypto "bob" aliceOnline _
              Hrange Hsilent Hlate) as (_ & _ & _ & [(r & Hr & _ & Ho) Hnone] & _).
  split.
  - change (length (requests aliceOnline)) with 0 in Hr.
    fold w1 w2 in Hr. rewrite Hr. simpl. by rewrite Ho.
  - apply Hnone.
Defined.

End ProtocolFacts.

(* ===================================================================== *)
(** * Further properties of the message store *)
(* ===================================================================== *)

Module StorageLaws.
Import Storage StorageFacts.

Lemma deleteMessage_spec k s :
  (deleteMessage k s).1 = true ∧ db (deleteMessage k s).2 = delete k (db s).
Proof. by store_run. Qed.

Lemma getMessage_after {A} (c : M A) k s :
  (getMessage k (c s).2).1 = of_row k <$> db (c s).2 !! k.
Proof. apply getMessage_result. Qed.

(** X1.  Saving, reading and deleting compose as on a keyed table: after
    [saveMessage] the envelope is read back under its id, exactly as it was
    returned, and every other id reads as before; [deleteMessage] answers
    [true], after it the id reads as absent and every other id still reads
    as it did before the save.  The deletion does not reach the pending-sync
    map, which keeps its entry for the deleted envelope. *)
Theorem save_get_delete_round_trip (message : MessageInput) (s : Manager) :
  let saved := (saveMessage message s).1 in
  let s1 := (saveMessage message s).2 in
  let s2 := (deleteMessage (in_id message) s1).2 in
  (getMessage (in_id message) s1).1 = Some saved ∧
  (∀ k, (getMessage k s1).1 =
        if decide (k = in_id message) then Some saved else (getMessage k s).1) ∧
  (deleteMessage (in_id message) s1).1 = true ∧
  (∀ k, (getMessage k s2).1 =
        if decide (k = in_id message) then None else (getMessage k s).1) ∧
  pendingSync s2 !! in_id message = Some (tracked saved).
Proof.
  intros saved s1 s2.
  assert (Hid : id saved = in_id message)
    by (subst saved; by rewrite saveMessage_result).
  assert (H1 : ∀ k, (getMessage k s1).1 =
             if decide (k = in_id message) then Some saved
             else (getMessage k s).1).
  { intros k. rewrite !getMessage_result. subst s1.
    rewrite saveMessage_db, lookup_insert. fold saved.
    destruct (decide (in_id message = k)) as [<-|Hne].
    - rewrite decide_True by done. simpl. by rewrite <- Hid, of_to_row.
    - by rewrite decide_False by done. }
  split_and!.
  - rewrite H1. by rewrite decide_True.
  - done.
  - apply deleteMessage_spec.
  - intros k. rewrite !getMessage_result. subst s2.
    destruct (deleteMessage_spec (in_id message) s1) as [_ ->].
    rewrite lookup_delete. subst s1. rewrite saveMessage_db.
    destruct (decide (in_id message = k)) as [<-|Hne].
    + by rewrite decide_True.
    + rewrite decide_False by done. by rewrite lookup_insert_ne.
  - assert (Hp2 : pendingSync s2 = pendingSync s1)
      by (subst s2; by store_run).
    assert (Hp1 : pendingSync s1 =
                  <[in_id message := tracked saved]> (pendingSync s))
      by (subst s1 saved; by store_run).
    by rewrite Hp2, Hp1, lookup_insert_eq.
Qed.

Lemma markSynced_pendingSync k s :
  pendingSync (markSynced k s).2 = delete k (pendingSync s).
Proof. by store_run. Qed.

Lemma updateMessage_result k u s :
  (updateMessage k u s).1 = (λ r, applyUpdates (of_row k r) u) <$> db s !! k.
Proof. store_run; by destruct (db s !! k). Qed.

(** X2.  Under an id the table does not hold, the updating operations
    create nothing: [updateMessage] returns [null] and leaves the table
    alone whatever the updates, and so do [markAsRead] and [markSynced];
    [markSynced] still drops the id from the pending-sync map. *)
Theorem updates_of_a_missing_id_do_nothing (k : string) (s : Manager)
    (Hk : db s !! k = None) :
  (∀ u, (updateMessage k u s).1 = None ∧ db (updateMessage k u s).2 = db s) ∧
  db (markAsRead k s).2 = db s ∧
  db (markSynced k s).2 = db s ∧
  pendingSync (markSynced k s).2 = delete k (pendingSync s).
Proof.
  split_and!.
  - intros u. by rewrite updateMessage_result, updateMessage_db, Hk.
  - by rewrite markAsRead_db, updateMessage_db, Hk.
  - rewrite markSynced_db. unfold markMessageSynced. by rewrite Hk.
  - apply markSynced_pendingSync.
Qed.

Lemma updates_of_a_missing_id_do_nothing_witness :
  db newManager !! "m9" = None ∧
  db (markAsRead "m9" newManager).2 = db newManager.
Proof.
  split; [reflexivity|].
  apply (updates_of_a_missing_id_do_nothing "m9" newManager).
  reflexivity.
Defined.

Lemma importEach_cons msg rest n s :
  importEach (msg :: rest) n s =
  match db s !! id msg with
  | Some _ => importEach rest n (getMessage (id msg) s).2
  | None =>
      importEach rest (S n)
        (set_db (storeMessage (asImported msg)) (getMessage (id msg) s).2)
  end.
Proof.
  cbn [importEach]. unfold bind.
  destruct (getMessage (id msg) s) as [existing s1] eqn:Hget.
  assert (Hres := getMessage_result (id msg) s). rewrite Hget in Hres.
  simpl in Hres. subst existing.
  by destruct (db s !! id msg).
Qed.

Lemma importEach_count messages n s :
  (size (db (importEach messages n s).2) + n =
   size (db s) + (importEach messages n s).1)%nat ∧
  (n ≤ (importEach messages n s).1)%nat ∧
  Forall (λ msg, is_Some (db (importEach messages n s).2 !! id msg)) messages ∧
  (∀ k, is_Some (db s !! k) → is_Some (db (importEach messages n s).2 !! k)).
Proof.
  revert n s. induction messages as [|msg rest IH]; intros n s.
  - simpl. split_and!; [lia|lia|constructor|done].
  - rewrite importEach_cons.
    assert (Hdb := getMessage_db (id msg) s).
    set (s1 := (getMessage (id msg) s).2) in *.
    destruct (db s !! id msg) as [r|] eqn:Hr.
    + destruct (IH n s1) as (Hsz & Hle & Hall & Hkeep).
      rewrite Hdb in Hsz, Hkeep. split_and!; [done|done| |done].
      constructor; [|done]. apply Hkeep. by rewrite Hr.
    + set (s2 := set_db _ s1).
      assert (Hdb2 : db s2 = <[id msg := to_row (asImported msg)]> (db s)).
      { subst s2. unfold set_db, storeMessage. simpl. by rewrite Hdb. }
      destruct (IH (S n) s2) as (Hsz & Hle & Hall & Hkeep).
      rewrite Hdb2 in Hsz, Hkeep.
      rewrite map_size_insert_None in Hsz by done.
      split_and!; [lia|lia| |].
      * constructor; [|done]. apply Hkeep. by rewrite lookup_insert_eq.
      * intros k Hk. apply Hkeep. rewrite lookup_insert.
        case_decide; [done|done].
Qed.

Lemma importEach_present messages n s :
  Forall (λ msg, is_Some (db s !! id msg)) messages →
  (importEach messages n s).1 = n ∧ db (importEach messages n s).2 = db s.
Proof.
  revert n s. induction messages as [|msg rest IH]; intros n s Hall; [done|].
  apply Forall_cons in Hall as [[r Hr] Hall].
  rewrite importEach_cons, Hr.
  assert (Hdb := getMessage_db (id msg) s).
  destruct (IH n (getMessage (id msg) s).2) as [-> ->]; [by rewrite Hdb|].
  done.
Qed.

(** X3.  [importMessages] returns the number of records it has added: the
    table grows by exactly the returned count, every id of the input is in
    the table afterwards, and importing the same list once more adds
    nothing and returns 0. *)
Theorem importMessages_adds_each_new_id_once (messages : list StoredMessage)
    (s : Manager) :
  let imported := (importMessages messages s).1 in
  let s' := (importMessages messages s).2 in
  size (db s') = (size (db s) + imported)%nat ∧
  Forall (λ msg, is_Some (db s' !! id msg)) messages ∧
  (importMessages messages s').1 = 0%nat ∧
  db (importMessages messages s').2 = db s'.
Proof.
  intros imported s'. subst imported s'.
  unfold importMessages, bind.
  destruct (init s) as [[] s0] eqn:Hinit.
  assert (Hdb0 : db s0 = db s) by (by rewrite <- (init_db s), Hinit).
  destruct (importEach_count messages 0 s0) as (Hsz & _ & Hall & _).
  rewrite Hdb0 in Hsz.
  set (s1 := (importEach messages 0 s0).2) in *.
  destruct (init s1) as [[] s2] eqn:Hinit1.
  assert (Hdb2 : db s2 = db s1) by (by rewrite <- (init_db s1), Hinit1).
  destruct (importEach_present messages 0 s2) as [Hn Hd];
    [by rewrite Hdb2|].
  split_and!; [lia|done|done|by rewrite Hd].
Qed.

Lemma trackEach_spec l s :
  db (forEach trackIfNew l s).2 = db s ∧
  ∀ k, pendingSync (forEach trackIfNew l s).2 !! k =
       match pendingSync s !! k with
       | Some e => Some e
       | None => tracked <$> head (filter (λ m, id m = k) l)
       end.
Proof.
  revert s. induction l as [|msg l IH]; intros s.
  - simpl. split; [done|]. intros k. by destruct (pendingSync s !! k).
  - assert (Hc : ∀ s0, forEach trackIfNew (msg :: l) s0 =
                        forEach trackIfNew l (trackIfNew msg s0).2).
    { intros s0. cbn [forEach]. unfold bind.
      by destruct (trackIfNew msg s0) as [[] ?]. }
    rewrite Hc.
    destruct (IH (trackIfNew msg s).2) as [Hdb Hp]. rewrite Hdb.
    assert (H1 : db (trackIfNew msg s).2 = db s ∧
                 pendingSync (trackIfNew msg s).2 =
                 match pendingSync s !! id msg with
                 | Some _ => pendingSync s
                 | None => <[id msg := tracked msg]> (pendingSync s)
                 end).
    { unfold trackIfNew, bind, gets, modify, ret. simpl.
      destruct (pendingSync s !! id msg) eqn:He.
      - rewrite bool_decide_true by done. done.
      - rewrite bool_decide_false by (by intros [? ?]). done. }
    destruct H1 as [Hd1 Hp1]. split; [done|].
    intros k. rewrite Hp, Hp1, filter_cons.
    destruct (decide (id msg = k)) as [<-|Hne].
    + destruct (pendingSync s !! id msg) as [e|] eqn:He.
      * by rewrite He.
      * by rewrite lookup_insert_eq.
    + destruct (pendingSync s !! id msg) as [e|] eqn:He; [done|].
      by rewrite lookup_insert_ne.
Qed.

Lemma elem_of_getUnsyncedMessages (d : DB) m :
  m ∈ getUnsyncedMessages d ↔ d !! id m = Some (to_row m) ∧ synced m = false.
Proof.
  unfold getUnsyncedMessages. rewrite list_elem_of_filter, elem_of_allMessages.
  tauto.
Qed.

Lemma head_unsynced_by_id (d : DB) k :
  head (filter (λ m, id m = k) (getUnsyncedMessages d)) =
  match d !! k with
  | Some r => if r_synced r then None else Some (of_row k r)
  | None => None
  end.
Proof.
  destruct (filter (λ m, id m = k) (getUnsyncedMessages d)) as [|m l] eqn:Hf.
  - simpl. destruct (d !! k) as [r|] eqn:Hr; [|done].
    destruct (r_synced r) eqn:Hs; [done|].
    assert (Hin : of_row k r ∈ filter (λ m, id m = k) (getUnsyncedMessages d)).
    { apply list_elem_of_filter. split; [done|].
      apply elem_of_getUnsyncedMessages. simpl. by rewrite to_of_row. }
    rewrite Hf in Hin. by apply elem_of_nil in Hin.
  - simpl.
    assert (Hin : m ∈ filter (λ m, id m = k) (getUnsyncedMessages d))
      by (rewrite Hf; apply elem_of_cons; by left).
    apply list_elem_of_filter in Hin as [Hid Hin].
    apply elem_of_getUnsyncedMessages in Hin as [Hrow Hs].
    subst k. rewrite Hrow. destruct m; simpl in *. by subst.
Qed.

Lemma processPendingSync_keeps s :
  db (processPendingSync s).2 = db s ∧
  ∀ k entry, pendingSync s !! k = Some entry →
             pendingSync (processPendingSync s).2 !! k = Some entry.
Proof.
  change (processPendingSync s)
    with ((unsynced <~ getUnsynced ;; forEach trackIfNew unsynced) s).
  unfold bind. destruct (getUnsynced s) as [l s1] eqn:Hget.
  assert (Hps : pendingSync s1 = pendingSync s).
  { replace s1 with (getUnsynced s).2 by (by rewrite Hget). by store_run. }
  assert (Hdb : db s1 = db s).
  { replace s1 with (getUnsynced s).2 by (by rewrite Hget).
    apply getUnsynced_spec. }
  destruct (trackEach_spec l s1) as [Hd Hp]. split; [by rewrite Hd|].
  intros k entry Hk. by rewrite Hp, Hps, Hk.
Qed.

(** X4.  [processPendingSync] leaves the table alone and completes the
    pending-sync map: an entry that is there stays as it is (retry state
    included), and an id without an entry gets a fresh pending entry exactly
    when the table holds an unsynced envelope under it. *)
Theorem processPendingSync_tracks_the_untracked (s : Manager) :
  let s' := (processPendingSync s).2 in
  db s' = db s ∧
  ∀ k, pendingSync s' !! k =
       match pendingSync s !! k with
       | Some entry => Some entry
       | None =>
           match db s !! k with
           | Some r => if r_synced r then None else Some (tracked (of_row k r))
           | None => None
           end
       end.
Proof.
  intros s'. subst s'.
  change (processPendingSync s)
    with ((unsynced <~ getUnsynced ;; forEach trackIfNew unsynced) s).
  unfold bind. destruct (getUnsynced s) as [l s1] eqn:Hget.
  destruct (getUnsynced_spec s) as [Hl Hdb]. rewrite Hget in Hl, Hdb.
  simpl in Hl, Hdb. subst l.
  assert (Hps : pendingSync s1 = pendingSync s).
  { replace s1 with (getUnsynced s).2 by (by rewrite Hget). by store_run. }
  destruct (trackEach_spec (getUnsyncedMessages (db s)) s1) as [Hd Hp].
  split; [by rewrite Hd|].
  intros k. rewrite Hp, Hps, head_unsynced_by_id.
  destruct (pendingSync s !! k); [done|].
  destruct (db s !! k) as [r|]; [|done]. by destruct (r_synced r).
Qed.

(** X5.  A saved envelope is pending until it is marked synced: after
    [saveMessage] it has a fresh entry in the pending-sync map and is among
    the results of [getUnsynced]; after [markSynced] the entry is gone, the
    stored record is the saved one with [synced] set, and [getUnsynced]
    returns no record of that id. *)
Theorem saved_message_is_pending_until_marked_synced (message : MessageInput)
    (s : Manager) :
  let saved := (saveMessage message s).1 in
  let s1 := (saveMessage message s).2 in
  let s2 := (markSynced (in_id message) s1).2 in
  pendingSync s1 !! in_id message = Some (tracked saved) ∧
  saved ∈ (getUnsynced s1).1 ∧
  pendingSync s2 !! in_id message = None ∧
  db s2 !! in_id message = Some (setSynced (to_row saved)) ∧
  Forall (λ m, id m ≠ in_id message) (getUnsynced s2).1.
Proof.
  intros saved s1 s2.
  assert (Hsaved : saved = mkStoredMessage (in_id message)
            (in_conversationId message) (in_senderId message)
            (in_recipientId message) (in_ciphertext message)
            (in_timestamp message) false false)
    by apply saveMessage_result.
  assert (Hdb1 : db s1 = <[in_id message := to_row saved]> (db s))
    by apply saveMessage_db.
  assert (Hp1 : pendingSync s1 = <[in_id message := tracked saved]> (pendingSync s)).
  { subst s1 saved. by store_run. }
  assert (Hdb2 : db s2 = <[in_id message := setSynced (to_row saved)]> (db s1)).
  { subst s2. rewrite markSynced_db. unfold markMessageSynced.
    by rewrite Hdb1, lookup_insert_eq. }
  split_and!.
  - by rewrite Hp1, lookup_insert_eq.
  - destruct (getUnsynced_spec s1) as [-> _].
    apply elem_of_getUnsyncedMessages. rewrite Hdb1, Hsaved. simpl.
    by rewrite lookup_insert_eq.
  - subst s2. by rewrite markSynced_pendingSync, lookup_delete_eq.
  - by rewrite Hdb2, lookup_insert_eq.
  - destruct (getUnsynced_spec s2) as [-> _]. apply Forall_forall.
    intros m Hm Hid. apply elem_of_getUnsyncedMessages in Hm as [Hrow Hs].
    rewrite Hid, Hdb2, lookup_insert_eq in Hrow.
    assert (Hflag : r_synced (setSynced (to_row saved)) = r_synced (to_row m))
      by congruence.
    simpl in Hflag. congruence.
Qed.

Lemma deleteConversationMessages_db conv s :
  db (deleteConversationMessages conv s).2 =
  deleteAll (getMessages conv 10000 None (db s)) (db s).
Proof.
  unfold deleteConversationMessages, bind, gets.
  destruct (init s) as [[] s1] eqn:Hinit.
  assert (Hdb : db s1 = db s) by (by rewrite <- (init_db s), Hinit).
  rewrite Hdb.
  destruct (deleteEach_spec (getMessages conv 10000 None (db s)) 0 s1)
    as [_ ->].
  by rewrite Hdb.
Qed.

Lemma markConversationAsRead_lookup conv s k :
  db (markConversationAsRead conv s).2 !! k =
  if decide (k ∈ id <$> filter unread (getMessages conv 10000 None (db s)))
  then markRead <$> db s !! k else db s !! k.
Proof.
  unfold markConversationAsRead, bind, gets.
  destruct (init s) as [[] s1] eqn:Hinit.
  assert (Hdb : db s1 = db s) by (by rewrite <- (init_db s), Hinit).
  rewrite Hdb. by rewrite markEach_db, Hdb.
Qed.

(** X6.  The bulk operations keep to their conversation: an envelope of
    another conversation is neither deleted by [deleteConversationMessages]
    nor changed by [markConversationAsRead]. *)
Theorem bulk_operations_keep_to_their_conversation (conv k : string) (r : Row)
    (s : Manager)
    (Hk : db s !! k = Some r)
    (Hother : r_conversationId r ≠ conv) :
  db (deleteConversationMessages conv s).2 !! k = Some r ∧
  db (markConversationAsRead conv s).2 !! k = Some r.
Proof.
  assert (Hout : ∀ l, l ⊆ getMessages conv 10000 None (db s) → k ∉ id <$> l).
  { intros l Hl Hin. apply list_elem_of_fmap in Hin as [m [-> Hm]].
    apply Hl in Hm. apply getMessages_elem in Hm as [Hrow Hc].
    rewrite Hk in Hrow. injection Hrow as ->. by destruct m. }
  split.
  - rewrite deleteConversationMessages_db, lookup_deleteAll.
    by rewrite decide_False by (by apply Hout).
  - rewrite markConversationAsRead_lookup.
    rewrite decide_False; [done|]. apply Hout.
    intros m Hm. by apply list_elem_of_filter in Hm as [_ ?].
Qed.

Lemma elem_of_conversation (d : DB) conv m :
  m ∈ filter (in_page conv None) (allMessages d) ↔
  d !! id m = Some (to_row m) ∧ conversationId m = conv.
Proof.
  rewrite list_elem_of_filter, elem_of_allMessages. unfold in_page. tauto.
Qed.

Lemma NoDup_conversation_ids (d : DB) conv :
  NoDup (id <$> filter (in_page conv None) (allMessages d)).
Proof.
  assert (Hsub : id <$> filter (in_page conv None) (allMessages d) ⊆+
                 id <$> allMessages d)
    by apply fmap_submseteq, sublist_submseteq, sublist_filter.
  apply submseteq_Permutation in Hsub as [rest Hperm].
  assert (Hnd := NoDup_allMessages_ids d). rewrite Hperm in Hnd.
  by apply NoDup_app in Hnd as [? _].
Qed.

Lemma elem_of_conversation_ids (d : DB) conv k :
  k ∈ id <$> filter (in_page conv None) (allMessages d) ↔
  ∃ r, d !! k = Some r ∧ r_conversationId r = conv.
Proof.
  rewrite list_elem_of_fmap. split.
  - intros (m & -> & Hm). apply elem_of_conversation in Hm as [Hrow Hc].
    exists (to_row m). split; [done|]. by destruct m.
  - intros (r & Hr & Hc). exists (of_row k r). split; [done|].
    apply elem_of_conversation. simpl. rewrite to_of_row. by destruct r.
Qed.

Lemma conversationSize_ext (d d' : DB) conv :
  (∀ k, (∃ r, d !! k = Some r ∧ r_conversationId r = conv) ↔
        (∃ r, d' !! k = Some r ∧ r_conversationId r = conv)) →
  conversationSize conv d = conversationSize conv d'.
Proof.
  intros Hsame. unfold conversationSize.
  rewrite <- (length_fmap id (filter _ (allMessages d))).
  rewrite <- (length_fmap id (filter _ (allMessages d'))).
  apply Permutation_length, NoDup_Permutation;
    [apply NoDup_conversation_ids|apply NoDup_conversation_ids|].
  intros k. rewrite !elem_of_conversation_ids. apply Hsame.
Qed.

Lemma page_is_whole_conversation conv (d : DB) m :
  (conversationSize conv d ≤ Z.to_nat 10000)%nat →
  d !! id m = Some (to_row m) → conversationId m = conv →
  m ∈ getMessages conv 10000 None d.
Proof.
  intros Hsmall Hrow Hc.
  assert (Hperm : getMessages conv 10000 None d ≡ₚ
                  filter (in_page conv None) (allMessages d)).
  { apply submseteq_length_Permutation; [apply getMessages_submseteq|].
    rewrite getMessages_length. unfold conversationSize in Hsmall. lia. }
  rewrite Hperm. by apply elem_of_conversation.
Qed.

Lemma filter_none {A} (P : A → Prop) `{∀ x, Decision (P x)} (l : list A) :
  (∀ x, x ∈ l → ¬ P x) → filter P l = [].
Proof.
  intros Hno. destruct (filter P l) as [|x l'] eqn:Hf; [done|].
  assert (Hx : x ∈ filter P l) by (rewrite Hf; apply elem_of_cons; by left).
  apply list_elem_of_filter in Hx as [HP Hx]. by destruct (Hno x Hx).
Qed.

(** X7.  For a conversation of at most 10,000 envelopes the counters agree
    with the table: the unread count never exceeds the message count, the
    message count is the number of envelopes of the conversation, and after
    [markConversationAsRead] the unread count is 0 while the message count
    is what it was. *)
Theorem marking_a_conversation_read_clears_its_unread_count (conv : string)
    (s : Manager)
    (Hsmall : (conversationSize conv (db s) ≤ Z.to_nat 10000)%nat) :
  let s' := (markConversationAsRead conv s).2 in
  ((getUnreadCount conv s).1 ≤ (getMessageCount conv s).1)%nat ∧
  (getMessageCount conv s).1 = conversationSize conv (db s) ∧
  (getUnreadCount conv s').1 = 0%nat ∧
  (getMessageCount conv s').1 = (getMessageCount conv s).1.
Proof.
  intros s'.
  assert (Hlook := markConversationAsRead_lookup conv s). fold s' in Hlook.
  set (page := getMessages conv 10000 None (db s)) in *.
  assert (Hconv : ∀ k, (∃ r, db s !! k = Some r ∧ r_conversationId r = conv) ↔
                       (∃ r, db s' !! k = Some r ∧ r_conversationId r = conv)).
  { intros k. rewrite Hlook. destruct (decide _); [|done].
    destruct (db s !! k) as [r|]; simpl; [|done].
    split; intros (r0 & [= <-] & Hc); eexists; split; done. }
  assert (Hsize : conversationSize conv (db s') = conversationSize conv (db s))
    by (symmetry; by apply conversationSize_ext).
  assert (Hcount : ∀ s0, (getMessageCount conv s0).1 =
            Nat.min (Z.to_nat 10000) (conversationSize conv (db s0)))
    by (intros s0; apply getMessages_length).
  split_and!.
  - apply length_filter.
  - rewrite Hcount. lia.
  - change ((getUnreadCount conv s').1 = 0%nat)
      with (length (filter unread (getMessages conv 10000 None (db s'))) = 0%nat).
    rewrite filter_none; [done|].
    intros m Hm Hunread. unfold unread in Hunread.
    apply getMessages_elem in Hm as [Hrow Hc].
    rewrite Hlook in Hrow.
    destruct (decide (id m ∈ id <$> filter unread page)) as [Hin|Hout].
    + destruct (db s !! id m) as [r|]; [|done]. simpl in Hrow.
      assert (Hflag : r_read (markRead r) = r_read (to_row m)) by congruence.
      simpl in Hflag. congruence.
    + apply Hout. apply list_elem_of_fmap_2. apply list_elem_of_filter.
      split; [done|]. by apply page_is_whole_conversation.
  - rewrite !Hcount. by rewrite Hsize.
Qed.

Lemma marking_a_conversation_read_clears_its_unread_count_witness :
  (conversationSize "conv-1" (db sampleStore) ≤ Z.to_nat 10000)%nat ∧
  (getUnreadCount "conv-1" sampleStore).1 = 1%nat ∧
  (getUnreadCount "conv-1"
     (markConversationAsRead "conv-1" sampleStore).2).1 = 0%nat.
Proof.
  assert (Hsmall : (conversationSize "conv-1" (db sampleStore)
                    ≤ Z.to_nat 10000)%nat).
  { change (conversationSize "conv-1" (db sampleStore)) with 1%nat. lia. }
  split; [exact Hsmall|]. split; [reflexivity|].
  apply (marking_a_conversation_read_clears_its_unread_count "conv-1"
           sampleStore Hsmall).
Defined.

Lemma bulk_operations_keep_to_their_conversation_witness :
  db (deleteConversationMessages "conv-2" sampleStore).2 !! "m1" =
  db sampleStore !! "m1".
Proof.
  apply (bulk_operations_keep_to_their_conversation "conv-2" "m1"
           (to_row (saveMessage sampleInput newManager).1) sampleStore).
  - reflexivity.
  - discriminate.
Defined.

End StorageLaws.

(* ===================================================================== *)
(** * Further properties of the message handler *)
(* ===================================================================== *)

Module ProtocolLaws.
Import Storage StorageFacts StorageLaws Protocol ProtocolFacts.

(** ** Equations of the methods *)

Lemma markAsRead_lookup k s j :
  db (markAsRead k s).2 !! j =
  if decide (j = k) then markRead <$> db s !! j else db s !! j.
Proof.
  rewrite markAsRead_db, updateMessage_db.
  destruct (decide (j = k)) as [->|Hne].
  - destruct (db s !! k) as [r|] eqn:Hr; simpl.
    + rewrite lookup_insert_eq. by destruct r.
    + by rewrite Hr.
  - destruct (db s !! k) as [r|] eqn:Hr; simpl; [|done].
    by rewrite lookup_insert_ne.
Qed.

Lemma handleKeyResponse_unmatched p w :
  pendingOf w !! userId p = None → exec (handleKeyResponse p) w = w.
Proof.
  intros Hp. unfold exec, handleKeyResponse, bind, gets. by rewrite Hp.
Qed.

Lemma requestPublicKey_undisturbed n user w :
  n < length (requests w) →
  undisturbed n w (exec (requestPublicKey user) w).
Proof.
  intros Hn.
  unfold exec, requestPublicKey, client_send, log, bind, gets, modify, ret.
  split_and!; proj.
  - by rewrite lookup_app_l.
  - done.
  - intros u. destruct (decide (u = user)) as [->|Hne].
    + rewrite lookup_insert_eq. intros [= <-]. lia.
    + by rewrite lookup_insert_ne.
Qed.

Lemma requestPublicKey_range user w :
  pendingInRange w → pendingInRange (exec (requestPublicKey user) w).
Proof.
  intros Hrange u m.
  unfold exec, requestPublicKey, client_send, log, bind, gets, modify, ret.
  proj. rewrite length_app. simpl.
  destruct (decide (u = user)) as [->|Hne].
  - rewrite lookup_insert_eq. intros [= <-]. lia.
  - rewrite lookup_insert_ne by done. intros Hu. apply Hrange in Hu.
    simpl in Hu. lia.
Qed.

Lemma awaiting_lt n user D w : awaiting n user D w → n < length (requests w).
Proof. intros (r & Hr & _). by apply lookup_lt_Some in Hr. Qed.

Lemma fireEach_range l w :
  pendingInRange w → pendingInRange (exec (forEach fireTimer l) w).
Proof.
  revert w. induction l as [|m l IH]; intros w Hw; [done|].
  unfold exec. rewrite forEach_cons. apply IH, fireTimer_range, Hw.
Qed.

Lemma elapse_range ms w :
  pendingInRange w → pendingInRange (exec (elapse ms) w).
Proof. intros Hw. rewrite elapse_eq. by apply fireEach_range. Qed.

(** ** What a timer does when it fires *)

Lemma replicate_nil_r {A} (l : list A) (x : A) : l = l ++ replicate 0 x.
Proof. by rewrite app_nil_r. Qed.

Lemma fireTimer_effects m w :
  length (requests (exec (fireTimer m) w)) = length (requests w) ∧
  store (exec (fireTimer m) w) = store w ∧
  sessions (handler (exec (fireTimer m) w)) = sessions (handler w) ∧
  callbacks (handler (exec (fireTimer m) w)) = callbacks (handler w) ∧
  sessionDb (exec (fireTimer m) w) = sessionDb w ∧
  ∃ k, trace (exec (fireTimer m) w) = trace w ++ replicate k timeoutReported.
Proof.
  unfold exec, fireTimer, settle, bind, gets, modify, ret.
  destruct (requests w !! m) as [r|] eqn:Hr;
    [|split_and!; try done; exists 0; apply replicate_nil_r].
  proj. rewrite list_lookup_alter_eq, Hr.
  cbn [fmap option_fmap option_map set_timerLive outcome].
  destruct (outcome r) eqn:Ho; proj; rewrite ?length_alter;
    try (split_and!; try done; exists 0; apply replicate_nil_r).
  unfold resume, notify, log, bind, gets, modify, ret. proj.
  rewrite list_lookup_alter_eq, list_lookup_alter_eq, Hr.
  cbn [fmap option_fmap option_map set_timerLive set_outcome outcome waiter].
  destruct (waiter r); proj; rewrite ?length_alter;
    try (split_and!; try done; exists 0; apply replicate_nil_r).
  destruct (registered _ _); proj; rewrite ?length_alter.
  - split_and!; try done. by exists 1.
  - split_and!; try done; exists 0; apply replicate_nil_r.
Qed.

Lemma fireEach_effects l w :
  length (requests (exec (forEach fireTimer l) w)) = length (requests w) ∧
  store (exec (forEach fireTimer l) w) = store w ∧
  sessions (handler (exec (forEach fireTimer l) w)) = sessions (handler w) ∧
  callbacks (handler (exec (forEach fireTimer l) w)) = callbacks (handler w) ∧
  sessionDb (exec (forEach fireTimer l) w) = sessionDb w ∧
  ∃ k, trace (exec (forEach fireTimer l) w) =
       trace w ++ replicate k timeoutReported.
Proof.
  revert w. induction l as [|m l IH]; intros w.
  - split_and!; try done. exists 0. apply replicate_nil_r.
  - unfold exec. rewrite forEach_cons.
    destruct (fireTimer_effects m w) as (Hl & Hs & Hss & Hc & Hd & k1 & Ht).
    destruct (IH (exec (fireTimer m) w))
      as (Hl' & Hs' & Hss' & Hc' & Hd' & k2 & Ht').
    unfold exec in *. split_and!; [congruence..|].
    exists (k1 + k2). by rewrite Ht', Ht, replicate_add, app_assoc.
Qed.

Lemma fireTimer_parked n payload w :
  parked n payload w →
  trace (exec (fireTimer n) w) =
  trace w ++ notifications (callbacks (handler w))
               (OnError "Key request timeout").
Proof.
  intros (r & Hr & Hw & Ho).
  unfold exec, fireTimer, settle, resume, notify, notifications, log, bind,
    gets, modify, ret.
  rewrite Hr. proj. rewrite list_lookup_alter_eq, Hr.
  cbn [fmap option_fmap option_map set_timerLive outcome]. rewrite Ho. proj.
  rewrite list_lookup_alter_eq, list_lookup_alter_eq, Hr.
  cbn [fmap option_fmap option_map set_timerLive set_outcome outcome waiter].
  rewrite Hw. proj. destruct (registered _ _); proj; [done|].
  by rewrite app_nil_r.
Qed.

Lemma fireEach_reports n payload l w :
  n ∈ l → parked n payload w →
  ∃ before after,
    trace (exec (forEach fireTimer l) w) =
    trace w ++ before ++
    notifications (callbacks (handler w)) (OnError "Key request timeout") ++
    after.
Proof.
  revert w. induction l as [|m l IH]; intros w Hin Hpark.
  - by apply elem_of_nil in Hin.
  - unfold exec. rewrite forEach_cons.
    destruct (decide (m = n)) as [->|Hne].
    + destruct (fireEach_effects l (exec (fireTimer n) w))
        as (_ & _ & _ & _ & _ & k & Ht).
      assert (Hself := fireTimer_parked n payload w Hpark).
      unfold exec in *. exists [], (replicate k timeoutReported).
      rewrite Ht, Hself. by rewrite <- app_assoc.
    + apply elem_of_cons in Hin as [->|Hin]; [done|].
      destruct (fireTimer_effects m w) as (_ & _ & _ & Hc & _ & k & Ht).
      destruct (fireTimer_other n m w Hne) as (Hreq & _ & _).
      destruct (IH (exec (fireTimer m) w) Hin) as (before & after & Hfin).
      { destruct Hpark as (r & Hr & ?). exists r. by rewrite Hreq. }
      unfold exec in *. exists (replicate k timeoutReported ++ before), after.
      rewrite Hfin, Ht, Hc. by rewrite <- !app_assoc.
Qed.

Lemma monitorTick_effects w :
  envelopes (exec monitorTick w) = envelopes w ∧
  (∀ k entry, pendingSync (store w) !! k = Some entry →
              pendingSync (store (exec monitorTick w)) !! k = Some entry) ∧
  handler (exec monitorTick w) = handler w ∧
  sessionDb (exec monitorTick w) = sessionDb w ∧
  requests (exec monitorTick w) = requests w ∧
  trace (exec monitorTick w) = trace w.
Proof.
  unfold exec, monitorTick, liftStore, bind, gets, ret, envelopes.
  destruct (syncInterval (store w)); [|done].
  destruct (processPendingSync_keeps (store w)) as [Hdb Hp].
  by destruct (processPendingSync (store w)) as [[] s'].
Qed.

(** X8.  The passage of time does nothing but reject key requests and
    complete the pending-sync map.  Whatever key-request timers fire and
    however often the sync monitor of the store runs in between, the
    envelopes, the session cache and the session table stay as they were
    and every entry of the pending-sync map is kept; no frame is sent,
    nothing is persisted or decrypted, and the trace only gains [onError]
    reports of the timeout. *)
Theorem passing_time_only_rejects_key_requests (ticks : list Tick)
    (w : World) :
  let w' := exec (passTime ticks) w in
  envelopes w' = envelopes w ∧
  (∀ k entry, pendingSync (store w) !! k = Some entry →
              pendingSync (store w') !! k = Some entry) ∧
  sessions (handler w') = sessions (handler w) ∧
  sessionDb w' = sessionDb w ∧
  length (requests w') = length (requests w) ∧
  ∃ k, trace w' = trace w ++ replicate k timeoutReported.
Proof.
  revert w. induction ticks as [|t ticks IH]; intros w w'.
  - split_and!; try done. exists 0. apply replicate_nil_r.
  - unfold w', exec, passTime. rewrite forEach_cons.
    destruct (IH (exec (tick t) w)) as (He' & Hp' & Hss' & Hd' & Hl' & k' & Ht').
    unfold exec, passTime in He', Hp', Hss', Hd', Hl', Ht'.
    rewrite He', Hss', Hd', Hl', Ht'.
    assert (Hone :
      envelopes (exec (tick t) w) = envelopes w ∧
      (∀ k entry, pendingSync (store w) !! k = Some entry →
                  pendingSync (store (exec (tick t) w)) !! k = Some entry) ∧
      sessions (handler (exec (tick t) w)) = sessions (handler w) ∧
      sessionDb (exec (tick t) w) = sessionDb w ∧
      length (requests (exec (tick t) w)) = length (requests w) ∧
      ∃ k, trace (exec (tick t) w) = trace w ++ replicate k timeoutReported).
    { destruct t as [ms|]; cbn [tick].
      - rewrite elapse_eq. set (w0 := set_clock _ w).
        destruct (fireEach_effects (dueTimers w0) w0)
          as (Hl & Hs & Hss & _ & Hd & Ht).
        unfold envelopes. rewrite Hs. by split_and!.
      - destruct (monitorTick_effects w) as (He & Hp & Hh & Hd & Hr & Ht).
        rewrite Hh, Hr, Ht. split_and!; try done.
        exists 0. apply replicate_nil_r. }
    destruct Hone as (He & Hp & Hss & Hd & Hl & k & Ht).
    unfold exec in He, Hp, Hss, Hd, Hl, Ht.
    split_and!; try done.
    + intros j entry Hj. by apply Hp', Hp.
    + exists (k + k'). by rewrite Ht, replicate_add, app_assoc.
Qed.

(** ** Sessions *)

Section sessions.
Context `{Crypto}.

Lemma getOrCreateSession_cached peer pk fp session w :
  sessions (handler w) !! peer = Some session →
  getOrCreateSession peer pk fp w = (Ok session, w).
Proof.
  intros Hs. unfold getOrCreateSession, bind, gets, ret. cbn. by rewrite Hs.
Qed.

Lemma getOrCreateSession_Ok peer pk fp session w w1 :
  getOrCreateSession peer pk fp w = (Ok session, w1) →
  sessions (handler w1) !! peer = Some session.
Proof.
  unfold getOrCreateSession, establishSession, saveSession, notify, log,
    bind, gets, modify, ret. proj.
  destruct (sessions (handler w) !! peer) as [s0|] eqn:Hs.
  - intros Heq. by simplify_eq.
  - destruct (myKeyPair (handler w)); [|discriminate].
    destruct (establishSecureSession _ _ _) as [s1|]; [|discriminate].
    proj. destruct (registered _ _); proj;
      intros Heq; simplify_eq; proj; by rewrite lookup_insert_eq.
Qed.

(** X9.  [sendMessage] needs an identity: on a handler without a key pair
    or with an empty user id it throws "Handler not initialized" and
    changes nothing (no session, no envelope, no frame); in particular every
    [sendMessage] after [destroy] ends this way. *)
Theorem sendMessage_needs_an_identity
    (recipient conv text pk fp random : string) (w : World)
    (Hnone : myKeyPair (handler w) = None ∨ myUserId (handler w) = "") :
  sendMessage recipient conv text pk fp random w =
    (Throw "Handler not initialized", w) ∧
  sendMessage recipient conv text pk fp random (exec destroy w) =
    (Throw "Handler not initialized", exec destroy w).
Proof.
  split.
  - unfold sendMessage, bind, gets, ret. cbn -[pretty].
    by rewrite bool_decide_true.
  - unfold sendMessage, bind, gets, ret. by cbn -[pretty].
Qed.

(** X10.  A session, once there, is reused: after [getOrCreateSession] has
    returned a session for a peer, [hasSession] answers [true] and every
    further [getOrCreateSession] for the peer returns that very session and
    changes nothing, whatever public key and fingerprint it is given (so no
    second handshake, no [onSessionEstablished], no write to the session
    table). *)
Theorem cached_session_is_reused (peer pk fp : string)
    (session : SecureSession) (w w1 : World)
    (Hfirst : getOrCreateSession peer pk fp w = (Ok session, w1)) :
  hasSession peer w1 = (true, w1) ∧
  ∀ pk' fp', getOrCreateSession peer pk' fp' w1 = (Ok session, w1).
Proof.
  apply getOrCreateSession_Ok in Hfirst. split.
  - unfold hasSession, gets. by rewrite Hfirst, bool_decide_true.
  - intros. by apply getOrCreateSession_cached.
Qed.

(** ** Inbound frames *)

(** X11.  A [key_request] frame is answered exactly when the handler has a
    key pair and the request names its own user id; the answer is one
    [key_response] with that id, the encoded public key and the
    fingerprint, sent whether or not a session with the requester exists.
    In no case does the frame change the store, the handler or the key
    requests. *)
Theorem key_request_answered_only_when_addressed_to_me
    (requester targetUser : string) (w : World)
    (Hlive : subscribed (handler w) = true) :
  let w' := exec (step (Receive (FKeyRequest requester targetUser))) w in
  let answer kp :=
    Sent (FKeyResponse (mkKeyResponsePayload (myUserId (handler w))
            (arrayBufferToBase64 (publicKeyRaw kp)) (fingerprint kp)))
         (bool_decide (connection w = connected)) in
  store w' = store w ∧ handler w' = handler w ∧ requests w' = requests w ∧
  sessionDb w' = sessionDb w ∧
  trace w' = trace w ++
    match myKeyPair (handler w) with
    | Some kp => if decide (targetUser = myUserId (handler w))
                 then [answer kp] else []
    | None => []
    end.
Proof.
  unfold exec, step, dispatch, handleKeyRequest, client_send, log, bind,
    gets, modify, ret. cbn. rewrite Hlive.
  destruct (myKeyPair (handler w)) as [kp|]; cbn.
  - destruct (decide (targetUser = myUserId (handler w))) as [->|Hne].
    + by rewrite bool_decide_true by done.
    + rewrite bool_decide_false by done. cbn. by rewrite app_nil_r.
  - by rewrite app_nil_r.
Qed.

(** X12.  A [read_receipt] frame marks the message it names as read and no
    other: the envelope under [messageId], if there is one, gets
    [read = true] whatever conversation the receipt names, every other
    envelope stays as it is, and [onReadReceipt] is called (if registered)
    also when the store holds no such message. *)
Theorem read_receipt_marks_the_named_message
    (conv messageId readBy : string) (readAt : Z) (w : World)
    (Hlive : subscribed (handler w) = true) :
  let w' := exec (step (Receive (FReadReceipt conv messageId readBy readAt))) w
  in
  (∀ k, envelopes w' !! k =
        if decide (k = messageId) then markRead <$> envelopes w !! k
        else envelopes w !! k) ∧
  trace w' = trace w ++
             notifications (callbacks (handler w))
               (OnReadReceipt conv messageId) ∧
  handler w' = handler w ∧ requests w' = requests w.
Proof.
  unfold exec, step, dispatch, liftStore, notify, notifications, log, bind,
    gets, modify, ret, envelopes. cbn. rewrite Hlive.
  assert (Hlook := markAsRead_lookup messageId (store w)).
  destruct (markAsRead messageId (store w)) as [[] s'] eqn:Hm.
  cbn in Hlook |- *.
  destruct (onReadReceipt (callbacks (handler w))); cbn;
    split_and!; try done; by rewrite app_nil_r.
Qed.

(** ** Messages parked on a key request *)

Lemma handleEncryptedMessage_noSession payload w :
  sessions (handler w) !! p_senderId payload = None →
  exec (handleEncryptedMessage payload) w =
  set_requests (alter (set_waiter payload) (length (requests w)))
    (set_trace (λ t, t ++ [Sent (FKeyRequest (myUserId (handler w))
                                   (p_senderId payload))
                            (bool_decide (connection w = connected))])
      (set_handler (set_pending (insert (p_senderId payload)
                                   (length (requests w))))
        (set_requests (λ rs, rs ++ [mkKeyRequest (p_senderId payload)
                         (clock w + KEY_REQUEST_TIMEOUT) true Waiting None])
           w))).
Proof.
  intros Hnone.
  unfold exec, handleEncryptedMessage, requestPublicKey, awaitKey,
    client_send, log, bind, gets, modify, ret. by rewrite Hnone.
Qed.

(** X14.  A [key_response] that arrives in time releases the message parked
    on the request, and the message is stored as it came: the envelope has
    the received ciphertext, the local user as recipient, the id
    ["msg-" ++ clock] and both flags unset.  Nothing was stored while the
    request was pending.  The key of the response is not used: no session
    with the sender comes into being, the message is not decrypted and
    [onMessage] is not called; the request ends resolved with its timer
    cleared and its pending entry removed. *)
Theorem key_response_stores_the_parked_message_undecrypted
    (payload : EncryptedMessagePayload) (p : KeyResponsePayload) (w : World)
    (Hnone : sessions (handler w) !! p_senderId payload = None)
    (Hp : userId p = p_senderId payload) :
  let w1 := exec (handleEncryptedMessage payload) w in
  let w2 := exec (handleKeyResponse p) w1 in
  let stored :=
    mkStoredMessage ("msg-" +:+ pretty (clock w)) (p_conversationId payload)
      (p_senderId payload) (myUserId (handler w)) (p_ciphertext payload)
      (p_timestamp payload) false false in
  envelopes w1 = envelopes w ∧
  envelopes w2 = <[id stored := to_row stored]> (envelopes w) ∧
  trace w2 = trace w ++
    [Sent (FKeyRequest (myUserId (handler w)) (p_senderId payload))
          (bool_decide (connection w = connected));
     Persisted stored] ∧
  requests w2 = requests w ++
    [mkKeyRequest (p_senderId payload) (clock w + 10000) false (Resolved p)
                  (Some payload)] ∧
  pendingOf w2 !! p_senderId payload = None ∧
  sessions (handler w2) = sessions (handler w) ∧
  sessionDb w2 = sessionDb w.
Proof.
  intros w1 w2 stored.
  assert (Hw1 := handleEncryptedMessage_noSession payload w Hnone).
  fold w1 in Hw1.
  assert (Hreq1 : requests w1 = requests w ++
            [mkKeyRequest (p_senderId payload) (clock w + 10000) true Waiting
               (Some payload)]).
  { rewrite Hw1. proj. rewrite alter_app_r_alt by lia.
    by rewrite Nat.sub_diag. }
  assert (Hpend1 : pendingOf w1 !! userId p = Some (length (requests w))).
  { rewrite Hw1, Hp. proj. by rewrite lookup_insert_eq. }
  unfold w2, exec, handleKeyResponse, clearTimeout, settle, resume,
    storeForLater, liftStore, log, bind, gets, modify, ret.
  rewrite Hpend1. proj. rewrite Hreq1.
  rewrite !alter_app_r_alt by lia. rewrite Nat.sub_diag. cbn [alter list_alter].
  rewrite lookup_app_r by lia. rewrite Nat.sub_diag.
  cbn -[pretty saveMessage].
  rewrite !alter_app_r_alt by lia. rewrite Nat.sub_diag.
  rewrite lookup_app_r by lia. rewrite Nat.sub_diag.
  cbn -[pretty saveMessage].
  assert (Hstore1 : store w1 = store w) by by rewrite Hw1.
  assert (Hclock1 : clock w1 = clock w) by by rewrite Hw1.
  assert (Hme1 : myUserId (handler w1) = myUserId (handler w))
    by by rewrite Hw1.
  rewrite Hstore1, Hclock1, Hme1.
  match goal with
  | |- context [saveMessage ?i (store w)] =>
      assert (Hdb := saveMessage_db i (store w));
      assert (Hres := saveMessage_result i (store w));
      destruct (saveMessage i (store w)) as [st s'] eqn:Hsave
  end.
  cbn [fst snd in_id in_conversationId in_senderId in_recipientId
       in_ciphertext in_timestamp] in Hdb, Hres.
  fold stored in Hres. subst st.
  unfold envelopes. proj.
  split_and!.
  - by rewrite Hw1.
  - exact Hdb.
  - rewrite Hw1. proj. by rewrite <- app_assoc.
  - done.
  - rewrite Hp. by rewrite lookup_delete_eq.
  - by rewrite Hw1.
  - by rewrite Hw1.
Qed.

(** X15.  [destroy] does not cancel the timers of the key requests.  A
    message parked on a key request when the handler is destroyed is
    rejected when the 10 s are over, as if nothing had happened: the request
    is still waiting after [destroy], it has timed out once the time has
    passed, [onError] is then called with the timeout (if registered), and
    the message has not been stored. *)
Theorem destroy_leaves_the_timers_running
    (payload : EncryptedMessagePayload) (w : World) (ms : N)
    (Hnone : sessions (handler w) !! p_senderId payload = None)
    (Hlate : (10000 ≤ ms)%N) :
  let n := length (requests w) in
  let w1 := exec (handleEncryptedMessage payload) w in
  let w2 := exec destroy w1 in
  let w3 := exec (elapse ms) w2 in
  awaiting n (p_senderId payload) (clock w + 10000) w2 ∧
  timedOut n w3 ∧
  envelopes w3 = envelopes w ∧
  ∃ before after,
    trace w3 = trace w2 ++ before ++
      notifications (callbacks (handler w)) (OnError "Key request timeout") ++
      after.
Proof.
  intros n w1 w2 w3.
  assert (Hw1 := handleEncryptedMessage_noSession payload w Hnone).
  fold w1 in Hw1.
  assert (Hreq2 : requests w2 !! n =
            Some (mkKeyRequest (p_senderId payload) (clock w + 10000) true
                    Waiting (Some payload))).
  { unfold w2, exec, destroy, modify. proj. rewrite Hw1. proj.
    rewrite alter_app_r_alt by lia. rewrite Nat.sub_diag.
    rewrite lookup_app_r by (unfold n; lia). unfold n.
    by rewrite Nat.sub_diag. }
  assert (Hclock2 : clock w2 = clock w) by (unfold w2; by rewrite Hw1).
  assert (Hcb2 : callbacks (handler w2) = callbacks (handler w))
    by (unfold w2; by rewrite Hw1).
  assert (Henv2 : envelopes w2 = envelopes w) by (unfold w2; by rewrite Hw1).
  assert (Haw : awaiting n (p_senderId payload) (clock w + 10000) w2)
    by by eexists.
  assert (Hown : ownedBy n (p_senderId payload) w2).
  { intros u Hu. unfold w2, exec, destroy, modify in Hu. revert Hu. proj.
    by rewrite lookup_empty. }
  split_and!.
  - done.
  - eapply elapse_fires; [done|done|]. rewrite Hclock2. lia.
  - unfold w3. rewrite elapse_eq.
    destruct (fireEach_effects
                (dueTimers (set_clock (λ t, (t + Z.of_N ms)%Z) w2))
                (set_clock (λ t, (t + Z.of_N ms)%Z) w2)) as (_ & He & _).
    unfold envelopes in *. by rewrite He.
  - unfold w3. rewrite elapse_eq.
    destruct (fireEach_reports n payload
                (dueTimers (set_clock (λ t, (t + Z.of_N ms)%Z) w2))
                (set_clock (λ t, (t + Z.of_N ms)%Z) w2))
      as (before & after & Ht).
    + eapply awaiting_due; [done|]. rewrite Hclock2. lia.
    + by eexists.
    + exists before, after. rewrite Ht. proj. by rewrite Hcb2.
Qed.

Lemma deaf_step e w :
  subscribed (handler w) = false → fromClient e = true →
  let w' := exec (step e) w in
  store w' = store w ∧ handler w' = handler w ∧ requests w' = requests w ∧
  trace w' = trace w ∧ sessionDb w' = sessionDb w ∧ clock w' = clock w.
Proof.
  intros Hdeaf He. destruct e as [f|st| | |]; try discriminate He.
  - unfold exec, step, bind, gets, ret. by rewrite Hdeaf.
  - unfold exec, step, bind, gets, modify, ret. proj. by rewrite Hdeaf.
Qed.

(** X16.  A destroyed handler hears nothing: after [destroy], whatever
    frames arrive and whatever connection changes happen, the message
    store, the handler, the key requests, the session table and the trace
    stay exactly as [destroy] left them: nothing is stored, sent, resent or
    reported, and no session comes into being.  [destroy] itself clears the
    session cache and the pending map and leaves the key requests, the
    message store and the session table as they are. *)
Theorem destroyed_handler_hears_nothing (events : list Event) (w : World)
    (Hevents : Forall (λ e, fromClient e = true) events) :
  let w0 := exec destroy w in
  let w' := exec (run events) w0 in
  store w' = store w ∧ requests w' = requests w ∧ trace w' = trace w ∧
  sessionDb w' = sessionDb w ∧ clock w' = clock w ∧
  handler w' = handler w0 ∧
  sessions (handler w0) = ∅ ∧ pendingOf w0 = ∅ ∧
  ∀ peer, hasSession peer w' = (false, w').
Proof.
  intros w0 w'.
  assert (Hrun : ∀ w1, subscribed (handler w1) = false →
            let w2 := exec (run events) w1 in
            store w2 = store w1 ∧ handler w2 = handler w1 ∧
            requests w2 = requests w1 ∧ trace w2 = trace w1 ∧
            sessionDb w2 = sessionDb w1 ∧ clock w2 = clock w1).
  { clear w0 w'. induction Hevents as [|e events He _ IH]; intros w1 Hdeaf.
    - by split_and!.
    - unfold exec, run. rewrite forEach_cons.
      destruct (deaf_step e w1 Hdeaf He) as (Hs & Hh & Hr & Ht & Hd & Hc).
      destruct (IH (exec (step e) w1)) as (Hs' & Hh' & Hr' & Ht' & Hd' & Hc');
        [by rewrite Hh|].
      unfold exec, run in *. split_and!; congruence. }
  destruct (Hrun w0) as (Hs & Hh & Hr & Ht & Hd & Hc); [done|].
  fold w' in Hs, Hh, Hr, Ht, Hd, Hc.
  split_and!; try done.
  intros peer. unfold hasSession, gets. rewrite Hh.
  by rewrite bool_decide_false by (by intros [? ?]).
Qed.

End sessions.

(** ** Overlapping key requests *)

(** X17.  Two key requests for the same user that overlap share one entry
    of the pending map, and the timer of the older one removes it.  When a
    second request is made [d] ms after the first (0 < d < 10 s), then at
    the deadline of the first the first has timed out and the second, still
    waiting with its own timer live, has lost its entry: a [key_response]
    for the user that arrives now is ignored, and the second request times
    out as well. *)
Theorem older_timeout_drops_the_newer_request (user : string) (w : World)
    (d ms : N) (p : KeyResponsePayload)
    (Hrange : pendingInRange w)
    (Hgap : (0 < d < 10000)%N) (Hms : (ms < 10000)%N)
    (Hdue : (10000 ≤ d + ms)%N)
    (Hp : userId p = user) :
  let n := length (requests w) in
  let w1 := exec (requestPublicKey user) w in
  let w2 := exec (elapse d) w1 in
  let n' := length (requests w2) in
  let w3 := exec (requestPublicKey user) w2 in
  let w4 := exec (elapse ms) w3 in
  (requestPublicKey user w2).1 = n' ∧ n < n' ∧
  timedOut n w4 ∧
  awaiting n' user (clock w2 + 10000) w4 ∧
  pendingOf w4 !! user = None ∧
  exec (handleKeyResponse p) w4 = w4 ∧
  timedOut n' (exec (elapse 10000) w4).
Proof.
  intros n w1 w2 n' w3 w4.
  destruct (requestPublicKey_awaiting user w)
    as (_ & Haw1 & _ & Hc1 & _ & Hown1).
  fold n w1 in Haw1, Hc1, Hown1. specialize (Hown1 Hrange).
  assert (Hrange1 : pendingInRange w1) by by apply requestPublicKey_range.
  destruct (elapse_waiting n user (clock w + 10000) d w1) as [Haw2 Hown2];
    [done|done|lia|]. fold w2 in Haw2, Hown2.
  assert (Hc2 : clock w2 = (clock w + Z.of_N d)%Z).
  { unfold w2. rewrite elapse_clock. lia. }
  assert (Hrange2 : pendingInRange w2) by by apply elapse_range.
  destruct (requestPublicKey_awaiting user w2)
    as (Hres & Haw3 & Hp3 & Hc3 & _ & Hown3).
  fold n' w3 in Hres, Haw3, Hp3, Hc3, Hown3. specialize (Hown3 Hrange2).
  assert (Hlt : n < n') by by eapply awaiting_lt.
  assert (Hund : undisturbed n w2 w3) by by apply requestPublicKey_undisturbed.
  assert (Haw3n : awaiting n user (clock w + 10000) w3)
    by by eapply undisturbed_awaiting.
  assert (Hown3n : ownedBy n user w3) by by eapply undisturbed_ownedBy.
  destruct (elapse_fires n user (clock w + 10000) ms w3) as [Hto Hnone];
    [done|done|lia|]. fold w4 in Hto, Hnone.
  destruct (elapse_waiting n' user (clock w2 + 10000) ms w3) as [Haw4 Hown4];
    [done|done|lia|]. fold w4 in Haw4, Hown4.
  split_and!; try done.
  - apply handleKeyResponse_unmatched. by rewrite Hp.
  - eapply (elapse_fires n' user (clock w2 + 10000)); [done|done|].
    unfold w4. rewrite elapse_clock. lia.
Qed.

(** ** What the handler never removes *)

Lemma grows_refl w : grows w w.
Proof. by split. Qed.

Lemma grows_trans w1 w2 w3 : grows w1 w2 → grows w2 w3 → grows w1 w3.
Proof.
  intros (He1 & Hd1) (He2 & Hd2). split; by etrans.
Qed.

(** A step that leaves the store and the session table alone. *)
Lemma same_grows w w' :
  store w' = store w → sessionDb w' = sessionDb w → grows w w'.
Proof.
  intros Hs Hd. unfold grows, envelopes. by rewrite Hs, Hd.
Qed.

Lemma bind_grows {A B} (c : W A) (k : A → W B) w :
  grows w (c w).2 → (∀ a w1, grows w1 (k a w1).2) → grows w (bind c k w).2.
Proof.
  intros Hc Hk. unfold bind. destruct (c w) as [a w1] eqn:E.
  eapply grows_trans; [exact Hc|]. apply Hk.
Qed.

Lemma forEach_grows {A} (body : A → W unit) l w :
  (∀ a w1, grows w1 (body a w1).2) → grows w (forEach body l w).2.
Proof.
  intros Hb. revert w. induction l as [|x l IH]; intros w.
  - apply grows_refl.
  - rewrite forEach_cons. eapply grows_trans; [apply Hb|apply IH].
Qed.

Lemma gets_grows {A} (f : World → A) w : grows w (gets f w).2.
Proof. apply grows_refl. Qed.

Lemma ret_grows {A} (a : A) w : grows w (ret a w).2.
Proof. apply grows_refl. Qed.

Lemma log_grows e w : grows w (log e w).2.
Proof. by apply same_grows. Qed.

Lemma notify_grows e w : grows w (notify e w).2.
Proof.
  unfold notify, bind, gets. cbn -[log].
  destruct (registered _ _); [apply log_grows|apply grows_refl].
Qed.

Lemma client_send_grows f w : grows w (client_send f w).2.
Proof. by apply same_grows. Qed.

Lemma liftStore_grows {A} (c : M A) w :
  dom (db (store w)) ⊆ dom (db (c (store w)).2) →
  grows w (liftStore c w).2.
Proof.
  intros Hdom. unfold liftStore. destruct (c (store w)) as [a s].
  by split.
Qed.

Lemma saveMessage_grows message w :
  grows w (liftStore (saveMessage message) w).2.
Proof.
  apply liftStore_grows. rewrite saveMessage_db, dom_insert.
  apply union_subseteq_r.
Qed.

Lemma markSynced_grows k w : grows w (liftStore (markSynced k) w).2.
Proof.
  apply liftStore_grows. intros j. rewrite !elem_of_dom.
  rewrite markSynced_db, lookup_markMessageSynced.
  destruct (decide (j = k)); [|done]. by rewrite fmap_is_Some.
Qed.

Lemma markAsRead_grows k w : grows w (liftStore (markAsRead k) w).2.
Proof.
  apply liftStore_grows. intros j. rewrite !elem_of_dom.
  rewrite markAsRead_lookup.
  destruct (decide (j = k)); [|done]. by rewrite fmap_is_Some.
Qed.

Lemma getUnsynced_grows w : grows w (liftStore getUnsynced w).2.
Proof.
  apply liftStore_grows. by destruct (getUnsynced_spec (store w)) as [_ ->].
Qed.

Lemma storeForLater_grows payload w : grows w (storeForLater payload w).2.
Proof.
  unfold storeForLater.
  apply bind_grows; [apply gets_grows|intros now w1].
  apply bind_grows; [apply gets_grows|intros me w2].
  apply bind_grows; [apply saveMessage_grows|intros stored w3].
  apply log_grows.
Qed.

Lemma resume_grows n w : grows w (resume n w).2.
Proof.
  unfold resume. apply bind_grows; [apply gets_grows|intros rs w1].
  destruct (rs !! n) as [r|]; [|apply ret_grows].
  destruct (waiter r); [|apply ret_grows].
  destruct (outcome r);
    [apply ret_grows|apply storeForLater_grows|apply notify_grows].
Qed.

Lemma settle_grows n o w : grows w (settle n o w).2.
Proof.
  unfold settle, bind, gets, modify, ret.
  destruct (outcome <$> requests w !! n) as [[]|];
    by apply same_grows.
Qed.

Lemma fireTimer_grows n w : grows w (fireTimer n w).2.
Proof.
  unfold fireTimer. apply bind_grows; [apply gets_grows|intros rs w1].
  destruct (rs !! n) as [r|]; [|apply ret_grows].
  apply bind_grows; [by apply same_grows|intros ? w2].
  apply bind_grows; [by apply same_grows|intros ? w3].
  apply bind_grows; [apply settle_grows|intros settled w4].
  destruct settled; [apply resume_grows|apply ret_grows].
Qed.

Lemma elapse_grows ms w : grows w (elapse ms w).2.
Proof.
  unfold elapse. apply bind_grows; [by apply same_grows|intros ? w1].
  apply bind_grows; [apply gets_grows|intros due w2].
  apply forEach_grows. intros. apply fireTimer_grows.
Qed.

Lemma handleKeyResponse_grows p w : grows w (handleKeyResponse p w).2.
Proof.
  unfold handleKeyResponse. apply bind_grows; [apply gets_grows|intros h w1].
  destruct (pendingKeyRequests h !! userId p) as [n|]; [|apply ret_grows].
  apply bind_grows; [by apply same_grows|intros ? w2].
  apply bind_grows; [apply settle_grows|intros settled w3].
  apply bind_grows; [by apply same_grows|intros ? w4].
  destruct settled; [apply resume_grows|apply ret_grows].
Qed.

Lemma requestPublicKey_grows user w : grows w (requestPublicKey user w).2.
Proof. by apply same_grows. Qed.

Lemma resend_grows m w : grows w (resend m w).2.
Proof.
  unfold resend. apply bind_grows; [apply client_send_grows|intros b w1].
  destruct b; [apply markSynced_grows|apply ret_grows].
Qed.

Lemma connectionListener_grows st w : grows w (connectionListener st w).2.
Proof.
  unfold connectionListener.
  apply bind_grows; [apply notify_grows|intros ? w1].
  destruct (bool_decide _); [|apply ret_grows].
  unfold syncPendingMessages.
  apply bind_grows; [apply getUnsynced_grows|intros l w2].
  apply forEach_grows. intros. apply resend_grows.
Qed.

Lemma destroy_grows w : grows w (destroy w).2.
Proof. by apply same_grows. Qed.

Section grows_crypto.
Context `{Crypto}.

Lemma establishSession_grows peer pk fp w :
  grows w (establishSession peer pk fp w).2.
Proof.
  unfold establishSession, saveSession, notify, log, bind, gets, modify, ret.
  destruct (myKeyPair (handler w)); [|apply grows_refl].
  destruct (establishSecureSession _ _ _) as [session|]; [|apply grows_refl].
  proj. destruct (registered _ _); proj.
  all: unfold grows, envelopes; proj; cbn [ss_id].
  all: split; [done|rewrite dom_insert; apply union_subseteq_r].
Qed.

Lemma sendMessage_grows recipient conv text pk fp random w :
  grows w (sendMessage recipient conv text pk fp random w).2.
Proof.
  unfold sendMessage.
  apply bind_grows; [apply gets_grows|intros h w1].
  destruct (bool_decide _); [apply ret_grows|].
  apply bind_grows.
  { destruct (sessions h !! recipient);
      [apply ret_grows|apply establishSession_grows]. }
  intros [session|e] w2; [|apply ret_grows].
  apply bind_grows; [apply gets_grows|intros now w3].
  apply bind_grows; [apply gets_grows|intros me w4].
  destruct (encryptSessionMessage _ _ _ _); [|apply ret_grows].
  apply bind_grows; [apply saveMessage_grows|intros stored w5].
  apply bind_grows; [apply log_grows|intros ? w6].
  apply bind_grows; [apply client_send_grows|intros ? w7].
  apply ret_grows.
Qed.

Lemma handleEncryptedMessage_grows payload w :
  grows w (handleEncryptedMessage payload w).2.
Proof.
  unfold handleEncryptedMessage.
  apply bind_grows; [apply gets_grows|intros h w1].
  destruct (sessions h !! p_senderId payload) as [session|].
  - destruct (decryptSessionMessage _ _).
    + apply bind_grows; [apply log_grows|intros ? w2].
      apply bind_grows; [apply saveMessage_grows|intros stored w3].
      apply bind_grows; [apply log_grows|intros ? w4].
      apply bind_grows; [apply notify_grows|intros ? w5].
      apply bind_grows; [apply client_send_grows|intros ? w6].
      apply ret_grows.
    + apply bind_grows; [apply log_grows|intros ? w2]. apply notify_grows.
  - apply bind_grows; [apply requestPublicKey_grows|intros n w2].
    by apply same_grows.
Qed.

Lemma handleKeyRequest_grows a b w : grows w (handleKeyRequest a b w).2.
Proof.
  unfold handleKeyRequest.
  apply bind_grows; [apply gets_grows|intros h w1].
  destruct (myKeyPair h); [|apply ret_grows].
  destruct (bool_decide _); [|apply ret_grows].
  apply bind_grows; [apply client_send_grows|intros ? w2]. apply ret_grows.
Qed.

Lemma step_grows e w : grows w (step e w).2.
Proof.
  destruct e as [f|st|ms|recipient conv text pk fp random|]; cbn [step].
  - apply bind_grows; [apply gets_grows|intros live w1].
    destruct live; [|apply ret_grows].
    destruct f; cbn [dispatch]; try apply ret_grows.
    + apply handleEncryptedMessage_grows.
    + apply notify_grows.
    + apply notify_grows.
    + apply handleKeyRequest_grows.
    + apply handleKeyResponse_grows.
    + apply bind_grows; [apply markAsRead_grows|intros ? w2].
      apply notify_grows.
  - apply bind_grows; [by apply same_grows|intros ? w1].
    apply bind_grows; [apply gets_grows|intros live w2].
    destruct live; [apply connectionListener_grows|apply ret_grows].
  - apply elapse_grows.
  - apply bind_grows; [apply sendMessage_grows|intros ? w1]. apply ret_grows.
  - apply destroy_grows.
Qed.

Lemma run_grows events w : grows w (run events w).2.
Proof. apply forEach_grows. intros. apply step_grows. Qed.

(** X18.  The handler only ever adds to the tables: whatever events it
    goes through (inbound frames, connection changes, timers, calls of
    [sendMessage], [destroy]), every id that had an envelope in the message
    store still has one, and every id that had a record in the session
    table still has one. *)
Theorem handler_never_deletes_a_record (events : list Event) (w : World) :
  let w' := exec (run events) w in
  dom (envelopes w) ⊆ dom (envelopes w') ∧
  dom (sessionDb w) ⊆ dom (sessionDb w').
Proof.
  intros w'. by destruct (run_grows events w) as (He & Hd).
Qed.

End grows_crypto.

(** ** The properties at work *)

Lemma sendMessage_needs_an_identity_witness :
  (@sendMessage demoCrypto "bob" "conv-1" "hello" "Qk9C"
     "B2C3-D4E5-F6A7-8901" "k3" (exec destroy aliceOnline)).1 =
  Throw "Handler not initialized".
Proof.
  assert (Hnone : myKeyPair (handler (exec destroy aliceOnline)) = None ∨
                  myUserId (handler (exec destroy aliceOnline)) = "")
    by (left; reflexivity).
  destruct (@sendMessage_needs_an_identity demoCrypto "bob" "conv-1" "hello"
              "Qk9C" "B2C3-D4E5-F6A7-8901" "k3" _ Hnone) as [Hw _].
  by rewrite Hw.
Defined.

Lemma cached_session_is_reused_witness :
  (@getOrCreateSession demoCrypto "bob" "" "" aliceWithBob).1 = Ok bobSession.
Proof.
  assert (Hfirst : @getOrCreateSession demoCrypto "bob" "Qk9C"
                     "B2C3-D4E5-F6A7-8901" aliceOnline =
                   (Ok bobSession, aliceWithBob)) by reflexivity.
  destruct (@cached_session_is_reused demoCrypto _ _ _ _ _ _ Hfirst)
    as [_ Hw].
  by rewrite Hw.
Defined.

Lemma key_request_answered_only_when_addressed_to_me_witness :
  trace (exec (@step demoCrypto (Receive (FKeyRequest "bob" "carol")))
              aliceOnline) = [].
Proof.
  assert (Hlive : subscribed (handler aliceOnline) = true) by reflexivity.
  destruct (@key_request_answered_only_when_addressed_to_me demoCrypto
              "bob" "carol" aliceOnline Hlive) as (_ & _ & _ & _ & Hw).
  exact Hw.
Defined.

Lemma read_receipt_marks_the_named_message_witness :
  trace (exec (@step demoCrypto
                 (Receive (FReadReceipt "conv-1" "m1" "bob" 1700000000500)))
              aliceOnline) =
  [Notified (OnReadReceipt "conv-1" "m1")].
Proof.
  assert (Hlive : subscribed (handler aliceOnline) = true) by reflexivity.
  destruct (@read_receipt_marks_the_named_message demoCrypto "conv-1" "m1"
              "bob" 1700000000500 aliceOnline Hlive) as (_ & Hw & _).
  exact Hw.
Defined.

Lemma key_response_stores_the_parked_message_undecrypted_witness :
  let w1 := exec (@handleEncryptedMessage demoCrypto (fromBob "enc:hi"))
                 aliceOnline in
  let w2 := exec (handleKeyResponse (mkKeyResponsePayload "bob" "Qk9C" "B2C3"))
                 w1 in
  r_ciphertext <$> envelopes w2 !! "msg-0" = Some "enc:hi" ∧
  sessions (handler w2) = sessions (handler aliceOnline).
Proof.
  intros w1 w2.
  assert (Hnone : sessions (handler aliceOnline) !! p_senderId (fromBob "enc:hi")
                  = None) by reflexivity.
  assert (Hp : userId (mkKeyResponsePayload "bob" "Qk9C" "B2C3") =
               p_senderId (fromBob "enc:hi")) by reflexivity.
  destruct (@key_response_stores_the_parked_message_undecrypted demoCrypto
              _ _ aliceOnline Hnone Hp) as (_ & He & _ & _ & _ & Hs & _).
  fold w1 w2 in He, Hs. split; [|exact Hs].
  rewrite He.
  exact (f_equal (fmap r_ciphertext)
           (lookup_insert_eq (envelopes aliceOnline) "msg-0" _)).
Defined.

Lemma destroy_leaves_the_timers_running_witness :
  let w1 := exec (@handleEncryptedMessage demoCrypto (fromBob "enc:hi"))
                 aliceOnline in
  let w3 := exec (elapse 10000) (exec destroy w1) in
  timedOut (length (requests aliceOnline)) w3 ∧
  envelopes w3 = envelopes aliceOnline.
Proof.
  intros w1 w3.
  assert (Hnone : sessions (handler aliceOnline) !! p_senderId (fromBob "enc:hi")
                  = None) by reflexivity.
  assert (Hlate : (10000 ≤ 10000)%N) by reflexivity.
  destruct (@destroy_leaves_the_timers_running demoCrypto _ aliceOnline
              10000%N Hnone Hlate) as (_ & Hto & He & _).
  split; [exact Hto|exact He].
Defined.

Lemma destroyed_handler_hears_nothing_witness :
  trace (exec (@run demoCrypto
                 [Receive (FMessage (fromBob "enc:hi"));
                  ConnectionChange connected])
              (exec destroy aliceOffline)) = trace aliceOffline.
Proof.
  assert (Hevents : Forall (λ e, fromClient e = true)
            [Receive (FMessage (fromBob "enc:hi"));
             ConnectionChange connected])
    by (repeat constructor).
  destruct (@destroyed_handler_hears_nothing demoCrypto _ aliceOffline
              Hevents) as (_ & _ & Ht & _).
  exact Ht.
Defined.

Lemma older_timeout_drops_the_newer_request_witness :
  pendingOf
    (exec (elapse 7000)
       (exec (requestPublicKey "bob")
          (exec (elapse 4000) (exec (requestPublicKey "bob") aliceOnline))))
    !! "bob" = None.
Proof.
  assert (Hrange : pendingInRange aliceOnline).
  { intros u k Hu. vm_compute in Hu. discriminate. }
  assert (Hgap : (0 < 4000 < 10000)%N) by (split; reflexivity).
  assert (Hms : (7000 < 10000)%N) by reflexivity.
  assert (Hdue : (10000 ≤ 4000 + 7000)%N) by (vm_compute; discriminate).
  assert (Hp : userId (mkKeyResponsePayload "bob" "Qk9C" "B2C3") = "bob")
    by reflexivity.
  destruct (older_timeout_drops_the_newer_request "bob" aliceOnline 4000 7000
              _ Hrange Hgap Hms Hdue Hp) as (_ & _ & _ & _ & Hw & _).
  exact Hw.
Defined.

End ProtocolLaws.

(* ===================================================================== *)
(** * Properties of the authentication state *)
(* ===================================================================== *)

Module AuthLaws.
Import Auth.

Section auth.
Context {User : Type}.
Implicit Types (state : AuthState User) (action : AuthAction User).

Lemma authReducer_consistent state action :
  consistent state → consistent (authReducer state action).
Proof.
  intros (Hauth & Hboth & Herr).
  destruct action; unfold consistent; simpl;
    rewrite ?is_Some_alt in *; simpl; intuition (try done; eauto).
Qed.

(** X20.  Whatever actions are dispatched, starting from the initial state:
    [isAuthenticated] is set exactly when a user and a token are held, the
    two are held or missing together, and an error message is only ever
    held while [isAuthenticated] is not set. *)
Theorem auth_state_stays_consistent (actions : list (AuthAction User)) :
  consistent (dispatched actions).
Proof.
  unfold dispatched.
  assert (Hinit : consistent (@initialState User)).
  { unfold consistent. simpl. rewrite ?is_Some_alt. simpl.
    intuition done. }
  revert Hinit. generalize (@initialState User).
  induction actions as [|action actions IH]; intros state Hstate; [done|].
  simpl. by apply IH, authReducer_consistent.
Qed.

End auth.
End AuthLaws.

(* ===================================================================== *)
(** * Properties of the fingerprint display *)
(* ===================================================================== *)

Module FingerprintLaws.
Import Fingerprint.

(** Induction for functions that take a string four characters at a
    time. *)
Lemma by_fours (P : list ascii → Prop) :
  P [] → (∀ a, P [a]) → (∀ a b, P [a; b]) → (∀ a b c, P [a; b; c]) →
  (∀ a b c d rest, P rest → P (a :: b :: c :: d :: rest)) →
  ∀ s, P s.
Proof.
  intros H0 H1 H2 H3 H4.
  assert (Hall : ∀ n s, length s ≤ n → P s).
  { induction n as [|n IH]; intros s Hn.
    - destruct s; [done|simpl in Hn; lia].
    - destruct s as [|a [|b [|c [|d rest]]]]; try done.
      apply H4, IH. simpl in Hn. lia. }
  intros s. by apply (Hall (length s)).
Qed.

Lemma concat_groupsOf4 s : concat (groupsOf4 s) = s.
Proof.
  induction s as [|a|a b|a b c|a b c d rest IH] using by_fours; try done.
  cbn [groupsOf4 concat]. by rewrite IH.
Qed.

Lemma groupsOf4_nil s : groupsOf4 s = [] ↔ s = [].
Proof. by destruct s as [|a [|b [|c [|d rest]]]]. Qed.

Lemma groupsOf4_Forall (P : ascii → Prop) s :
  Forall P s → Forall (Forall P) (groupsOf4 s).
Proof.
  induction s as [|a|a b|a b c|a b c d rest IH] using by_fours; intros Hs.
  - constructor.
  - by constructor.
  - by constructor.
  - by constructor.
  - cbn [groupsOf4]. inversion Hs as [|? ? Ha Hs1]; subst.
    inversion Hs1 as [|? ? Hb Hs2]; subst.
    inversion Hs2 as [|? ? Hc Hs3]; subst.
    inversion Hs3 as [|? ? Hd Hs4]; subst.
    constructor; [by repeat constructor|by apply IH].
Qed.

Lemma join_cons sep part rest :
  rest ≠ [] → join sep (part :: rest) = part ++ sep ++ join sep rest.
Proof. by destruct rest. Qed.

Lemma clean_app s t : clean (s ++ t) = clean s ++ clean t.
Proof. apply List.filter_app. Qed.

Lemma clean_hex s : Forall (λ c, isHexDigit c = true) s → clean s = s.
Proof.
  induction 1 as [|c s Hc _ IH]; [done|]. unfold clean in *. simpl.
  by rewrite Hc, IH.
Qed.

Lemma clean_is_hex s : Forall (λ c, isHexDigit c = true) (clean s).
Proof.
  apply Forall_forall. intros c Hc. apply list_elem_of_In in Hc.
  by apply List.filter_In in Hc as [_ ?].
Qed.

Lemma clean_join groups :
  Forall (Forall (λ c, isHexDigit c = true)) groups →
  clean (join [space] groups) = concat groups.
Proof.
  induction 1 as [|part rest Hpart Hrest IH]; [done|].
  destruct rest as [|part' rest].
  - simpl. rewrite app_nil_r. by apply clean_hex.
  - rewrite join_cons by done. rewrite !clean_app, IH.
    cbn [concat]. by rewrite clean_hex.
Qed.

Lemma join_groupsOf4_nil s : join [space] (groupsOf4 s) = [] ↔ s = [].
Proof.
  destruct s as [|a [|b [|c [|d rest]]]]; try done.
  cbn [groupsOf4]. by destruct (groupsOf4 rest).
Qed.

Lemma formatChars_eq s :
  formatChars s =
  if decide (clean s = []) then s else join [space] (groupsOf4 (clean s)).
Proof.
  unfold formatChars, matchGroups.
  destruct (decide (clean s = [])) as [->|Hne]; [done|].
  destruct (groupsOf4 (clean s)) as [|g gs] eqn:Hg.
  { by apply (proj1 (groupsOf4_nil _)) in Hg. }
  cbn [fmap option_fmap option_map].
  destruct (join [space] (g :: gs)) eqn:Hj; [|done].
  rewrite <- Hg in Hj. by apply (proj1 (join_groupsOf4_nil _)) in Hj.
Qed.

Lemma length_join_groupsOf4 s :
  s ≠ [] →
  length (join [space] (groupsOf4 s)) = length s + (length s - 1) / 4.
Proof.
  induction s as [|a|a b|a b c|a b c d rest IH] using by_fours;
    intros Hs; try done.
  destruct (decide (rest = [])) as [->|Hne]; [done|].
  cbn [groupsOf4]. rewrite join_cons by (by rewrite groupsOf4_nil).
  rewrite !length_app, IH by done. cbn [length].
  assert (Hpos : 0 < length rest) by (destruct rest; [done|simpl; lia]).
  replace (S (S (S (S (length rest)))) - 1) with (length rest - 1 + 1 * 4)
    by lia.
  rewrite Nat.div_add by lia. lia.
Qed.

Lemma join_groupsOf4_chars s c :
  c ∈ join [space] (groupsOf4 s) → c ∈ s ∨ c = space.
Proof.
  induction s as [|a|a b|a b c'|a b c' d rest IH] using by_fours;
    try (intros ?; by left).
  destruct (decide (rest = [])) as [->|Hne]; [intros ?; by left|].
  cbn [groupsOf4]. rewrite join_cons by (by rewrite groupsOf4_nil).
  rewrite !elem_of_app. intros [Hc|[Hc|Hc]].
  - left. change (c ∈ [a; b; c'; d] ++ rest). apply elem_of_app. by left.
  - right. by apply list_elem_of_singleton in Hc.
  - destruct (IH Hc) as [?|?]; [left|by right].
    change (c ∈ [a; b; c'; d] ++ rest). apply elem_of_app. by right.
Qed.

(** X21.  [formatFingerprint] only regroups: the hexadecimal digits of the
    result are those of the argument, in the same order and in the same
    case, and formatting a formatted fingerprint changes nothing. *)
Theorem formatFingerprint_only_regroups (fingerprint : string) :
  let chars := String.list_ascii_of_string in
  clean (chars (formatFingerprint fingerprint)) = clean (chars fingerprint) ∧
  formatFingerprint (formatFingerprint fingerprint) =
  formatFingerprint fingerprint.
Proof.
  intros chars. unfold formatFingerprint.
  rewrite !String.list_ascii_of_string_of_list_ascii.
  fold (chars fingerprint). set (s := chars fingerprint).
  assert (Hclean : clean (formatChars s) = clean s).
  { rewrite formatChars_eq. destruct (decide (clean s = [])); [done|].
    rewrite clean_join by apply groupsOf4_Forall, clean_is_hex.
    apply concat_groupsOf4. }
  split; [done|]. f_equal.
  rewrite (formatChars_eq (formatChars s)), Hclean.
  rewrite (formatChars_eq s). by destruct (decide (clean s = [])).
Qed.

(** X22.  The shape of a formatted fingerprint.  A fingerprint without any
    hexadecimal digit comes back as it is.  Otherwise the result is made of
    the [n] hexadecimal digits of the argument and of single spaces, one
    after every fourth digit that has a successor: it holds nothing but
    hexadecimal digits and spaces, has [n + (n - 1) / 4] characters, and
    neither starts nor ends with a space. *)
Theorem formatFingerprint_groups_by_four (fingerprint : string) :
  let chars := String.list_ascii_of_string in
  let digits := clean (chars fingerprint) in
  let result := chars (formatFingerprint fingerprint) in
  (digits = [] → formatFingerprint fingerprint = fingerprint) ∧
  (digits ≠ [] →
     result = join [space] (groupsOf4 digits) ∧
     Forall (λ c, isHexDigit c = true ∨ c = space) result ∧
     length result = length digits + (length digits - 1) / 4 ∧
     head result = head digits ∧ last result = last digits).
Proof.
  intros chars digits result. unfold result, formatFingerprint.
  rewrite !String.list_ascii_of_string_of_list_ascii.
  fold (chars fingerprint). rewrite formatChars_eq. fold digits. split.
  - intros Hd. rewrite decide_True by done.
    apply String.string_of_list_ascii_of_string.
  - intros Hd. rewrite decide_False by done. split_and!.
    + done.
    + apply Forall_forall. intros c Hc.
      apply join_groupsOf4_chars in Hc as [Hc|Hc]; [left|by right].
      revert c Hc. apply Forall_forall, clean_is_hex.
    + by apply length_join_groupsOf4.
    + clear Hd. generalize digits. intros s.
      destruct s as [|a [|b [|c [|d rest]]]]; try done.
      cbn [groupsOf4]. by destruct (groupsOf4 rest).
    + clear Hd. generalize digits. intros s.
      induction s as [|a|a b|a b c|a b c d rest IH] using by_fours;
        try done.
      destruct (decide (rest = [])) as [->|Hne]; [done|].
      cbn [groupsOf4]. rewrite join_cons by (by rewrite groupsOf4_nil).
      change (a :: b :: c :: d :: rest) with ([a; b; c; d] ++ rest).
      rewrite !app_assoc, !last_app, IH.
      destruct (last rest) eqn:Hl; [done|].
      by apply last_None in Hl.
Qed.

Lemma cell_decodes c :
  isHexDigit c = true →
  digitOfColour <$> (cellColour <$> parseInt16 (toUpperCase c)) =
  Some (toUpperCase c).
Proof.
  destruct c as [[] [] [] [] [] [] [] []]; intros Hc;
    first [discriminate Hc|reflexivity].
Qed.

Lemma cells_decode s :
  Forall (λ c, isHexDigit c = true) s →
  mapM (λ char, digitOfColour <$> (cellColour <$> parseInt16 char))
       (toUpperCase <$> s) = Some (toUpperCase <$> s).
Proof.
  induction 1 as [|c s Hc _ IH]; [done|].
  cbn [fmap list_fmap mapM]. fold (toUpperCase <$> s).
  rewrite cell_decodes by done. simpl. by rewrite IH.
Qed.

(** X23.  The pattern shows the first 16 hexadecimal digits of a fingerprint
    and nothing else: it has one cell for each of them, every cell has a
    colour (no NaN), and two fingerprints have the same pattern exactly when
    they agree on these digits up to case.  Digits after the 16th, like
    separators, make no difference to the pattern. *)
Theorem pattern_shows_the_first_16_digits (f g : list ascii) :
  length (FingerprintPattern f) = length (clean f) `min` 16 ∧
  Forall is_Some (FingerprintPattern f) ∧
  (FingerprintPattern f = FingerprintPattern g ↔ cellsOf f = cellsOf g).
Proof.
  assert (Hcells : ∀ s, ∃ t, cellsOf s = toUpperCase <$> t ∧
                             Forall (λ c, isHexDigit c = true) t).
  { intros s. exists (take 16 (clean s)). split.
    - unfold cellsOf. by rewrite fmap_take.
    - apply Forall_take, clean_is_hex. }
  assert (Hdec : ∀ s,
    mapM (λ o, digitOfColour <$> o) (FingerprintPattern s) = Some (cellsOf s)).
  { intros s. unfold FingerprintPattern. fold (cellsOf s).
    destruct (Hcells s) as (t & -> & Ht).
    rewrite <- (cells_decode t Ht).
    generalize (toUpperCase <$> t). intros l.
    induction l as [|c l IH]; [done|].
    cbn [fmap list_fmap mapM]. by rewrite IH. }
  split_and!.
  - unfold FingerprintPattern. rewrite length_fmap, length_take, length_fmap.
    lia.
  - unfold FingerprintPattern. fold (cellsOf f).
    destruct (Hcells f) as (t & -> & Ht).
    apply Forall_fmap, Forall_fmap, Forall_forall. intros c Hc. simpl.
    assert (Hc' : isHexDigit c = true)
      by (revert c Hc; by apply Forall_forall).
    apply cell_decodes in Hc'.
    destruct (parseInt16 (toUpperCase c)); [by eexists|done].
  - split.
    + intros Heq. assert (Hf := Hdec f). rewrite Heq, Hdec in Hf.
      by injection Hf.
    + intros Heq. unfold FingerprintPattern. fold (cellsOf f) (cellsOf g).
      by rewrite Heq.
Qed.

End FingerprintLaws.

(* ===================================================================== *)
(** * Properties of the message hooks *)
(* ===================================================================== *)

Module HooksLaws.
Import Storage StorageFacts Protocol ProtocolFacts StorageLaws Hooks.

Lemma addMessage_known message (prev : list Message) :
  msg_id message ∈ msg_id <$> prev →
  addMessage message prev =
  (λ m, if bool_decide (msg_id m = msg_id message) then message else m)
    <$> prev.
Proof.
  intros Hin. unfold addMessage.
  destruct (existsb _ prev) eqn:He; [done|].
  apply list_elem_of_fmap in Hin as (m & Hid & Hm).
  assert (Hex : existsb (λ m, bool_decide (msg_id m = msg_id message)) prev
                = true).
  { apply existsb_exists. exists m. split; [by apply list_elem_of_In|].
    by apply bool_decide_eq_true. }
  congruence.
Qed.

Lemma addMessage_new message (prev : list Message) :
  msg_id message ∉ msg_id <$> prev →
  addMessage message prev = prev ++ [message].
Proof.
  intros Hout. unfold addMessage.
  destruct (existsb _ prev) eqn:He; [|done].
  apply existsb_exists in He as (m & Hm & Hid).
  apply bool_decide_eq_true in Hid. destruct Hout.
  apply list_elem_of_fmap. exists m. split; [done|].
  by apply list_elem_of_In.
Qed.

Lemma replace_ids message (prev : list Message) :
  msg_id <$> ((λ m, if bool_decide (msg_id m = msg_id message)
                    then message else m) <$> prev) = msg_id <$> prev.
Proof.
  rewrite <- list_fmap_compose. apply list_fmap_ext. intros i m _. simpl.
  by case_bool_decide.
Qed.

(** X24.  [addMessage] inserts or replaces by id.  A message whose id is
    new goes to the end of the list; one whose id is there takes the place
    of the message that has it, so that the ids of the list, and their
    order, stay as they are.  Either way the message is in the list
    afterwards, the messages of other ids are untouched, ids that were
    unique stay unique, and adding the same message again changes
    nothing. *)
Theorem addMessage_inserts_or_replaces (message : Message)
    (prev : list Message) :
  let next := addMessage message prev in
  msg_id <$> next =
    (if decide (msg_id message ∈ msg_id <$> prev) then msg_id <$> prev
     else (msg_id <$> prev) ++ [msg_id message]) ∧
  message ∈ next ∧
  (∀ m, msg_id m ≠ msg_id message → m ∈ next ↔ m ∈ prev) ∧
  (NoDup (msg_id <$> prev) → NoDup (msg_id <$> next)) ∧
  addMessage message next = next.
Proof.
  intros next. subst next.
  destruct (decide (msg_id message ∈ msg_id <$> prev)) as [Hin|Hout].
  - rewrite addMessage_known by done.
    assert (Hids := replace_ids message prev).
    split_and!.
    + done.
    + apply list_elem_of_fmap in Hin as (m & Hid & Hm).
      apply list_elem_of_fmap. exists m. split; [|done].
      by rewrite bool_decide_true.
    + intros m Hne. rewrite list_elem_of_fmap. split.
      * intros (m0 & -> & Hm0). by case_bool_decide.
      * intros Hm. exists m. split; [|done].
        by rewrite bool_decide_false.
    + by rewrite Hids.
    + rewrite addMessage_known by (by rewrite Hids).
      rewrite <- list_fmap_compose. apply list_fmap_ext. intros i m _.
      unfold compose.
      destruct (decide (msg_id m = msg_id message)) as [He|Hne].
      * rewrite (bool_decide_true _ He). by rewrite bool_decide_true.
      * by rewrite !(bool_decide_false _ Hne).
  - rewrite addMessage_new by done. split_and!.
    + by rewrite fmap_app.
    + apply elem_of_app. right. by apply list_elem_of_singleton.
    + intros m Hne. rewrite elem_of_app, list_elem_of_singleton.
      split; [|by left]. intros [Hm|Hm]; [done|by subst].
    + intros Hnd. rewrite fmap_app. apply NoDup_app. split_and!.
      * done.
      * intros k Hk Hk'. apply list_elem_of_singleton in Hk'. by subst.
      * apply NoDup_singleton.
    + rewrite addMessage_known.
      * rewrite fmap_app. simpl. rewrite bool_decide_true by done.
        f_equal. rewrite <- (list_fmap_id prev) at 2.
        apply list_fmap_ext. intros i m Hm. simpl.
        rewrite bool_decide_false; [done|]. intros Hid. apply Hout.
        apply list_elem_of_fmap. exists m. split; [done|].
        by eapply list_elem_of_lookup_2.
      * rewrite fmap_app. apply elem_of_app. right.
        by apply list_elem_of_singleton.
Qed.

Lemma markEachSent_db l s :
  db (forEach markSent l s).2 = markAllSynced l (db s).
Proof.
  revert s. induction l as [|m l IH]; intros s; [done|].
  cbn [forEach]. unfold bind.
  destruct (markSent m s) as [[] s1] eqn:Hm.
  rewrite IH. unfold markAllSynced. cbn [foldl]. f_equal.
  replace s1 with (markSent m s).2 by (by rewrite Hm).
  apply markSynced_db.
Qed.

(** X25.  [syncNow] sends nothing; it marks.  Called while online and not
    already syncing, it sets [synced] on every envelope of the store and
    changes nothing else of any envelope, reports the number of envelopes
    that were unsynced, and leaves nothing unsynced; the hook ends with a
    pending count of 0 and [isSyncing] unset.  Called while offline or
    while a sync is running, it does nothing at all. *)
Theorem syncNow_marks_every_envelope_synced (isOnline : bool)
    (h : SyncHook) :
  let h' := (syncNow isOnline h).2 in
  if isSyncing h || negb isOnline
  then syncNow isOnline h = (None, h)
  else
    (syncNow isOnline h).1 = Some (length (getUnsynced (hookStore h)).1) ∧
    (∀ k, db (hookStore h') !! k = setSynced <$> db (hookStore h) !! k) ∧
    (getUnsynced (hookStore h')).1 = [] ∧
    pendingCount h' = 0 ∧ isSyncing h' = false.
Proof.
  intros h'. subst h'. unfold syncNow.
  destruct (isSyncing h || negb isOnline); [done|].
  destruct (getUnsynced_spec (hookStore h)) as [Hl Hdb].
  destruct (getUnsynced (hookStore h)) as [unsynced s1]. simpl in Hl, Hdb.
  assert (Hmark := markEachSent_db unsynced s1).
  destruct (forEach markSent unsynced s1) as [[] s2]. simpl in Hmark.
  cbn [fst snd hookStore pendingCount isSyncing].
  assert (Hlook : ∀ k, db s2 !! k = setSynced <$> db (hookStore h) !! k).
  { intros k. rewrite Hmark, Hdb, Hl. apply markAllSynced_unsynced. }
  split_and!; try done.
  destruct (getUnsynced_spec s2) as [-> _].
  unfold getUnsyncedMessages. apply filter_none.
  intros m Hm Hs. apply elem_of_allMessages in Hm. rewrite Hlook in Hm.
  destruct (db (hookStore h) !! id m) as [r|]; [|done]. simpl in Hm.
  assert (Hflag : r_synced (setSynced r) = r_synced (to_row m))
    by congruence.
  simpl in Hflag. congruence.
Qed.

End HooksLaws.
